(** * URSM E-step: the bulk and single-cell Gibbs samplers of
      [e_step_gibbs.py]

    The two classes [LogitNormalGibbs_BK] and [LogitNormalGibbs_SC] are
    embedded as pure functions over explicit sampler states.

    - A numpy [float64] is idealised as an exact rational ([Qc]) or the
      value [NaN].  numpy evaluates a division by zero to [inf] or [nan]
      and goes on (it warns, it does not raise); both outcomes are the
      single absorbing element [NaN] here.  Rounding is not modelled.
    - An [ndarray] is its index function; its shape is given by the
      dimensions [M], [N], [K], [L] the constructor stores.
    - An attribute that a method creates ([self.Z], [self.W], [self.AW],
      [self.suff_stats], ...) is an [option] field: reading it before it
      exists is Python's [AttributeError].
    - [np.random], [pypolyagamma], [np.log] and [scipy.special.expit] are
      library code: they are the fields of the class [Library].  A random
      draw threads an abstract generator state and may raise (numpy
      rejects some arguments): it returns an [option]. *)

From Stdlib Require Import ZArith QArith Qcanon List Lia Bool Arith.
Import ListNotations.

Set Implicit Arguments.

(** ** Numbers *)

Inductive num : Type :=
| Fin (q : Qc)
| NaN.

Declare Scope num_scope.
Delimit Scope num_scope with num.
Bind Scope num_scope with num.

Definition lift2 (f : Qc -> Qc -> Qc) (x y : num) : num :=
  match x, y with
  | Fin a, Fin b => Fin (f a b)
  | _, _ => NaN
  end.

Definition nadd : num -> num -> num := lift2 Qcplus.
Definition nsub : num -> num -> num := lift2 Qcminus.
Definition nmul : num -> num -> num := lift2 Qcmult.

(** numpy's [x / y]: no exception, a non-finite value when [y] is zero. *)
Definition ndiv (x y : num) : num :=
  match x, y with
  | Fin a, Fin b => if Qc_eq_dec b 0 then NaN else Fin (a / b)
  | _, _ => NaN
  end.

Definition of_Z (z : Z) : num := Fin (Q2Qc (inject_Z z)).
Definition of_nat (n : nat) : num := of_Z (Z.of_nat n).

(** [x == 0] on floats: false on a non-finite value. *)
Definition is_zero (x : num) : bool :=
  match x with
  | Fin a => if Qc_eq_dec a 0 then true else false
  | NaN => false
  end.

Definition val (x : num) : Qc :=
  match x with Fin a => a | NaN => 0%Qc end.

Notation "x + y" := (nadd x y) : num_scope.
Notation "x - y" := (nsub x y) : num_scope.
Notation "x * y" := (nmul x y) : num_scope.
Notation "x / y" := (ndiv x y) : num_scope.
Notation "0" := (Fin 0%Qc) : num_scope.
Notation "1" := (Fin 1%Qc) : num_scope.

Local Open Scope num_scope.

(** [a.sum()] over an axis of length [n] *)
Fixpoint sum_n (n : nat) (f : nat -> num) : num :=
  match n with
  | O => 0
  | S n' => sum_n n' f + f n'
  end.

(** the same sum over exact rationals and over integers *)
Fixpoint qsum (n : nat) (f : nat -> Qc) : Qc :=
  match n with
  | O => 0%Qc
  | S n' => (qsum n' f + f n')%Qc
  end.

Fixpoint zsum (n : nat) (f : nat -> Z) : Z :=
  match n with
  | O => 0%Z
  | S n' => (zsum n' f + f n')%Z
  end.

(** arithmetic mean *)
Definition mean (xs : list num) : num :=
  fold_left nadd xs 0 / of_nat (length xs).

(** a finite number other than zero *)
Definition nonzero (x : num) : Prop :=
  exists q, x = Fin q /\ q <> 0%Qc.

(** ** Python exceptions and the error monad *)

Inductive error : Type :=
| AttributeError      (* an attribute read before any method created it *)
| IndexError          (* an index outside the array *)
| ZeroDivisionError   (* a Python (not numpy) division by zero *)
| LibraryError.       (* an exception raised inside a library draw *)

Inductive result (A : Type) : Type :=
| Ok (a : A)
| Err (e : error).
Arguments Err {A} e.

Definition bind {A B : Type} (r : result A) (k : A -> result B) : result B :=
  match r with
  | Ok a => k a
  | Err e => Err e
  end.

Notation "x <- r ;; k" := (bind r (fun x => k))
  (at level 61, r at next level, right associativity).

Definition attr {A : Type} (o : option A) : result A :=
  match o with
  | Some a => Ok a
  | None => Err AttributeError
  end.

(** the call of a library draw *)
Definition call {A : Type} (o : option A) : result A :=
  match o with
  | Some a => Ok a
  | None => Err LibraryError
  end.

(** [for giter in range(n): body] *)
Fixpoint for_range {St : Type} (n : nat) (body : nat -> St -> result St)
  (st : St) : result St :=
  match n with
  | O => Ok st
  | S n' => st' <- for_range n' body st ;; body n' st'
  end.

(** In-place writes [a[i] = v], [a[i, j] = v]. *)
Definition upd1 {T : Type} (a : nat -> T) (i : nat) (v : T) : nat -> T :=
  fun i' => if Nat.eqb i' i then v else a i'.

Definition upd2 {T : Type} (a : nat -> nat -> T) (i j : nat) (v : T)
  : nat -> nat -> T :=
  fun i' j' => if Nat.eqb i' i && Nat.eqb j' j then v else a i' j'.

(** [for x in xs: body] *)
Fixpoint for_each {X St : Type} (xs : list X) (body : X -> St -> result St)
  (st : St) : result St :=
  match xs with
  | [] => Ok st
  | x :: rest => st' <- body x st ;; for_each rest body st'
  end.

(** [for j in range(n): body] when the body cannot raise *)
Fixpoint iter_range {St : Type} (n : nat) (body : nat -> St -> St)
  (st : St) : St :=
  match n with
  | O => st
  | S n' => body n' (iter_range n' body st)
  end.

(** ** The libraries the samplers call *)

Class Library : Type := {
  (** state of the random generators (numpy's global one and the pool of
      Polya-Gamma generators [self.ppgs]) *)
  rng : Type;
  (** [np.log], [scipy.special.expit] *)
  np_log : num -> num;
  expit : num -> num;
  (** [np.random.dirichlet(a)], [a] of length [K] *)
  dirichlet : nat -> (nat -> num) -> rng -> option ((nat -> num) * rng);
  (** [np.random.multinomial(n, pvals)], [pvals] of length [K] *)
  multinomial :
    nat -> Z -> (nat -> num) -> rng -> option ((nat -> Z) * rng);
  (** [np.random.binomial(1, p)] and [np.random.binomial(1, p, size)] *)
  binomial : num -> rng -> option (Z * rng);
  binomial_size : num -> nat -> rng -> option ((nat -> Z) * rng);
  (** [ppg.pgdrawvpar(ppgs, ns, psi_row, out)] with [ns] all ones: the
      new contents of [out], of length [N] *)
  pgdrawvpar : nat -> (nat -> num) -> rng -> option ((nat -> num) * rng);
  (** [np.random.multivariate_normal(mean, cov)] in dimension 2; [cov] is
      given by its rows *)
  multivariate_normal :
    num * num -> (num * num) * (num * num) -> rng
    -> option ((num * num) * rng)
}.

(** What numpy documents of the two draws of the bulk sampler: a
    Dirichlet draw lies on the simplex, a multinomial draw distributes
    the [n] trials. *)
Class RandomLaws (lib : Library) : Prop := {
  dirichlet_simplex : forall K a g v g',
    (0 < K)%nat -> dirichlet K a g = Some (v, g') -> sum_n K v = 1;
  multinomial_total : forall K n p g c g',
    (0 < K)%nat -> multinomial K n p g = Some (c, g') -> zsum K c = n
}.

(** A library none of whose draws raises *)
Class TotalLibrary (lib : Library) : Prop := {
  dirichlet_returns : forall K a g, dirichlet K a g <> None;
  multinomial_returns : forall K n p g, multinomial K n p g <> None;
  binomial_returns : forall p g, binomial p g <> None;
  binomial_size_returns : forall p n g, binomial_size p n g <> None;
  pgdrawvpar_returns : forall n p g, pgdrawvpar n p g <> None;
  multivariate_normal_returns : forall m c g,
    multivariate_normal m c g <> None
}.

(** [returns r P]: the call [r] returns normally with a value that
    satisfies [P], unless a library draw raised.  It raises no exception
    of its own. *)
Definition returns {lib : Library} {A : Type} (r : result A)
  (P : A -> Prop) : Prop :=
  match r with
  | Ok a => P a
  | Err e => e = LibraryError /\ ~ TotalLibrary lib
  end.

(** What numpy documents of a binomial draw with one trial: it is 0 or
    1. *)
Class BernoulliLaws (lib : Library) : Prop := {
  binomial_binary : forall p g v g',
    binomial p g = Some (v, g') -> v = 0%Z \/ v = 1%Z;
  binomial_size_binary : forall p n g f g',
    binomial_size p n g = Some (f, g') ->
    forall i, (i < n)%nat -> f i = 0%Z \/ f i = 1%Z
}.

(** ** Bulk sampler: class [LogitNormalGibbs_BK] *)

Module BK.
Section Sampler.
Context {lib : Library}.

(** [self.suff_stats], a dict with four fixed keys *)
Record stats : Type := {
  exp_Zik : nat -> nat -> num;   (* N x K *)
  exp_Zjk : nat -> nat -> num;   (* M x K *)
  exp_logW : nat -> nat -> num;  (* K x M *)
  exp_W : nat -> nat -> num      (* K x M *)
}.

(** The attributes of a sampler object.  [Z_] is [self.Z]. *)
Record sampler : Type := {
  M : nat; N : nat; K : nat;
  BKexpr : nat -> nat -> Z;                 (* M x N *)
  iMarkers : option (list (nat * nat));     (* rows (i, k), or None *)
  BKrd : nat -> Z;
  A : nat -> nat -> num;                    (* N x K *)
  alpha : nat -> num;                       (* K *)
  Z_ : option (nat -> nat -> nat -> num);   (* M x N x K *)
  W : option (nat -> nat -> num);           (* K x M *)
  AW : option (nat -> nat -> num);          (* N x M *)
  suff_stats : option stats;
  gen : rng
}.

Definition with_Z (s : sampler) (z : nat -> nat -> nat -> num) : sampler :=
  {| M := M s; N := N s; K := K s; BKexpr := BKexpr s;
     iMarkers := iMarkers s; BKrd := BKrd s; A := A s; alpha := alpha s;
     Z_ := Some z; W := W s; AW := AW s; suff_stats := suff_stats s;
     gen := gen s |}.

Definition with_W (s : sampler) (w : nat -> nat -> num) : sampler :=
  {| M := M s; N := N s; K := K s; BKexpr := BKexpr s;
     iMarkers := iMarkers s; BKrd := BKrd s; A := A s; alpha := alpha s;
     Z_ := Z_ s; W := Some w; AW := AW s; suff_stats := suff_stats s;
     gen := gen s |}.

Definition with_AW (s : sampler) (aw : nat -> nat -> num) : sampler :=
  {| M := M s; N := N s; K := K s; BKexpr := BKexpr s;
     iMarkers := iMarkers s; BKrd := BKrd s; A := A s; alpha := alpha s;
     Z_ := Z_ s; W := W s; AW := Some aw; suff_stats := suff_stats s;
     gen := gen s |}.

Definition with_stats (s : sampler) (st : stats) : sampler :=
  {| M := M s; N := N s; K := K s; BKexpr := BKexpr s;
     iMarkers := iMarkers s; BKrd := BKrd s; A := A s; alpha := alpha s;
     Z_ := Z_ s; W := W s; AW := AW s; suff_stats := Some st;
     gen := gen s |}.

Definition with_gen (s : sampler) (g : rng) : sampler :=
  {| M := M s; N := N s; K := K s; BKexpr := BKexpr s;
     iMarkers := iMarkers s; BKrd := BKrd s; A := A s; alpha := alpha s;
     Z_ := Z_ s; W := W s; AW := AW s; suff_stats := suff_stats s;
     gen := g |}.

(** [__init__]: the shapes are read off [BKexpr] and [A]; nothing latent
    exists yet. *)
Definition init (m n k : nat) (a : nat -> nat -> num) (al : nat -> num)
  (bk : nat -> nat -> Z) (markers : option (list (nat * nat))) (g : rng)
  : sampler :=
  {| M := m; N := n; K := k; BKexpr := bk; iMarkers := markers;
     BKrd := fun j => zsum n (fun i => bk j i);
     A := a; alpha := al;
     Z_ := None; W := None; AW := None; suff_stats := None; gen := g |}.

(** [np.dot(self.A, self.W)] *)
Definition dot_AW (s : sampler) (w : nat -> nat -> num) : nat -> nat -> num :=
  fun i j => sum_n (K s) (fun k => A s i k * w k j).

(** [self.Z.sum(axis=1)], M x K *)
Definition Z_sum_genes (s : sampler) (z : nat -> nat -> nat -> num)
  : nat -> nat -> num :=
  fun j k => sum_n (N s) (fun i => z j i k).

(** [self.Z.sum(axis=0)], N x K *)
Definition Z_sum_samples (s : sampler) (z : nat -> nat -> nat -> num)
  : nat -> nat -> num :=
  fun i k => sum_n (M s) (fun j => z j i k).

(** [w /= w.sum(axis=0)[np.newaxis, :]] *)
Definition normalize_columns (s : sampler) (w : nat -> nat -> num)
  : nat -> nat -> num :=
  fun k j => w k j / sum_n (K s) (fun k' => w k' j).

(** One pass of the marker loop: [self.Z[:, i, k] = BKexpr[:, i] + alpha[k]] *)
Definition set_marker (s : sampler) (z : nat -> nat -> nat -> num)
  (ik : nat * nat) : result (nat -> nat -> nat -> num) :=
  let (i, k) := ik in
  if (i <? N s)%nat && (k <? K s)%nat then
    Ok (fun j i' k' =>
          if Nat.eqb i' i && Nat.eqb k' k
          then of_Z (BKexpr s j i) + alpha s k
          else z j i' k')
  else Err IndexError.

Fixpoint set_markers (s : sampler) (z : nat -> nat -> nat -> num)
  (mk : list (nat * nat)) : result (nat -> nat -> nat -> num) :=
  match mk with
  | [] => Ok z
  | ik :: rest => z' <- set_marker s z ik ;; set_markers s z' rest
  end.

Definition init_gibbs (s : sampler) : result sampler :=
  let z0 : nat -> nat -> nat -> num := fun _ _ _ => 0 in
  match iMarkers s with
  | Some mk =>
      z <- set_markers s z0 mk ;;
      let w := fun k j => Z_sum_genes s z j k in
      Ok (with_W (with_Z s z) (normalize_columns s w))
  | None =>
      (* [1.0/self.K] is a Python division *)
      if Nat.eqb (K s) 0 then Err ZeroDivisionError
      else Ok (with_W (with_Z s z0) (fun _ _ => 1 / of_nat (K s)))
  end.

Definition zeros2 : nat -> nat -> num := fun _ _ => 0.

Definition zero_stats : stats :=
  {| exp_Zik := zeros2; exp_Zjk := zeros2;
     exp_logW := zeros2; exp_W := zeros2 |}.

Definition init_suffStats (s : sampler) : sampler :=
  with_stats s zero_stats.

(** the four [+=] of [update_suffStats] *)
Definition accumulate (s : sampler) (z : nat -> nat -> nat -> num)
  (w : nat -> nat -> num) (sample : nat) (st : stats) : stats :=
  {| exp_Zik := fun i k =>
       exp_Zik st i k + Z_sum_samples s z i k / of_nat sample;
     exp_Zjk := fun j k =>
       exp_Zjk st j k + Z_sum_genes s z j k / of_nat sample;
     exp_logW := fun k j =>
       exp_logW st k j + np_log (w k j) / of_nat sample;
     exp_W := fun k j => exp_W st k j + w k j / of_nat sample |}.

Definition update_suffStats (sample : nat) (s : sampler) : result sampler :=
  st <- attr (suff_stats s) ;;
  z <- attr (Z_ s) ;;
  w <- attr (W s) ;;
  Ok (with_stats s (accumulate s z w sample st)).

Definition update_parameters (a : nat -> nat -> num) (al : nat -> num)
  (s : sampler) : sampler :=
  {| M := M s; N := N s; K := K s; BKexpr := BKexpr s;
     iMarkers := iMarkers s; BKrd := BKrd s; A := a; alpha := al;
     Z_ := Z_ s; W := W s; AW := AW s; suff_stats := suff_stats s;
     gen := gen s |}.

(** [draw_W]: one Dirichlet draw per bulk sample, then [AW] is refreshed *)
Definition draw_W_col (s : sampler) (post_alpha : nat -> nat -> num)
  (j : nat) (wg : (nat -> nat -> num) * rng)
  : result ((nat -> nat -> num) * rng) :=
  let (w, g) := wg in
  r <- call (dirichlet (K s) (fun k => alpha s k + post_alpha j k) g) ;;
  Ok (fun k j' => if Nat.eqb j' j then fst r k else w k j', snd r).

Definition draw_W (s : sampler) : result sampler :=
  z <- attr (Z_ s) ;;
  w <- attr (W s) ;;
  wg <- for_range (M s) (draw_W_col s (Z_sum_genes s z)) (w, gen s) ;;
  Ok (with_AW (with_gen (with_W s (fst wg)) (snd wg)) (dot_AW s (fst wg))).

(** [draw_Z]: one multinomial draw per bulk sample and gene *)
Definition draw_Z_cell (s : sampler) (w aw : nat -> nat -> num)
  (j i : nat) (zg : (nat -> nat -> nat -> num) * rng)
  : result ((nat -> nat -> nat -> num) * rng) :=
  let (z, g) := zg in
  let pval := fun k => w k j * A s i k in
  r <- call (multinomial (K s) (BKexpr s j i)
               (fun k => pval k / aw i j) g) ;;
  Ok (fun j' i' k =>
        if Nat.eqb j' j && Nat.eqb i' i then of_Z (fst r k) else z j' i' k,
      snd r).

Definition draw_Z (s : sampler) : result sampler :=
  (* with an empty loop no attribute is read *)
  if Nat.eqb (M s) 0 || Nat.eqb (N s) 0 then Ok s
  else
    w <- attr (W s) ;;
    aw <- attr (AW s) ;;
    z <- attr (Z_ s) ;;
    zg <- for_range (M s)
            (fun j => for_range (N s) (fun i => draw_Z_cell s w aw j i))
            (z, gen s) ;;
    Ok (with_gen (with_Z s (fst zg)) (snd zg)).

(** [draw_Z_mean]: the expected allocation instead of a draw *)
Definition mean_Z_cell (s : sampler) (w aw : nat -> nat -> num)
  (j i : nat) (z : nat -> nat -> nat -> num) : nat -> nat -> nat -> num :=
  let pval := fun k => w k j * A s i k in
  fun j' i' k =>
    if Nat.eqb j' j && Nat.eqb i' i
    then pval k * of_Z (BKexpr s j i) / aw i j
    else z j' i' k.

Definition draw_Z_mean (s : sampler) : result sampler :=
  w <- attr (W s) ;;
  let aw := dot_AW s w in
  if Nat.eqb (M s) 0 || Nat.eqb (N s) 0 then Ok (with_AW s aw)
  else
    z <- attr (Z_ s) ;;
    let z' :=
      iter_range (M s)
        (fun j => iter_range (N s) (fun i => mean_Z_cell s w aw j i)) z in
    Ok (with_Z (with_AW s aw) z').

(** [get_nmf_W]: one multiplicative update of every row of [W], then the
    columns are renormalised *)
Definition nmf_row (s : sampler) (aw : nat -> nat -> num) (k : nat)
  (w : nat -> nat -> num) : nat -> nat -> num :=
  let multiplier := fun j i => of_Z (BKexpr s j i) * A s i k / aw i j in
  fun k' j =>
    if Nat.eqb k' k
    then w k j * sum_n (N s) (fun i => multiplier j i) + alpha s k - 1
    else w k' j.

Definition get_nmf_W (s : sampler) : result sampler :=
  w <- attr (W s) ;;
  let aw := dot_AW s w in
  let w' := iter_range (K s) (nmf_row s aw) w in
  Ok (with_W (with_AW s aw) (normalize_columns s w')).

Definition gibbs_cycle (s : sampler) : result sampler :=
  s' <- draw_W s ;; draw_Z s'.

Definition sampling_step (sample thin giter : nat) (s : sampler)
  : result sampler :=
  s' <- gibbs_cycle s ;;
  (* [giter % thin] *)
  if Nat.eqb thin 0 then Err ZeroDivisionError
  else if Nat.eqb (giter mod thin) 0 then update_suffStats sample s'
  else Ok s'.

Definition gibbs (burnin sample thin : nat) (mean_approx : bool)
  (s : sampler) : result sampler :=
  let s0 := init_suffStats s in
  if mean_approx then
    s1 <- get_nmf_W s0 ;;
    s2 <- draw_Z_mean s1 ;;
    update_suffStats 1 s2
  else
    s1 <- for_range burnin (fun _ => gibbs_cycle) s0 ;;
    for_range (sample * thin) (sampling_step sample thin) s1.

(** *** Notions used to state the properties of a run *)

(** [s] with another value of [self.suff_stats] *)
Definition set_stats (o : option stats) (s : sampler) : sampler :=
  {| M := M s; N := N s; K := K s; BKexpr := BKexpr s;
     iMarkers := iMarkers s; BKrd := BKrd s; A := A s; alpha := alpha s;
     Z_ := Z_ s; W := W s; AW := AW s; suff_stats := o; gen := gen s |}.

(** [self.W] and [self.Z] once they exist *)
Definition W_of (s : sampler) : nat -> nat -> num :=
  match W s with Some w => w | None => zeros2 end.

Definition Z_of (s : sampler) : nat -> nat -> nat -> num :=
  match Z_ s with Some z => z | None => fun _ _ _ => 0 end.

(** the four statistics of a latent state that [update_suffStats]
    averages *)
Definition stat_Zik (a : sampler) : nat -> nat -> num :=
  Z_sum_samples a (Z_of a).
Definition stat_Zjk (a : sampler) : nat -> nat -> num :=
  Z_sum_genes a (Z_of a).
Definition stat_logW (a : sampler) : nat -> nat -> num :=
  fun k j => np_log (W_of a k j).
Definition stat_W (a : sampler) : nat -> nat -> num := W_of a.

(** the state after [n] sweeps that raised nothing *)
Definition sweep (s : sampler) : sampler :=
  match gibbs_cycle s with Ok s' => s' | Err _ => s end.

Fixpoint sweeps (n : nat) (s : sampler) : sampler :=
  match n with
  | O => s
  | S n' => sweep (sweeps n' s)
  end.

(** the indices [giter] of the sampling loop that pass the test
    [giter % thin == 0] *)
Definition retained (sample thin : nat) : list nat :=
  filter (fun giter => Nat.eqb (giter mod thin) 0) (seq 0 (sample * thin)).

(** the statistics once the sampling loop has run [n] times after
    [burnin] sweeps from [s0]: one [accumulate] per retained index *)
Definition accumulated (s0 : sampler) (burnin sample thin n : nat) : stats :=
  fold_left
    (fun st t =>
       let a := sweeps (burnin + t + 1) s0 in
       accumulate a (Z_of a) (W_of a) sample st)
    (filter (fun giter => Nat.eqb (giter mod thin) 0) (seq 0 n))
    zero_stats.

(** the data and parameters of [s'] are those of [s] *)
Definition same_data (s s' : sampler) : Prop :=
  M s' = M s /\ N s' = N s /\ K s' = K s /\ BKexpr s' = BKexpr s
  /\ A s' = A s /\ alpha s' = alpha s.

(** [self.W] and [self.Z] exist *)
Definition initialised (s : sampler) : Prop :=
  (exists w, W s = Some w) /\ (exists z, Z_ s = Some z).

(** every [Z[j,i,:]] sums to [BKexpr[j,i]] *)
Definition allocates (s : sampler) : Prop :=
  exists z, Z_ s = Some z
    /\ forall j i, (j < M s)%nat -> (i < N s)%nat ->
         sum_n (K s) (fun k => z j i k) = of_Z (BKexpr s j i).

(** every column [W[:,j]] sums to 1 *)
Definition simplex (s : sampler) : Prop :=
  exists w, W s = Some w
    /\ forall j, (j < M s)%nat -> sum_n (K s) (fun k => w k j) = 1.

(** [W] after the row updates of [get_nmf_W], before it is normalised *)
Definition nmf_rows (s : sampler) (w : nat -> nat -> num)
  : nat -> nat -> num :=
  iter_range (K s) (nmf_row s (dot_AW s w)) w.

(** [s] with another value of [self.AW] *)
Definition set_AW (o : option (nat -> nat -> num)) (s : sampler) : sampler :=
  {| M := M s; N := N s; K := K s; BKexpr := BKexpr s;
     iMarkers := iMarkers s; BKrd := BKrd s; A := A s; alpha := alpha s;
     Z_ := Z_ s; W := W s; AW := o; suff_stats := suff_stats s;
     gen := gen s |}.

(** the value [get_nmf_W] gives [W[k,j]] before it normalises *)
Definition nmf_value (s : sampler) (w : nat -> nat -> num) (k j : nat)
  : num :=
  w k j
  * sum_n (N s)
      (fun i => of_Z (BKexpr s j i) * A s i k / dot_AW s w i j)
  + alpha s k - 1.

(** the probability vector [draw_Z] hands to the multinomial draw at
    [(j, i)] *)
Definition pvals (s : sampler) (w aw : nat -> nat -> num) (j i : nat)
  : nat -> num :=
  fun k => w k j * A s i k / aw i j.

End Sampler.
End BK.

(** ** Single-cell sampler: class [LogitNormalGibbs_SC] *)

Definition nopp (x : num) : num :=
  match x with Fin a => Fin (- a)%Qc | NaN => NaN end.

Definition half : num := Fin (Q2Qc (1 # 2)).
Definition two : num := Fin (Q2Qc (2 # 1)).

(** [np.where(a == 0)] and [np.where(a > 0)] on an [L x N] integer array:
    the coordinates in row-major order *)
Definition np_where (test : Z -> bool) (L N : nat) (a : nat -> nat -> Z)
  : list (nat * nat) :=
  flat_map
    (fun l => map (pair l) (filter (fun i => test (a l i)) (seq 0 N)))
    (seq 0 L).

Module SC.
Section Sampler.
Context {lib : Library}.

(** [self.suff_stats] *)
Record stats : Type := {
  exp_S : nat -> nat -> num;     (* L x N *)
  exp_kappa : nat -> num;        (* 1 x L *)
  exp_tau : nat -> num;
  exp_kappasq : nat -> num;
  exp_tausq : nat -> num;
  coeffA : nat -> nat -> num;    (* N x K *)
  coeffAsq : nat -> nat -> num;  (* N x K *)
  exp_elbo_const : num
}.

(** The latent attributes, all created by [init_gibbs].  [S_] is
    [self.S], an integer array. *)
Record latent : Type := {
  kappa : nat -> num;            (* 1 x L *)
  tau : nat -> num;              (* 1 x L *)
  S_ : nat -> nat -> Z;          (* L x N *)
  psi : nat -> nat -> num;       (* L x N *)
  w : nat -> nat -> num;         (* L x N *)
  sum_AS : nat -> num            (* L *)
}.

Record sampler : Type := {
  L : nat; N : nat; K : nat;
  SCexpr : nat -> nat -> Z;      (* L x N *)
  G : nat -> nat;                (* L *)
  SCrd : nat -> Z;               (* L *)
  itype : nat -> list nat;       (* K lists of cell ids *)
  A : nat -> nat -> num;         (* N x K *)
  pkappa : num * num;            (* [mean, var] *)
  ptau : num * num;
  izero : list (nat * nat);
  lat : option latent;
  suff_stats : option stats;
  gen : rng
}.

Definition with_lat (s : sampler) (x : latent) : sampler :=
  {| L := L s; N := N s; K := K s; SCexpr := SCexpr s; G := G s;
     SCrd := SCrd s; itype := itype s; A := A s; pkappa := pkappa s;
     ptau := ptau s; izero := izero s; lat := Some x;
     suff_stats := suff_stats s; gen := gen s |}.

Definition with_stats (s : sampler) (st : stats) : sampler :=
  {| L := L s; N := N s; K := K s; SCexpr := SCexpr s; G := G s;
     SCrd := SCrd s; itype := itype s; A := A s; pkappa := pkappa s;
     ptau := ptau s; izero := izero s; lat := lat s;
     suff_stats := Some st; gen := gen s |}.

Definition with_gen (s : sampler) (g : rng) : sampler :=
  {| L := L s; N := N s; K := K s; SCexpr := SCexpr s; G := G s;
     SCrd := SCrd s; itype := itype s; A := A s; pkappa := pkappa s;
     ptau := ptau s; izero := izero s; lat := lat s;
     suff_stats := suff_stats s; gen := g |}.

Definition with_params (s : sampler) (a : nat -> nat -> num)
  (pk pt : num * num) : sampler :=
  {| L := L s; N := N s; K := K s; SCexpr := SCexpr s; G := G s;
     SCrd := SCrd s; itype := itype s; A := a; pkappa := pk;
     ptau := pt; izero := izero s; lat := lat s;
     suff_stats := suff_stats s; gen := gen s |}.

(** [__init__] *)
Definition init (l n k : nat) (a : nat -> nat -> num) (pk pt : num * num)
  (sc : nat -> nat -> Z) (g : nat -> nat) (ity : nat -> list nat)
  (r : rng) : sampler :=
  {| L := l; N := n; K := k; SCexpr := sc; G := g;
     SCrd := fun c => zsum n (fun i => sc c i);
     itype := ity; A := a; pkappa := pk; ptau := pt;
     izero := np_where (Z.eqb 0) l n sc;
     lat := None; suff_stats := None; gen := r |}.

(** [np.transpose(self.kappa + self.tau * self.A[:, self.G])] *)
Definition psi_of (s : sampler) (kap ta : nat -> num) : nat -> nat -> num :=
  fun l i => kap l + ta l * A s i (G s l).

(** [(np.transpose(self.A[:, self.G]) * self.S).sum(axis=1)] *)
Definition sum_AS_of (s : sampler) (sv : nat -> nat -> Z) : nat -> num :=
  fun l => sum_n (N s) (fun i => A s i (G s l) * of_Z (sv l i)).

(** [self.S[ipos] = 1] *)
Definition set_ones (sv : nat -> nat -> Z) (ipos : list (nat * nat))
  : nat -> nat -> Z :=
  fold_left (fun a li => upd2 a (fst li) (snd li) 1%Z) ipos sv.

Definition init_gibbs (s : sampler) : result sampler :=
  let kap := fun _ : nat => fst (pkappa s) in
  let ta := fun _ : nat => fst (ptau s) in
  r <- call (binomial_size half (L s * N s) (gen s)) ;;
  let s0 := fun l i => fst r (l * N s + i)%nat in
  let ipos := np_where (Z.ltb 0) (L s) (N s) (SCexpr s) in
  let s1 := set_ones s0 ipos in
  Ok (with_gen
        (with_lat s {| kappa := kap; tau := ta; S_ := s1;
                       psi := psi_of s kap ta;
                       w := fun _ _ => 1;
                       sum_AS := sum_AS_of s s1 |})
        (snd r)).

Definition zeros1 : nat -> num := fun _ => 0.
Definition zeros2 : nat -> nat -> num := fun _ _ => 0.

Definition init_suffStats (s : sampler) : sampler :=
  with_stats s {| exp_S := zeros2; exp_kappa := zeros1; exp_tau := zeros1;
                  exp_kappasq := zeros1; exp_tausq := zeros1;
                  coeffA := zeros2; coeffAsq := zeros2;
                  exp_elbo_const := 0 |}.

(** [a[self.itype[k], :].sum(axis=0)] at gene [i] *)
Definition sum_over (cells : list nat) (a : nat -> nat -> num) (i : nat)
  : num :=
  fold_left (fun acc l => acc + a l i) cells 0.

(** [a.sum()] of an [L x N] array *)
Definition sum_all (l n : nat) (a : nat -> nat -> num) : num :=
  sum_n l (fun c => sum_n n (fun i => a c i)).

Definition update_suffStats (sample : nat) (s : sampler) : result sampler :=
  st <- attr (suff_stats s) ;;
  x <- attr (lat s) ;;
  let smp := of_nat sample in
  let sq := fun v : num => v * v in
  let elbo1 :=
    sum_all (L s) (N s) (fun l i => nopp (w x l i) * sq (kappa x l))
    / (two * smp) in
  let elbo2 :=
    sum_all (L s) (N s) (fun l i => (of_Z (S_ x l i) - half) * kappa x l)
    / smp in
  let cA := fun l i =>
    (of_Z (S_ x l i) - half) * tau x l - w x l i * (tau x l * kappa x l) in
  let cAsq := fun l i => nopp (w x l i) * sq (tau x l) / two in
  let add_type := fun (c acc : nat -> nat -> num) i k =>
    if (k <? K s)%nat && negb (Nat.eqb (length (itype s k)) 0)
    then acc i k + sum_over (itype s k) c i / smp
    else acc i k in
  Ok (with_stats s
        {| exp_S := fun l i => exp_S st l i + of_Z (S_ x l i) / smp;
           exp_kappa := fun l => exp_kappa st l + kappa x l / smp;
           exp_tau := fun l => exp_tau st l + tau x l / smp;
           exp_kappasq := fun l => exp_kappasq st l + sq (kappa x l) / smp;
           exp_tausq := fun l => exp_tausq st l + sq (tau x l) / smp;
           coeffA := add_type cA (coeffA st);
           coeffAsq := add_type cAsq (coeffAsq st);
           exp_elbo_const := exp_elbo_const st + elbo1 + elbo2 |}).

Definition update_psi (s : sampler) : result sampler :=
  x <- attr (lat s) ;;
  Ok (with_lat s {| kappa := kappa x; tau := tau x; S_ := S_ x;
                    psi := psi_of s (kappa x) (tau x);
                    w := w x; sum_AS := sum_AS x |}).

Definition update_parameters (a : nat -> nat -> num) (pk pt : num * num)
  (s : sampler) : result sampler :=
  s1 <- update_psi (with_params s a pk pt) ;;
  x <- attr (lat s1) ;;
  Ok (with_lat s1 {| kappa := kappa x; tau := tau x; S_ := S_ x;
                     psi := psi x; w := w x;
                     sum_AS := sum_AS_of s1 (S_ x) |}).

(** [draw_w]: one vector of Polya-Gamma draws per cell *)
Definition draw_w_row (s : sampler) (ps : nat -> nat -> num) (l : nat)
  (wg : (nat -> nat -> num) * rng) : result ((nat -> nat -> num) * rng) :=
  let (wv, g) := wg in
  r <- call (pgdrawvpar (N s) (ps l) g) ;;
  Ok (fun l' i => if Nat.eqb l' l then fst r i else wv l' i, snd r).

Definition draw_w (s : sampler) : result sampler :=
  if Nat.eqb (L s) 0 then Ok s
  else
    x <- attr (lat s) ;;
    wg <- for_range (L s) (draw_w_row s (psi x)) (w x, gen s) ;;
    Ok (with_gen
          (with_lat s {| kappa := kappa x; tau := tau x; S_ := S_ x;
                         psi := psi x; w := fst wg; sum_AS := sum_AS x |})
          (snd wg)).

(** The success probability [b] that [draw_S] computes at [(l, i)] *)
Definition dropout_prob (s : sampler) (x : latent) (l i : nat) : num :=
  let A_curr := A s i (G s l) in
  let sum_other := sum_AS x l - A_curr * of_Z (S_ x l i) in
  if is_zero sum_other then expit (psi x l i)
  else expit (psi x l i
              - of_Z (SCrd s l) * np_log (1 + A_curr / sum_other)).

(** The two writes that end the body of the loop of [draw_S]:
    [self.S[l][i] = v] and
    [self.sum_AS[l] = sum_other + A_curr * self.S[l, i]] *)
Definition store_S (s : sampler) (x : latent) (l i : nat) (v : Z) : latent :=
  let A_curr := A s i (G s l) in
  let sum_other := sum_AS x l - A_curr * of_Z (S_ x l i) in
  {| kappa := kappa x; tau := tau x; S_ := upd2 (S_ x) l i v;
     psi := psi x; w := w x;
     sum_AS := upd1 (sum_AS x) l (sum_other + A_curr * of_Z v) |}.

(** The body of the loop of [draw_S] at one coordinate of [izero] *)
Definition draw_S_at (s : sampler) (li : nat * nat) (xg : latent * rng)
  : result (latent * rng) :=
  let (x, g) := xg in
  let (l, i) := li in
  let b := dropout_prob s x l i in
  r <- call (binomial b g) ;;
  Ok (store_S s x l i (fst r), snd r).

Definition draw_S (s : sampler) : result sampler :=
  match izero s with
  | [] => Ok s
  | _ =>
      x <- attr (lat s) ;;
      xg <- for_each (izero s) (draw_S_at s) (x, gen s) ;;
      Ok (with_gen (with_lat s (fst xg)) (snd xg))
  end.

(** The quantities [draw_kappa_tau] computes for cell [l] *)
Definition offdiag (s : sampler) (x : latent) (l : nat) : num :=
  sum_n (N s) (fun i => w x l i * A s i (G s l)).

Definition diag0 (s : sampler) (x : latent) (l : nat) : num :=
  sum_n (N s) (fun i => w x l i) + 1 / snd (pkappa s).

Definition diag1 (s : sampler) (x : latent) (l : nat) : num :=
  sum_n (N s) (fun i => w x l i * (A s i (G s l) * A s i (G s l)))
  + 1 / snd (ptau s).

Definition det (s : sampler) (x : latent) (l : nat) : num :=
  diag0 s x l * diag1 s x l - offdiag s x l * offdiag s x l.

Definition sigma_mat (s : sampler) (x : latent) (l : nat)
  : (num * num) * (num * num) :=
  let d := det s x l in
  ((diag1 s x l / d, nopp (offdiag s x l) / d),
   (nopp (offdiag s x l) / d, diag0 s x l / d)).

Definition bP (s : sampler) (x : latent) (l : nat) : num * num :=
  (of_Z (zsum (N s) (fun i => S_ x l i)) - of_nat (N s) / two
     + fst (pkappa s) / snd (pkappa s),
   sum_AS x l - half + fst (ptau s) / snd (ptau s)).

Definition mP (s : sampler) (x : latent) (l : nat) : num * num :=
  let '((s00, s01), (s10, s11)) := sigma_mat s x l in
  let (b0, b1) := bP s x l in
  (s00 * b0 + s01 * b1, s10 * b0 + s11 * b1).

Definition draw_kappa_tau_cell (s : sampler) (l : nat) (xg : latent * rng)
  : result (latent * rng) :=
  let (x, g) := xg in
  r <- call (multivariate_normal (mP s x l) (sigma_mat s x l) g) ;;
  let newdraw := fst r in
  Ok ({| kappa := upd1 (kappa x) l (fst newdraw);
         tau := upd1 (tau x) l (snd newdraw);
         S_ := S_ x; psi := psi x; w := w x; sum_AS := sum_AS x |},
      snd r).

Definition draw_kappa_tau (s : sampler) : result sampler :=
  if Nat.eqb (L s) 0 then Ok s
  else
    x <- attr (lat s) ;;
    xg <- for_range (L s) (draw_kappa_tau_cell s) (x, gen s) ;;
    Ok (with_gen (with_lat s (fst xg)) (snd xg)).

Definition gibbs_cycle (s : sampler) : result sampler :=
  s1 <- draw_w s ;;
  s2 <- draw_S s1 ;;
  s3 <- draw_kappa_tau s2 ;;
  update_psi s3.

Definition sampling_step (sample thin giter : nat) (s : sampler)
  : result sampler :=
  s' <- gibbs_cycle s ;;
  if Nat.eqb thin 0 then Err ZeroDivisionError
  else if Nat.eqb (giter mod thin) 0 then update_suffStats sample s'
  else Ok s'.

Definition gibbs (burnin sample thin : nat) (s : sampler) : result sampler :=
  s0 <- init_gibbs (init_suffStats s) ;;
  s1 <- for_range burnin (fun _ => gibbs_cycle) s0 ;;
  for_range (sample * thin) (sampling_step sample thin) s1.

(** *** Predicates on sampler states *)

(** [izero] and [SCrd] as [__init__] computes them from [SCexpr] *)
Definition data_ok (s : sampler) : Prop :=
  izero s = np_where (Z.eqb 0) (L s) (N s) (SCexpr s)
  /\ forall l, SCrd s l = zsum (N s) (fun i => SCexpr s l i).

(** the data attributes of [s'] are those of [s] *)
Definition same_data (s s' : sampler) : Prop :=
  L s' = L s /\ N s' = N s /\ K s' = K s /\ SCexpr s' = SCexpr s
  /\ G s' = G s /\ SCrd s' = SCrd s /\ izero s' = izero s.

(** [S] is 1 wherever a count was observed *)
Definition pinned (s : sampler) (x : latent) : Prop :=
  forall l i, (l < L s)%nat -> (i < N s)%nat ->
    (0 < SCexpr s l i)%Z -> S_ x l i = 1%Z.

(** [sum_AS] is the sum it caches *)
Definition cached (s : sampler) (x : latent) : Prop :=
  forall l,
    sum_AS x l = sum_n (N s) (fun i => A s i (G s l) * of_Z (S_ x l i)).

(** [s'] has the data, parameters and statistics of [s], and a latent
    state with the [S] and [sum_AS] of [x] *)
Definition keeps_S (s : sampler) (x : latent) (s' : sampler) : Prop :=
  same_data s s' /\ A s' = A s /\ suff_stats s' = suff_stats s
  /\ exists x', lat s' = Some x' /\ S_ x' = S_ x /\ sum_AS x' = sum_AS x.

(** [psi] is the link [kappa + tau * A[:, G]] of the current [kappa],
    [tau] and [A] *)
Definition linked (s : sampler) (x : latent) : Prop :=
  forall l i, psi x l i = kappa x l + tau x l * A s i (G s l).

(** every [S[l,i]] is 0 or 1 *)
Definition binary (s : sampler) (x : latent) : Prop :=
  forall l i, (l < L s)%nat -> (i < N s)%nat ->
    S_ x l i = 0%Z \/ S_ x l i = 1%Z.

(** the matrix [[diag[0], offdiag], [offdiag, diag[1]]] of the
    quantities [draw_kappa_tau] computes, as the pair of its rows *)
Definition precision (s : sampler) (x : latent) (l : nat)
  : (num * num) * (num * num) :=
  ((diag0 s x l, offdiag s x l), (offdiag s x l, diag1 s x l)).

(** 2 x 2 products: matrix by matrix, matrix by vector *)
Definition mat_mul (a b : (num * num) * (num * num))
  : (num * num) * (num * num) :=
  let '((a00, a01), (a10, a11)) := a in
  let '((b00, b01), (b10, b11)) := b in
  ((a00 * b00 + a01 * b10, a00 * b01 + a01 * b11),
   (a10 * b00 + a11 * b10, a10 * b01 + a11 * b11)).

Definition mat_vec (a : (num * num) * (num * num)) (v : num * num)
  : num * num :=
  let '((a00, a01), (a10, a11)) := a in
  let (v0, v1) := v in
  (a00 * v0 + a01 * v1, a10 * v0 + a11 * v1).

(** [s] with another value of [self.suff_stats] *)
Definition set_stats (o : option stats) (s : sampler) : sampler :=
  {| L := L s; N := N s; K := K s; SCexpr := SCexpr s; G := G s;
     SCrd := SCrd s; itype := itype s; A := A s; pkappa := pkappa s;
     ptau := ptau s; izero := izero s; lat := lat s;
     suff_stats := o; gen := gen s |}.

(** *** Notions used to state the statistics of a run *)

(** the [+=] of [update_suffStats] on the statistics [st], for the latent
    state [x] *)
Definition accumulate (s : sampler) (x : latent) (sample : nat)
  (st : stats) : stats :=
  let smp := of_nat sample in
  let sq := fun v : num => v * v in
  let elbo1 :=
    sum_all (L s) (N s) (fun l i => nopp (w x l i) * sq (kappa x l))
    / (two * smp) in
  let elbo2 :=
    sum_all (L s) (N s) (fun l i => (of_Z (S_ x l i) - half) * kappa x l)
    / smp in
  let cA := fun l i =>
    (of_Z (S_ x l i) - half) * tau x l - w x l i * (tau x l * kappa x l) in
  let cAsq := fun l i => nopp (w x l i) * sq (tau x l) / two in
  let add_type := fun (c acc : nat -> nat -> num) i k =>
    if (k <? K s)%nat && negb (Nat.eqb (length (itype s k)) 0)
    then acc i k + sum_over (itype s k) c i / smp
    else acc i k in
  {| exp_S := fun l i => exp_S st l i + of_Z (S_ x l i) / smp;
     exp_kappa := fun l => exp_kappa st l + kappa x l / smp;
     exp_tau := fun l => exp_tau st l + tau x l / smp;
     exp_kappasq := fun l => exp_kappasq st l + sq (kappa x l) / smp;
     exp_tausq := fun l => exp_tausq st l + sq (tau x l) / smp;
     coeffA := add_type cA (coeffA st);
     coeffAsq := add_type cAsq (coeffAsq st);
     exp_elbo_const := exp_elbo_const st + elbo1 + elbo2 |}.

Definition zero_stats : stats :=
  {| exp_S := zeros2; exp_kappa := zeros1; exp_tau := zeros1;
     exp_kappasq := zeros1; exp_tausq := zeros1;
     coeffA := zeros2; coeffAsq := zeros2;
     exp_elbo_const := 0 |}.

(** the latent state once it exists *)
Definition lat_of (s : sampler) : latent :=
  match lat s with
  | Some x => x
  | None => {| kappa := zeros1; tau := zeros1; S_ := fun _ _ => 0%Z;
               psi := zeros2; w := zeros2; sum_AS := zeros1 |}
  end.

(** the per-type coefficients and the constant that [update_suffStats]
    averages *)
Definition stat_coeffA (s : sampler) (x : latent) (i k : nat) : num :=
  sum_over (itype s k)
    (fun l i' =>
       (of_Z (S_ x l i') - half) * tau x l
       - w x l i' * (tau x l * kappa x l)) i.

Definition stat_coeffAsq (s : sampler) (x : latent) (i k : nat) : num :=
  sum_over (itype s k)
    (fun l i' => nopp (w x l i') * (tau x l * tau x l) / two) i.

Definition stat_elbo (s : sampler) (x : latent) : num :=
  sum_all (L s) (N s)
    (fun l i => nopp (w x l i) * (kappa x l * kappa x l)) / two
  + sum_all (L s) (N s) (fun l i => (of_Z (S_ x l i) - half) * kappa x l).

(** the state after [n] sweeps that raised nothing *)
Definition sweep (s : sampler) : sampler :=
  match gibbs_cycle s with Ok s' => s' | Err _ => s end.

Fixpoint sweeps (n : nat) (s : sampler) : sampler :=
  match n with
  | O => s
  | S n' => sweep (sweeps n' s)
  end.

(** the indices of the sampling loop that pass [giter % thin == 0] *)
Definition retained (sample thin : nat) : list nat :=
  filter (fun giter => Nat.eqb (giter mod thin) 0) (seq 0 (sample * thin)).

(** the statistics once the sampling loop has run [n] times after
    [burnin] sweeps from [s0] *)
Definition accumulated (s0 : sampler) (burnin sample thin n : nat) : stats :=
  fold_left
    (fun st t =>
       let a := sweeps (burnin + t + 1) s0 in
       accumulate a (lat_of a) sample st)
    (filter (fun giter => Nat.eqb (giter mod thin) 0) (seq 0 n))
    zero_stats.

End Sampler.
End SC.

(** ** Caller-owned arrays and the copies [update_parameters] takes

    Only for the two parameter arrays does aliasing matter: the caller
    keeps the arrays it passes.  A heap of arrays models it; the sampler
    object holds the locations of [self.A] and [self.alpha], the other
    attributes are the fields of [body]. *)

Module Heap.

Inductive array : Type :=
| Arr1 (v : nat -> num)
| Arr2 (m : nat -> nat -> num).

Definition heap : Type := list array.
Definition loc : Type := nat.

Definition read (h : heap) (l : loc) : option array := nth_error h l.

Fixpoint write (h : heap) (l : loc) (a : array) : heap :=
  match h, l with
  | [], _ => []
  | _ :: t, O => a :: t
  | x :: t, S l' => x :: write t l' a
  end.

Definition alloc (h : heap) (a : array) : heap * loc :=
  (h ++ [a], length h).

(** [np.array(x, dtype=float, copy=True)]: a new array with the contents
    of [x] *)
Definition np_array_copy (h : heap) (x : loc) : option (heap * loc) :=
  match read h x with
  | Some a => Some (alloc h a)
  | None => None
  end.

(** any number of in-place writes by the caller *)
Definition writes (h : heap) (ws : list (loc * array)) : heap :=
  fold_left (fun h' la => write h' (fst la) (snd la)) ws h.

Section Object.
Context {lib : Library}.

Record object : Type := {
  ref_A : loc;
  ref_alpha : loc;
  body : BK.sampler
}.

(** the sampler as its methods see it *)
Definition view (h : heap) (o : object) : option BK.sampler :=
  match read h (ref_A o), read h (ref_alpha o) with
  | Some (Arr2 a), Some (Arr1 al) => Some (BK.update_parameters a al (body o))
  | _, _ => None
  end.

Definition update_parameters (h : heap) (o : object) (A alpha : loc)
  : option (heap * object) :=
  match np_array_copy h A with
  | Some (h1, lA) =>
      match np_array_copy h1 alpha with
      | Some (h2, lal) =>
          Some (h2, {| ref_A := lA; ref_alpha := lal; body := body o |})
      | None => None
      end
  | None => None
  end.

End Object.
End Heap.

(** ** The driver's checks of the cell-type labels

    [scUnif_LinuxEnv.py] checks the loaded arrays before it builds the
    samplers.  The two checks of cell-type labels are modelled, on labels
    that are natural numbers: the second column of [iMarkers] is the one
    [init_gibbs] indexes [Z] with. *)

Module Driver.

(** [len(set(G) - set(range(K))) > 0] *)
Definition types_rejected (G : list nat) (K : nat) : bool :=
  Nat.ltb 0
    (length
       (filter (fun g => negb (existsb (Nat.eqb g) (seq 0 K)))
          (nodup Nat.eq_dec G))).

(** [np.max(a)] of a one-dimensional array; [None] on an empty one, where
    numpy raises [ValueError] *)
Definition np_max (a : list nat) : option nat :=
  match a with
  | [] => None
  | x :: rest => Some (fold_left Nat.max rest x)
  end.

(** [iMarkers is not None and np.max(iMarkers[:, 1]) > K] *)
Definition markers_rejected (iMarkers : option (list (nat * nat)))
  (K : nat) : option bool :=
  match iMarkers with
  | None => Some false
  | Some mk =>
      match np_max (map snd mk) with
      | Some m => Some (K <? m)%nat
      | None => None
      end
  end.

End Driver.

(** ** A deterministic instance of the libraries

    Used to run the samplers on concrete inputs: no draw raises, each
    returns a fixed point of its support and advances a counter. *)

Definition point_mass (k : nat) : num := if Nat.eqb k 0 then 1 else 0.

#[export] Instance det_lib : Library := {|
  rng := nat;
  np_log := fun x => x;
  expit := fun x => x;
  dirichlet := fun _ _ g => Some (point_mass, S g);
  multinomial := fun _ n _ g =>
    Some (fun k => if Nat.eqb k 0 then n else 0%Z, S g);
  binomial := fun p g => Some (if is_zero p then 0%Z else 1%Z, S g);
  binomial_size := fun _ _ g => Some (fun _ => 0%Z, S g);
  pgdrawvpar := fun _ _ g => Some (fun _ => 1, S g);
  multivariate_normal := fun mean _ g => Some (mean, S g)
|}.

(** ** Concrete samplers

    The single-cell scenario: one cell of type 0, two genes,
    [SCexpr = [[0, 5]]], [A[:, 0] = [0.1, 0.9]], priors [[0, 1]]. *)

Definition frac (a : Z) (b : positive) : num := Fin (Q2Qc (a # b)).

Definition sc_example : SC.sampler :=
  SC.init 1 2 1
    (fun i _ => match i with O => frac 1 10 | _ => frac 9 10 end)
    (0, 1) (0, 1)
    (fun _ i => match i with 1%nat => 5%Z | _ => 0%Z end)
    (fun _ => O) (fun _ => [O]) O.

(** A cell whose precision matrix is singular: one gene with [A = 0],
    weight [w = 1] and the prior pair [pkappa = [0, -1]]. *)
Definition sc_singular : SC.sampler :=
  SC.init 1 1 1 (fun _ _ => 0) (0, Fin (- (1))%Qc) (0, 1)
    (fun _ _ => 0%Z) (fun _ => O) (fun _ => [O]) O.

(** The bulk scenario: one bulk sample, three genes, two cell types,
    [A = [[1,0],[0,1],[0.5,0.5]]], [alpha = [1,1]],
    [BKexpr = [[10,0,0]]]; without marker hints, with the hint [(0, 0)],
    and with an empty list of hints. *)
Definition bk_A (i k : nat) : num :=
  match i, k with
  | 0%nat, 0%nat => 1
  | 0%nat, _ => 0
  | 1%nat, 1%nat => 1
  | 1%nat, _ => 0
  | _, _ => frac 1 2
  end.

Definition bk_counts (j i : nat) : Z :=
  match i with 0%nat => 10%Z | _ => 0%Z end.

Definition bk_example : BK.sampler :=
  BK.init 1 3 2 bk_A (fun _ => 1) bk_counts None O.

Definition bk_marked : BK.sampler :=
  BK.init 1 3 2 bk_A (fun _ => 1) bk_counts (Some [(O, O)]) O.

Definition bk_no_marker : BK.sampler :=
  BK.init 1 3 2 bk_A (fun _ => 1) bk_counts (Some []) O.

(** [bk_example] after [init_gibbs] *)
Definition bk_ready : BK.sampler :=
  BK.with_W (BK.with_Z bk_example (fun _ _ _ => 0))
    (fun _ _ => 1 / of_nat 2).

(** a caller holding [A] at location 0 and [alpha] at location 1, and a
    sampler built from them (its own copies are at 2 and 3) *)
Definition bk_heap : Heap.heap :=
  [Heap.Arr2 bk_A; Heap.Arr1 (fun _ => 1);
   Heap.Arr2 bk_A; Heap.Arr1 (fun _ => 1)].

Definition bk_object : Heap.object :=
  {| Heap.ref_A := 2%nat; Heap.ref_alpha := 3%nat; Heap.body := bk_ready |}.

(** The bulk scenario with a hint that names the type [K = 2], and a
    bulk sampler with a single cell type after [init_gibbs]. *)
Definition bk_off_marker : BK.sampler :=
  BK.init 1 3 2 bk_A (fun _ => 1) bk_counts (Some [(O, 2%nat)]) O.

Definition bk_single : BK.sampler :=
  BK.with_W
    (BK.with_Z (BK.init 1 2 1 (fun _ _ => frac 1 2) (fun _ => 1) bk_counts
                  None O)
       (fun _ _ _ => 0))
    (fun _ _ => 1).

(** The single-cell scenario with every count observed, and a latent
    state for the scenario. *)
Definition sc_observed : SC.sampler :=
  SC.init 1 2 1
    (fun i _ => match i with O => frac 1 10 | _ => frac 9 10 end)
    (0, 1) (0, 1) (fun _ _ => 5%Z) (fun _ => O) (fun _ => [O]) O.

Definition sc_latent : SC.latent :=
  {| SC.kappa := fun _ => 0; SC.tau := fun _ => 1;
     SC.S_ := fun _ _ => 1%Z; SC.psi := fun _ _ => 0;
     SC.w := fun _ _ => 1; SC.sum_AS := fun _ => 1 |}.

(** ** Facts on numbers and sums *)

Lemma of_Z_add (a b : Z) : of_Z (a + b) = of_Z a + of_Z b.
Proof.
  unfold of_Z, nadd, lift2. f_equal. unfold Qcplus.
  apply Q2Qc_eq_iff. unfold Q2Qc, this.
  rewrite !Qred_correct, inject_Z_plus. reflexivity.
Qed.

Lemma sum_n_ext (n : nat) (f g : nat -> num) :
  (forall i, (i < n)%nat -> f i = g i) -> sum_n n f = sum_n n g.
Proof.
  induction n as [|n IH]; intros H; simpl; [reflexivity|].
  rewrite IH by (intros; apply H; lia). rewrite H by lia. reflexivity.
Qed.

Lemma qsum_ext (n : nat) (f g : nat -> Qc) :
  (forall i, (i < n)%nat -> f i = g i) -> qsum n f = qsum n g.
Proof.
  induction n as [|n IH]; intros H; simpl; [reflexivity|].
  rewrite IH by (intros; apply H; lia). rewrite H by lia. reflexivity.
Qed.

Lemma sum_n_Fin (n : nat) (f : nat -> num) (g : nat -> Qc) :
  (forall i, (i < n)%nat -> f i = Fin (g i)) -> sum_n n f = Fin (qsum n g).
Proof.
  induction n as [|n IH]; intros H; simpl; [reflexivity|].
  rewrite IH by (intros; apply H; lia). rewrite H by lia. reflexivity.
Qed.

Lemma sum_n_NaN (n : nat) (f : nat -> num) (i : nat) :
  (i < n)%nat -> f i = NaN -> sum_n n f = NaN.
Proof.
  induction n as [|n IH]; intros Hi Hf; [lia|]. simpl.
  destruct (Nat.eq_dec i n) as [->|Hne].
  - rewrite Hf. destruct (sum_n n f); reflexivity.
  - rewrite IH; [reflexivity | lia | assumption].
Qed.

(** a sum is finite exactly when every term is *)
Lemma sum_n_cases (n : nat) (f : nat -> num) :
  (forall i, (i < n)%nat -> f i = Fin (val (f i)))
  \/ (exists i, (i < n)%nat /\ f i = NaN).
Proof.
  induction n as [|n [IH|[i [Hi Hf]]]].
  - left; intros; lia.
  - destruct (f n) eqn:E.
    + left. intros i Hi. destruct (Nat.eq_dec i n) as [->|Hne].
      * rewrite E; reflexivity.
      * apply IH; lia.
    + right. exists n. split; [lia|assumption].
  - right. exists i. split; [lia|assumption].
Qed.

Lemma sum_n_finite (n : nat) (f : nat -> num) (q : Qc) :
  sum_n n f = Fin q ->
  (forall i, (i < n)%nat -> f i = Fin (val (f i)))
  /\ q = qsum n (fun i => val (f i)).
Proof.
  intros H. destruct (sum_n_cases n f) as [Hall|[i [Hi Hf]]].
  - split; [assumption|].
    rewrite (sum_n_Fin f (fun i => val (f i)) Hall) in H. congruence.
  - rewrite (sum_n_NaN f Hi Hf) in H. discriminate.
Qed.

Lemma sum_n_of_Z (n : nat) (f : nat -> Z) :
  sum_n n (fun i => of_Z (f i)) = of_Z (zsum n f).
Proof.
  induction n as [|n IH]; simpl; [reflexivity|].
  rewrite IH, of_Z_add. reflexivity.
Qed.

Lemma qsum_mul_r (n : nat) (f : nat -> Qc) (c : Qc) :
  qsum n (fun i => (f i * c)%Qc) = (qsum n f * c)%Qc.
Proof.
  induction n as [|n IH]; simpl; [ring|]. rewrite IH. ring.
Qed.

Lemma qsum_upd (n : nat) (f : nat -> Qc) (i0 : nat) (v : Qc) :
  (i0 < n)%nat ->
  qsum n (upd1 f i0 v) = (qsum n f - f i0 + v)%Qc.
Proof.
  induction n as [|n IH]; intros Hi; [lia|]. simpl.
  destruct (Nat.eq_dec i0 n) as [->|Hne].
  - rewrite (qsum_ext (upd1 f n v) f).
    + unfold upd1. rewrite Nat.eqb_refl. ring.
    + intros i Hlt. unfold upd1.
      destruct (Nat.eqb_spec i n); [lia|reflexivity].
  - rewrite IH by lia. unfold upd1 at 1.
    destruct (Nat.eqb_spec n i0); [lia|]. ring.
Qed.

(** the cached sum after one entry changed; the new term is not a number
    when the old one was not *)
Lemma sum_n_upd (n : nat) (f : nat -> num) (i0 : nat) (v : num) :
  (i0 < n)%nat -> (f i0 = NaN -> v = NaN) ->
  sum_n n (upd1 f i0 v) = sum_n n f - f i0 + v.
Proof.
  intros Hi Hv.
  assert (Hat : upd1 f i0 v i0 = v) by (unfold upd1; now rewrite Nat.eqb_refl).
  destruct (sum_n_cases n f) as [Hall|[i1 [Hi1 Hf1]]].
  - rewrite (sum_n_Fin f _ Hall), (Hall i0 Hi).
    destruct v as [qv|].
    + rewrite (sum_n_Fin (upd1 f i0 (Fin qv))
                 (upd1 (fun i => val (f i)) i0 qv)).
      * rewrite qsum_upd by assumption. reflexivity.
      * intros i Hlt. unfold upd1.
        destruct (Nat.eqb i i0); [reflexivity|apply Hall; assumption].
    + rewrite (sum_n_NaN _ Hi Hat). reflexivity.
  - rewrite (sum_n_NaN f Hi1 Hf1). simpl.
    destruct (Nat.eq_dec i1 i0) as [->|Hne].
    + apply (sum_n_NaN _ Hi). rewrite Hat. apply Hv, Hf1.
    + apply (sum_n_NaN _ Hi1). unfold upd1.
      destruct (Nat.eqb_spec i1 i0); [contradiction|assumption].
Qed.

Lemma in_np_where (test : Z -> bool) (L N : nat) (a : nat -> nat -> Z)
  (l i : nat) :
  In (l, i) (np_where test L N a)
  <-> (l < L)%nat /\ (i < N)%nat /\ test (a l i) = true.
Proof.
  unfold np_where. rewrite in_flat_map. split.
  - intros [l' [Hl' Hin]]. apply in_map_iff in Hin.
    destruct Hin as [i' [Heq Hin]]. inversion Heq; subst.
    apply filter_In in Hin. destruct Hin as [Hin Ht].
    apply in_seq in Hl'. apply in_seq in Hin.
    repeat split; [lia|lia|assumption].
  - intros [Hl [Hi Ht]]. exists l. split; [apply in_seq; lia|].
    apply in_map. apply filter_In. split; [apply in_seq; lia|assumption].
Qed.

Lemma iter_range_inv (St : Type) (P : nat -> St -> Prop)
  (body : nat -> St -> St) (n : nat) (st : St) :
  P O st ->
  (forall k a, (k < n)%nat -> P k a -> P (S k) (body k a)) ->
  P n (iter_range n body st).
Proof.
  intros H0 Hstep.
  induction n as [|n IH]; simpl; [assumption|].
  apply Hstep; [lia|]. apply IH. intros k a Hk. apply Hstep. lia.
Qed.

(** ** Rules for [returns] *)

Section ReturnsFacts.
Context {lib : Library}.

Lemma returns_ok (A : Type) (a : A) (P : A -> Prop) :
  P a -> returns (Ok a) P.
Proof. intros H. exact H. Qed.

Lemma returns_weaken (A : Type) (r : result A) (P Q : A -> Prop) :
  returns r P -> (forall a, P a -> Q a) -> returns r Q.
Proof. destruct r; simpl; auto. Qed.

Lemma returns_bind (A B : Type) (r : result A) (k : A -> result B)
  (P : A -> Prop) (Q : B -> Prop) :
  returns r P -> (forall a, P a -> returns (k a) Q) ->
  returns (bind r k) Q.
Proof. destruct r; simpl; auto. Qed.

Lemma returns_call (A : Type) (o : option A) (P : A -> Prop) :
  (TotalLibrary lib -> o <> None) ->
  (forall a, o = Some a -> P a) ->
  returns (call o) P.
Proof.
  intros Htot HP. destruct o as [a|]; simpl.
  - apply HP. reflexivity.
  - split; [reflexivity|]. intros T. apply (Htot T). reflexivity.
Qed.

Lemma returns_inv (A : Type) (r : result A) (P : A -> Prop) (a : A) :
  returns r P -> r = Ok a -> P a.
Proof. intros H ->. exact H. Qed.

Lemma returns_total (A : Type) (r : result A) (P : A -> Prop) :
  TotalLibrary lib -> returns r P -> exists a, r = Ok a /\ P a.
Proof.
  intros T. destruct r as [a|e]; simpl.
  - intros H. exists a. split; [reflexivity|assumption].
  - intros [_ H]. contradiction.
Qed.

Lemma returns_for_range (St : Type) (Inv : nat -> St -> Prop)
  (body : nat -> St -> result St) (n : nat) (st : St) :
  Inv O st ->
  (forall k a, (k < n)%nat -> Inv k a -> returns (body k a) (Inv (S k))) ->
  returns (for_range n body st) (Inv n).
Proof.
  intros H0 Hstep. induction n as [|n IH]; simpl; [assumption|].
  eapply returns_bind.
  - apply IH. intros k a Hk. apply Hstep. lia.
  - intros a Ha. apply Hstep; [lia|assumption].
Qed.

Lemma returns_for_each (X St : Type) (Inv : St -> Prop)
  (body : X -> St -> result St) (xs : list X) (st : St) :
  Inv st ->
  (forall x a, In x xs -> Inv a -> returns (body x a) Inv) ->
  returns (for_each xs body st) Inv.
Proof.
  revert st. induction xs as [|x rest IH]; intros st H0 Hstep; simpl.
  - assumption.
  - eapply returns_bind.
    + apply Hstep; [left; reflexivity|assumption].
    + intros a Ha. apply IH; [assumption|].
      intros y b Hy. apply Hstep. right. assumption.
Qed.

End ReturnsFacts.

(** the rule for a library draw, one per field of [Library] *)
Ltac lib_draw :=
  apply returns_call;
  [ intros T;
    first [ apply dirichlet_returns | apply multinomial_returns
          | apply binomial_returns | apply binomial_size_returns
          | apply pgdrawvpar_returns | apply multivariate_normal_returns ]
  | ].

(** ** The single-cell sampler *)

Section SingleCellFacts.
Context {lib : Library}.

Lemma same_data_refl (s : SC.sampler) : SC.same_data s s.
Proof. repeat split. Qed.

Lemma same_data_trans (s1 s2 s3 : SC.sampler) :
  SC.same_data s1 s2 -> SC.same_data s2 s3 -> SC.same_data s1 s3.
Proof.
  unfold SC.same_data. intros (?&?&?&?&?&?&?) (?&?&?&?&?&?&?).
  repeat split; congruence.
Qed.

Lemma data_ok_same (s s' : SC.sampler) :
  SC.same_data s s' -> SC.data_ok s -> SC.data_ok s'.
Proof.
  unfold SC.same_data, SC.data_ok.
  intros (HL&HN&_&HE&_&HR&HZ) [Hz Hr].
  rewrite HL, HN, HE, HR, HZ. split; assumption.
Qed.

Lemma cached_same (s s' : SC.sampler) (x x' : SC.latent) :
  SC.same_data s s' -> SC.A s' = SC.A s ->
  SC.S_ x' = SC.S_ x -> SC.sum_AS x' = SC.sum_AS x ->
  SC.cached s x -> SC.cached s' x'.
Proof.
  unfold SC.same_data, SC.cached.
  intros (_&HN&_&_&HG&_) HA HS HC H l.
  rewrite HN, HG, HA, HS, HC. apply H.
Qed.

Lemma init_data_ok (l n k : nat) (a : nat -> nat -> num) (pk pt : num * num)
  (sc : nat -> nat -> Z) (g : nat -> nat) (ity : nat -> list nat) (r : rng) :
  SC.data_ok (SC.init l n k a pk pt sc g ity r).
Proof. split; reflexivity. Qed.

Lemma izero_spec (s : SC.sampler) (l i : nat) :
  SC.data_ok s ->
  (In (l, i) (SC.izero s)
   <-> (l < SC.L s)%nat /\ (i < SC.N s)%nat /\ SC.SCexpr s l i = 0%Z).
Proof.
  intros [Hz _]. rewrite Hz, in_np_where.
  split; intros (Hl & Hi & H); repeat split; try assumption.
  - symmetry. apply Z.eqb_eq. assumption.
  - apply Z.eqb_eq. symmetry. assumption.
Qed.

Lemma set_ones_keep (ipos : list (nat * nat)) (sv : nat -> nat -> Z)
  (l i : nat) :
  sv l i = 1%Z -> SC.set_ones sv ipos l i = 1%Z.
Proof.
  unfold SC.set_ones. revert sv.
  induction ipos as [|[l0 i0] rest IH]; intros sv H; simpl; [assumption|].
  apply IH. unfold upd2.
  destruct (Nat.eqb l l0 && Nat.eqb i i0); [reflexivity|assumption].
Qed.

Lemma set_ones_in (ipos : list (nat * nat)) (sv : nat -> nat -> Z)
  (l i : nat) :
  In (l, i) ipos -> SC.set_ones sv ipos l i = 1%Z.
Proof.
  revert sv.
  induction ipos as [|[l0 i0] rest IH]; intros sv Hin; [contradiction|].
  destruct Hin as [Heq|Hin].
  - inversion Heq; subst.
    change (SC.set_ones (upd2 sv l i 1%Z) rest l i = 1%Z).
    apply set_ones_keep. unfold upd2. now rewrite !Nat.eqb_refl.
  - apply (IH (upd2 sv l0 i0 1%Z) Hin).
Qed.

(** The writes of [draw_S] keep the cache right *)
Lemma store_S_cached (s : SC.sampler) (l i : nat) (x : SC.latent) (v : Z) :
  (i < SC.N s)%nat -> SC.cached s x -> SC.cached s (SC.store_S s x l i v).
Proof.
  intros Hi Hc l'. unfold SC.store_S. cbn [SC.sum_AS SC.S_].
  unfold upd1 at 1. destruct (Nat.eqb_spec l' l) as [->|Hne].
  - rewrite (Hc l).
    rewrite <- (@sum_n_upd (SC.N s)
      (fun i' => SC.A s i' (SC.G s l) * of_Z (SC.S_ x l i')) i
      (SC.A s i (SC.G s l) * of_Z v) Hi).
    + apply sum_n_ext. intros i' _. unfold upd1, upd2.
      rewrite Nat.eqb_refl. simpl.
      destruct (Nat.eqb_spec i' i) as [->|]; reflexivity.
    + destruct (SC.A s i (SC.G s l)); [discriminate|reflexivity].
  - rewrite (Hc l'). apply sum_n_ext. intros i' _. unfold upd2.
    destruct (Nat.eqb_spec l' l); [contradiction|reflexivity].
Qed.

Lemma store_S_other (s : SC.sampler) (l i l' i' : nat) (x : SC.latent)
  (v : Z) :
  (l', i') <> (l, i) -> SC.S_ (SC.store_S s x l i v) l' i' = SC.S_ x l' i'.
Proof.
  intros Hne. unfold SC.store_S, upd2. cbn [SC.S_].
  destruct (Nat.eqb_spec l' l) as [->|]; [|reflexivity].
  destruct (Nat.eqb_spec i' i) as [->|]; [|reflexivity].
  contradiction Hne. reflexivity.
Qed.

(** The whole loop of [draw_S] over a list of coordinates *)
Lemma draw_S_loop (s : SC.sampler) (coords : list (nat * nat))
  (x : SC.latent) (g : rng) :
  returns (for_each coords (SC.draw_S_at s) (x, g))
    (fun xg =>
       (forall l i, ~ In (l, i) coords ->
          SC.S_ (fst xg) l i = SC.S_ x l i)
       /\ ((forall l i, In (l, i) coords -> (i < SC.N s)%nat) ->
           SC.cached s x -> SC.cached s (fst xg))
       /\ SC.kappa (fst xg) = SC.kappa x /\ SC.tau (fst xg) = SC.tau x
       /\ SC.psi (fst xg) = SC.psi x /\ SC.w (fst xg) = SC.w x).
Proof.
  apply returns_for_each.
  - simpl. repeat split; auto.
  - intros [l0 i0] [a ga] Hin (HS & HC & Hk & Ht & Hp & Hw).
    simpl in HS, HC, Hk, Ht, Hp, Hw.
    unfold SC.draw_S_at. eapply returns_bind.
    + lib_draw. intros r _. exact I.
    + intros r _. apply returns_ok. cbn [fst].
      split; [|split; [|repeat split; assumption]].
      * intros l i Hnot. rewrite store_S_other; [apply HS; assumption|].
        intros Heq. inversion Heq; subst. contradiction.
      * intros Hn Hc. apply store_S_cached; [eapply Hn; eassumption|].
        apply HC; assumption.
Qed.

Lemma init_gibbs_spec (s : SC.sampler) :
  returns (SC.init_gibbs s)
    (fun s' =>
       SC.same_data s s' /\ SC.A s' = SC.A s
       /\ SC.suff_stats s' = SC.suff_stats s
       /\ exists x, SC.lat s' = Some x /\ SC.pinned s x /\ SC.cached s x).
Proof.
  unfold SC.init_gibbs. eapply returns_bind.
  - lib_draw. intros r _. exact I.
  - intros r _. apply returns_ok. simpl.
    split; [repeat split|]. split; [reflexivity|]. split; [reflexivity|].
    eexists. split; [reflexivity|]. split.
    + intros l i Hl Hi Hpos. simpl. apply set_ones_in, in_np_where.
      repeat split; try assumption. apply Z.ltb_lt. assumption.
    + intros l. reflexivity.
Qed.

Lemma keeps_S_refl (s : SC.sampler) (x : SC.latent) :
  SC.lat s = Some x -> SC.keeps_S s x s.
Proof.
  intros H. split; [apply same_data_refl|]. repeat split.
  exists x. auto.
Qed.

Lemma keeps_S_effect (s s' : SC.sampler) (x : SC.latent) :
  SC.keeps_S s x s' ->
  SC.same_data s s' /\ SC.A s' = SC.A s
  /\ SC.suff_stats s' = SC.suff_stats s
  /\ exists x', SC.lat s' = Some x' /\ SC.S_ x' = SC.S_ x
                /\ (SC.cached s x -> SC.cached s' x').
Proof.
  intros (Hsame & HA & Hst & x' & Hlat & HS & HC).
  split; [assumption|]. split; [assumption|]. split; [assumption|].
  exists x'. split; [assumption|]. split; [assumption|].
  intros Hc. exact (@cached_same s s' x x' Hsame HA HS HC Hc).
Qed.

Lemma draw_w_keeps (s : SC.sampler) (x : SC.latent) :
  SC.lat s = Some x -> returns (SC.draw_w s) (SC.keeps_S s x).
Proof.
  intros H. unfold SC.draw_w. destruct (Nat.eqb (SC.L s) 0).
  - apply returns_ok, keeps_S_refl. assumption.
  - rewrite H. cbn [attr bind]. eapply returns_bind.
    + apply (@returns_for_range _ _ (fun _ _ => True)); [exact I|].
      intros k [a ga] _ _. unfold SC.draw_w_row. eapply returns_bind.
      * lib_draw. intros r _. exact I.
      * intros r _. exact I.
    + intros wg _. apply returns_ok.
      split; [repeat split|]. repeat split. eexists.
      split; [reflexivity|]. split; reflexivity.
Qed.

(** The loop of [draw_kappa_tau]: cell [l] receives the draw made for the
    mean and covariance computed from the state at entry *)
Lemma draw_kappa_tau_loop (s : SC.sampler) (n : nat) (x : SC.latent)
  (g : rng) :
  returns (for_range n (SC.draw_kappa_tau_cell s) (x, g))
    (fun xg =>
       (SC.w (fst xg) = SC.w x /\ SC.S_ (fst xg) = SC.S_ x
        /\ SC.sum_AS (fst xg) = SC.sum_AS x /\ SC.psi (fst xg) = SC.psi x)
       /\ forall l, (l < n)%nat ->
            exists gl r,
              multivariate_normal (SC.mP s x l) (SC.sigma_mat s x l) gl
              = Some r
              /\ (SC.kappa (fst xg) l, SC.tau (fst xg) l) = fst r).
Proof.
  apply (@returns_for_range _ _
           (fun (k : nat) (xg : SC.latent * rng) =>
              (SC.w (fst xg) = SC.w x /\ SC.S_ (fst xg) = SC.S_ x
               /\ SC.sum_AS (fst xg) = SC.sum_AS x
               /\ SC.psi (fst xg) = SC.psi x)
              /\ forall l, (l < k)%nat ->
                   exists gl r,
                     multivariate_normal (SC.mP s x l) (SC.sigma_mat s x l)
                       gl = Some r
                     /\ (SC.kappa (fst xg) l, SC.tau (fst xg) l) = fst r)).
  - split; [auto|]. intros l Hl. lia.
  - intros k [a ga] _ [(Hw & HS & HC & Hp) Hdone]. simpl in *.
    unfold SC.draw_kappa_tau_cell.
    assert (Hm : SC.mP s a k = SC.mP s x k
                 /\ SC.sigma_mat s a k = SC.sigma_mat s x k).
    { unfold SC.mP, SC.sigma_mat, SC.bP, SC.det, SC.diag0, SC.diag1,
        SC.offdiag.
      rewrite Hw, HS, HC. split; reflexivity. }
    destruct Hm as [Hm Hs]. rewrite Hm, Hs.
    eapply returns_bind.
    + lib_draw. intros r Hr. exact Hr.
    + intros r Hr. apply returns_ok. simpl. split; [auto|].
      intros l Hl. unfold upd1.
      destruct (Nat.eqb_spec l k) as [->|Hne].
      * exists ga, r. split; [assumption|].
        destruct r as [[d0 d1] g']; reflexivity.
      * apply Hdone. lia.
Qed.

Lemma draw_kappa_tau_keeps (s : SC.sampler) (x : SC.latent) :
  SC.lat s = Some x -> returns (SC.draw_kappa_tau s) (SC.keeps_S s x).
Proof.
  intros H. unfold SC.draw_kappa_tau. destruct (Nat.eqb (SC.L s) 0).
  - apply returns_ok, keeps_S_refl. assumption.
  - rewrite H. cbn [attr bind]. eapply returns_bind.
    + apply draw_kappa_tau_loop.
    + intros [x' g'] [(Hw & HS & HC & _) _]. simpl in *.
      apply returns_ok.
      split; [repeat split|]. repeat split. exists x'.
      split; [reflexivity|]. split; assumption.
Qed.

Lemma update_psi_keeps (s : SC.sampler) (x : SC.latent) :
  SC.lat s = Some x -> returns (SC.update_psi s) (SC.keeps_S s x).
Proof.
  intros H. unfold SC.update_psi. rewrite H. simpl.
  split; [repeat split|]. repeat split. eexists.
  split; [reflexivity|]. split; reflexivity.
Qed.

(** [draw_S] leaves [S] alone wherever a count was observed, and keeps
    the cache *)
Lemma draw_S_effect (s : SC.sampler) (x : SC.latent) :
  SC.data_ok s -> SC.lat s = Some x ->
  returns (SC.draw_S s)
    (fun s' =>
       SC.same_data s s' /\ SC.A s' = SC.A s
       /\ SC.suff_stats s' = SC.suff_stats s
       /\ exists x',
            SC.lat s' = Some x'
            /\ (forall l i, SC.SCexpr s l i <> 0%Z ->
                  SC.S_ x' l i = SC.S_ x l i)
            /\ (SC.cached s x -> SC.cached s' x')).
Proof.
  intros Hok Hlat. unfold SC.draw_S.
  destruct (SC.izero s) as [|c rest] eqn:Hz.
  - apply returns_ok. split; [apply same_data_refl|]. repeat split.
    exists x. auto.
  - rewrite Hlat. cbn [attr bind]. rewrite <- Hz. eapply returns_bind.
    + apply draw_S_loop.
    + intros [x' g'] (HS & HC & _). simpl in HS, HC. apply returns_ok.
      split; [repeat split|]. split; [reflexivity|]. split; [reflexivity|].
      exists x'. split; [reflexivity|]. split.
      * intros l i Hne. apply HS. intros Hin.
        apply (izero_spec l i Hok) in Hin. tauto.
      * intros Hc.
        apply (@cached_same s _ x' x'); try reflexivity; [repeat split|].
        apply HC; [|assumption].
        intros l i Hin. apply (izero_spec l i Hok) in Hin. tauto.
Qed.

Lemma gibbs_cycle_spec (s : SC.sampler) (x : SC.latent) :
  SC.data_ok s -> SC.lat s = Some x ->
  returns (SC.gibbs_cycle s)
    (fun s' =>
       SC.same_data s s' /\ SC.A s' = SC.A s
       /\ SC.suff_stats s' = SC.suff_stats s
       /\ exists x',
            SC.lat s' = Some x'
            /\ (forall l i, SC.SCexpr s l i <> 0%Z ->
                  SC.S_ x' l i = SC.S_ x l i)
            /\ (SC.cached s x -> SC.cached s' x')).
Proof.
  intros Hok Hlat. unfold SC.gibbs_cycle.
  eapply returns_bind; [apply (draw_w_keeps s Hlat)|].
  intros s1 K1. apply keeps_S_effect in K1.
  destruct K1 as (D1 & A1 & T1 & x1 & L1 & S1 & C1).
  eapply returns_bind; [apply (draw_S_effect (data_ok_same D1 Hok) L1)|].
  intros s2 (D2 & A2 & T2 & x2 & L2 & S2 & C2).
  eapply returns_bind; [apply (draw_kappa_tau_keeps s2 L2)|].
  intros s3 K3. apply keeps_S_effect in K3.
  destruct K3 as (D3 & A3 & T3 & x3 & L3 & S3 & C3).
  eapply returns_weaken; [apply (update_psi_keeps s3 L3)|].
  intros s4 K4. apply keeps_S_effect in K4.
  destruct K4 as (D4 & A4 & T4 & x4 & L4 & S4 & C4).
  split; [eauto using same_data_trans|].
  split; [congruence|]. split; [congruence|].
  exists x4. split; [assumption|]. split; [|tauto].
  intros l i Hne. rewrite S4, S3, S2, S1; [reflexivity|].
  destruct D1 as (_&_&_&HE&_). rewrite HE. assumption.
Qed.

Lemma update_suffStats_spec (n : nat) (s : SC.sampler) (x : SC.latent)
  (st : SC.stats) :
  SC.suff_stats s = Some st -> SC.lat s = Some x ->
  returns (SC.update_suffStats n s)
    (fun s' =>
       SC.same_data s s' /\ SC.A s' = SC.A s /\ SC.lat s' = Some x
       /\ exists st', SC.suff_stats s' = Some st').
Proof.
  intros Hst Hlat. unfold SC.update_suffStats. rewrite Hst, Hlat.
  cbn [attr bind]. apply returns_ok. simpl.
  split; [repeat split|]. split; [reflexivity|]. split; [assumption|].
  eexists. reflexivity.
Qed.

(** Every run of [gibbs] ends with [S] pinned *)
Lemma gibbs_pinned (s : SC.sampler) (burnin sample thin : nat) :
  SC.data_ok s ->
  returns (SC.gibbs burnin sample thin s)
    (fun s' => exists x', SC.lat s' = Some x' /\ SC.pinned s x').
Proof.
  intros Hok.
  set (Inv := fun a : SC.sampler =>
         SC.same_data s a
         /\ (exists x, SC.lat a = Some x /\ SC.pinned s x)
         /\ (exists st, SC.suff_stats a = Some st)).
  assert (Hcycle : forall a, Inv a -> returns (SC.gibbs_cycle a) Inv).
  { intros a (Da & (x & La & Pa) & (st & Ta)).
    eapply returns_weaken;
      [apply (gibbs_cycle_spec (data_ok_same Da Hok) La)|].
    intros b (Db & _ & Tb & xb & Lb & Sb & _).
    split; [eauto using same_data_trans|].
    split; [|exists st; congruence].
    exists xb. split; [assumption|]. intros l i Hl Hi Hpos.
    rewrite Sb; [apply Pa; assumption|].
    destruct Da as (_&_&_&HE&_). rewrite HE. lia. }
  unfold SC.gibbs. eapply returns_bind.
  { apply (init_gibbs_spec (SC.init_suffStats s)). }
  intros s0 (D0 & _ & T0 & x0 & L0 & P0 & _).
  assert (H0 : Inv s0).
  { split; [exact D0|]. split; [exists x0; split; [exact L0|exact P0]|].
    eexists. rewrite T0. reflexivity. }
  eapply returns_bind.
  { apply (@returns_for_range _ _ (fun _ => Inv)); [exact H0|].
    intros k a _ Ha. apply Hcycle. assumption. }
  intros s1 I1.
  destruct (Nat.eq_dec thin 0) as [->|Hthin].
  - rewrite Nat.mul_0_r. apply returns_ok.
    destruct I1 as (_ & P1 & _). exact P1.
  - eapply returns_weaken.
    + apply (@returns_for_range _ _ (fun _ => Inv)); [exact I1|].
      intros k a _ Ha. unfold SC.sampling_step.
      eapply returns_bind; [apply Hcycle; assumption|].
      intros b (Db & (xb & Lb & Pb) & (st & Tb)).
      destruct (Nat.eqb_spec thin 0); [contradiction|].
      destruct (Nat.eqb (k mod thin) 0).
      * eapply returns_weaken;
          [apply (update_suffStats_spec sample b Tb Lb)|].
        intros c (Dc & _ & Lc & Tc).
        split; [eauto using same_data_trans|]. eauto.
      * apply returns_ok. split; [assumption|]. eauto.
    + intros s2 (_ & P2 & _). exact P2.
Qed.

(** C2: for every cell [l] and gene [i] with [SCexpr[l,i] > 0], [S[l,i]]
    is 1 after [init_gibbs]; [draw_S] resamples only coordinates where
    [SCexpr] is zero, so it leaves [S] as it is everywhere else and the
    pinned entries stay 1 after every [draw_S], every [gibbs_cycle] and at
    the end of every run of [gibbs], whatever its length.  ([returns]: the
    call raises nothing of its own and its result satisfies the
    property.) *)
Theorem sc_S_pinned (s : SC.sampler) :
  SC.data_ok s ->
  returns (SC.init_gibbs s)
    (fun s' => exists x, SC.lat s' = Some x /\ SC.pinned s x)
  /\ (forall x, SC.lat s = Some x ->
        returns (SC.draw_S s)
          (fun s' =>
             exists x',
               SC.lat s' = Some x'
               /\ (forall l i, SC.SCexpr s l i <> 0%Z ->
                     SC.S_ x' l i = SC.S_ x l i)
               /\ (SC.pinned s x -> SC.pinned s x')))
  /\ (forall x, SC.lat s = Some x -> SC.pinned s x ->
        returns (SC.gibbs_cycle s)
          (fun s' => exists x', SC.lat s' = Some x' /\ SC.pinned s x'))
  /\ (forall burnin sample thin,
        returns (SC.gibbs burnin sample thin s)
          (fun s' => exists x', SC.lat s' = Some x' /\ SC.pinned s x')).
Proof.
  intros Hok.
  assert (Hkeep : forall x x' : SC.latent,
            (forall l i, SC.SCexpr s l i <> 0%Z ->
               SC.S_ x' l i = SC.S_ x l i) ->
            SC.pinned s x -> SC.pinned s x').
  { intros x x' HS HP l i Hl Hi Hpos.
    rewrite HS by lia. apply HP; assumption. }
  split; [|split; [|split]].
  - eapply returns_weaken; [apply init_gibbs_spec|].
    intros s' (_ & _ & _ & x & Hl & HP & _). eauto.
  - intros x Hlat.
    eapply returns_weaken; [apply (draw_S_effect Hok Hlat)|].
    intros s' (_ & _ & _ & x' & L' & HS & _). exists x'. eauto.
  - intros x Hlat HP.
    eapply returns_weaken; [apply (gibbs_cycle_spec Hok Hlat)|].
    intros s' (_ & _ & _ & x' & L' & HS & _). exists x'. eauto.
  - intros burnin sample thin. apply gibbs_pinned. assumption.
Qed.

(** C3: [draw_S] visits exactly the coordinates [(l,i)] with
    [SCexpr[l,i] == 0]; at each of them, with [A_curr = A[i,G[l]]] and
    [sum_other = sum_AS[l] - A_curr*S[l,i]], the new [S[l,i]] is a
    Bernoulli draw of success probability [expit(psi[l,i])] when
    [sum_other] is zero and
    [expit(psi[l,i] - R_l*log(1 + A_curr/sum_other))] otherwise, [R_l]
    being the sum of [SCexpr[l,:]]; [sum_AS[l]] is then set to
    [sum_other + A_curr*S[l,i]]. *)
Theorem sc_draw_S_probability (s : SC.sampler) (x : SC.latent) (g : rng)
  (l i : nat) :
  SC.data_ok s ->
  (In (l, i) (SC.izero s)
   <-> (l < SC.L s)%nat /\ (i < SC.N s)%nat /\ SC.SCexpr s l i = 0%Z)
  /\ (SC.lat s = Some x -> SC.izero s <> [] ->
      SC.draw_S s
      = (xg <- for_each (SC.izero s) (SC.draw_S_at s) (x, SC.gen s) ;;
         Ok (SC.with_gen (SC.with_lat s (fst xg)) (snd xg))))
  /\ let A_curr := SC.A s i (SC.G s l) in
     let sum_other := SC.sum_AS x l - A_curr * of_Z (SC.S_ x l i) in
     let R_l := zsum (SC.N s) (fun i' => SC.SCexpr s l i') in
     let b :=
       if is_zero sum_other then expit (SC.psi x l i)
       else expit (SC.psi x l i
                   - of_Z R_l * np_log (1 + A_curr / sum_other)) in
     returns (SC.draw_S_at s (l, i) (x, g))
       (fun xg =>
          exists v g',
            binomial b g = Some (v, g') /\ snd xg = g'
            /\ SC.S_ (fst xg) l i = v
            /\ SC.sum_AS (fst xg) l = sum_other + A_curr * of_Z v).
Proof.
  intros Hok. split; [apply izero_spec; assumption|]. split.
  - intros Hlat Hne. unfold SC.draw_S.
    destruct (SC.izero s); [contradiction|]. rewrite Hlat. reflexivity.
  - cbv zeta. unfold SC.draw_S_at, SC.dropout_prob.
    destruct Hok as [_ Hrd]. rewrite Hrd.
    eapply returns_bind.
    + lib_draw. intros r Hr. exact Hr.
    + intros [v g'] Hr. apply returns_ok. exists v, g'.
      split; [exact Hr|]. split; [reflexivity|].
      unfold SC.store_S, upd1, upd2. cbn [fst SC.S_ SC.sum_AS].
      rewrite !Nat.eqb_refl. split; reflexivity.
Qed.

Lemma update_parameters_spec (a : nat -> nat -> num) (pk pt : num * num)
  (s : SC.sampler) (x : SC.latent) :
  SC.lat s = Some x ->
  returns (SC.update_parameters a pk pt s)
    (fun s' =>
       exists x',
         SC.lat s' = Some x'
         /\ SC.A s' = a /\ SC.pkappa s' = pk /\ SC.ptau s' = pt
         /\ SC.same_data s s' /\ SC.cached s' x'
         /\ SC.psi x' = SC.psi_of s' (SC.kappa x') (SC.tau x')
         /\ SC.S_ x' = SC.S_ x /\ SC.kappa x' = SC.kappa x
         /\ SC.tau x' = SC.tau x /\ SC.w x' = SC.w x).
Proof.
  intros Hlat. unfold SC.update_parameters, SC.update_psi. simpl.
  rewrite Hlat. simpl. eexists. split; [reflexivity|].
  simpl. do 3 (split; [reflexivity|]).
  split; [repeat split|]. split; [intros l; reflexivity|].
  repeat split.
Qed.


Lemma ndiv_zero (x : num) : x / 0 = NaN.
Proof.
  destruct x as [a|]; simpl; [|reflexivity].
  destruct (Qc_eq_dec 0 0) as [_|Hne]; [reflexivity|].
  exfalso. apply Hne. reflexivity.
Qed.


End SingleCellFacts.

#[export] Instance det_total : TotalLibrary det_lib.
Proof. constructor; intros; discriminate. Qed.

Lemma sc_S_pinned_witness :
  returns (SC.gibbs 2 3 2 sc_example)
    (fun s' => exists x', SC.lat s' = Some x' /\ SC.pinned sc_example x').
Proof.
  apply (@sc_S_pinned det_lib sc_example). split; reflexivity.
Defined.

Lemma sc_draw_S_probability_witness :
  In (O, O) (SC.izero sc_example)
  <-> (0 < SC.L sc_example)%nat /\ (0 < SC.N sc_example)%nat
      /\ SC.SCexpr sc_example 0 0 = 0%Z.
Proof.
  apply (@sc_draw_S_probability det_lib sc_example
           {| SC.kappa := fun _ => 0; SC.tau := fun _ => 0;
              SC.S_ := fun _ _ => 1%Z; SC.psi := fun _ _ => 0;
              SC.w := fun _ _ => 1; SC.sum_AS := fun _ => 1 |} O O O).
  split; reflexivity.
Defined.




(** ** The bulk sampler *)

Section BulkFacts.
Context {lib : Library}.

Lemma ndiv_Fin (a q : Qc) : q <> 0%Qc -> Fin a / Fin q = Fin (a / q)%Qc.
Proof.
  intros H. simpl. destruct (Qc_eq_dec q 0); [contradiction|reflexivity].
Qed.

Lemma nonzero_of_nat (n : nat) : (1 <= n)%nat -> nonzero (of_nat n).
Proof.
  intros Hn. eexists. split; [reflexivity|].
  intros H. apply Q2Qc_eq_iff in H. unfold Qeq in H. simpl in H. lia.
Qed.

Lemma qsum_div (n : nat) (f : nat -> Qc) (q : Qc) :
  qsum n (fun k => (f k / q)%Qc) = (qsum n f / q)%Qc.
Proof. unfold Qcdiv. apply qsum_mul_r. Qed.

(** normalising a column whose total is a non-zero number *)
Lemma normalized_column (n : nat) (f : nat -> num) :
  nonzero (sum_n n f) ->
  sum_n n (fun k => f k / sum_n n f) = 1.
Proof.
  intros (q & Hq & Hne). rewrite Hq.
  destruct (sum_n_finite n f Hq) as [Hall Hsum].
  rewrite (sum_n_Fin (fun k => f k / Fin q)
             (fun k => (val (f k) / q)%Qc)).
  - rewrite qsum_div, <- Hsum. f_equal. field. assumption.
  - intros k Hk. rewrite (Hall k Hk) at 1. apply ndiv_Fin. assumption.
Qed.

Lemma coord_eq_dec (a b : nat * nat) : {a = b} + {a <> b}.
Proof. decide equality; apply Nat.eq_dec. Qed.

Lemma set_markers_spec (s : BK.sampler) (mk : list (nat * nat)) :
  (forall i k, In (i, k) mk -> (i < BK.N s)%nat /\ (k < BK.K s)%nat) ->
  forall z,
  exists z',
    BK.set_markers s z mk = Ok z'
    /\ forall j i k,
         (In (i, k) mk ->
            z' j i k = of_Z (BK.BKexpr s j i) + BK.alpha s k)
         /\ (~ In (i, k) mk -> z' j i k = z j i k).
Proof.
  induction mk as [|[i0 k0] rest IH]; intros Hrange z.
  - exists z. split; [reflexivity|]. intros j i k. split; [contradiction|auto].
  - destruct (Hrange i0 k0 (or_introl eq_refl)) as [Hi Hk].
    cbn [BK.set_markers]. unfold BK.set_marker.
    apply Nat.ltb_lt in Hi, Hk. rewrite Hi, Hk. cbn [andb bind].
    match goal with
    | |- context [BK.set_markers s ?z1 rest] =>
        destruct (IH (fun i k H => Hrange i k (or_intror H)) z1)
          as (z' & Hrun & Hz')
    end.
    exists z'. split; [assumption|]. intros j i k.
    destruct (Hz' j i k) as [Hin Hout]. split.
    + intros [Heq|Hr]; [|auto]. inversion Heq; subst.
      destruct (in_dec coord_eq_dec (i, k) rest)
        as [Hr|Hr]; [auto|].
      rewrite (Hout Hr), !Nat.eqb_refl. reflexivity.
    + intros Hnot. rewrite Hout by (intro; apply Hnot; right; assumption).
      destruct (Nat.eqb_spec i i0) as [->|]; [|reflexivity].
      destruct (Nat.eqb_spec k k0) as [->|]; [|reflexivity].
      exfalso. apply Hnot. left. reflexivity.
Qed.


(** *** The sweeps of the exact mode *)

Lemma bk_same_data_refl (s : BK.sampler) : BK.same_data s s.
Proof. repeat split. Qed.

Lemma bk_same_data_trans (s1 s2 s3 : BK.sampler) :
  BK.same_data s1 s2 -> BK.same_data s2 s3 -> BK.same_data s1 s3.
Proof.
  unfold BK.same_data. intros (?&?&?&?&?&?) (?&?&?&?&?&?).
  repeat split; congruence.
Qed.

Lemma draw_W_spec (s : BK.sampler) :
  BK.initialised s ->
  returns (BK.draw_W s)
    (fun s' =>
       BK.same_data s s' /\ BK.suff_stats s' = BK.suff_stats s
       /\ BK.Z_ s' = BK.Z_ s
       /\ exists w, BK.W s' = Some w /\ BK.AW s' = Some (BK.dot_AW s w)).
Proof.
  intros [[w Hw] [z Hz]]. unfold BK.draw_W. rewrite Hz, Hw.
  cbn [attr bind]. eapply returns_bind.
  - apply (@returns_for_range _ _ (fun _ _ => True)); [exact I|].
    intros k [a ga] _ _. unfold BK.draw_W_col. eapply returns_bind.
    + lib_draw. intros r _. exact I.
    + intros r _. exact I.
  - intros [w' g'] _. apply returns_ok. simpl.
    split; [repeat split|]. split; [reflexivity|]. split; [assumption|].
    exists w'. split; reflexivity.
Qed.

Lemma draw_Z_spec (s : BK.sampler) :
  BK.initialised s -> (exists aw, BK.AW s = Some aw) ->
  returns (BK.draw_Z s)
    (fun s' =>
       BK.same_data s s' /\ BK.suff_stats s' = BK.suff_stats s
       /\ BK.W s' = BK.W s /\ exists z, BK.Z_ s' = Some z).
Proof.
  intros [[w Hw] [z Hz]] [aw Haw]. unfold BK.draw_Z.
  destruct (Nat.eqb (BK.M s) 0 || Nat.eqb (BK.N s) 0).
  - apply returns_ok. split; [apply bk_same_data_refl|]. eauto.
  - rewrite Hw, Haw, Hz. cbn [attr bind]. eapply returns_bind.
    + apply (@returns_for_range _ _ (fun _ _ => True)); [exact I|].
      intros j a _ _.
      apply (@returns_for_range _ _ (fun _ _ => True)); [exact I|].
      intros i [b gb] _ _. unfold BK.draw_Z_cell. eapply returns_bind.
      * lib_draw. intros r _. exact I.
      * intros r _. exact I.
    + intros [z' g'] _. apply returns_ok. simpl.
      split; [repeat split|]. split; [reflexivity|]. split; [assumption|].
      eexists. reflexivity.
Qed.

Lemma gibbs_cycle_initialised (s : BK.sampler) :
  BK.initialised s ->
  returns (BK.gibbs_cycle s)
    (fun s' =>
       BK.same_data s s' /\ BK.suff_stats s' = BK.suff_stats s
       /\ BK.initialised s').
Proof.
  intros Hi. unfold BK.gibbs_cycle.
  eapply returns_bind; [apply (draw_W_spec Hi)|].
  intros s1 (D1 & T1 & Z1 & w1 & W1 & AW1).
  assert (I1 : BK.initialised s1).
  { split; [eauto|]. rewrite Z1. apply Hi. }
  eapply returns_weaken; [apply (draw_Z_spec I1); eauto|].
  intros s2 (D2 & T2 & W2 & z2 & Z2).
  split; [eauto using bk_same_data_trans|]. split; [congruence|].
  split; [exists w1; congruence|eauto].
Qed.

(** a sweep neither reads nor writes the statistics *)
Lemma gibbs_cycle_set_stats (o : option BK.stats) (a : BK.sampler) :
  BK.gibbs_cycle (BK.set_stats o a)
  = match BK.gibbs_cycle a with
    | Ok b => Ok (BK.set_stats o b)
    | Err e => Err e
    end.
Proof.
  unfold BK.gibbs_cycle, BK.draw_W. cbn [BK.set_stats BK.Z_ BK.W].
  destruct (BK.Z_ a) as [z|] eqn:EZ; [|reflexivity].
  destruct (BK.W a) as [w|]; [|reflexivity]. cbn [attr bind].
  change (BK.M (BK.set_stats o a)) with (BK.M a).
  change (BK.draw_W_col (BK.set_stats o a)) with (BK.draw_W_col a).
  change (BK.Z_sum_genes (BK.set_stats o a)) with (BK.Z_sum_genes a).
  change (BK.gen (BK.set_stats o a)) with (BK.gen a).
  destruct (for_range (BK.M a) (BK.draw_W_col a (BK.Z_sum_genes a z))
              (w, BK.gen a)) as [[w' g']|e]; [|reflexivity].
  cbn [bind fst snd]. unfold BK.draw_Z.
  cbn [BK.M BK.N BK.W BK.AW BK.Z_ BK.gen BK.with_AW BK.with_gen BK.with_W
       BK.set_stats attr bind].
  destruct (Nat.eqb (BK.M a) 0 || Nat.eqb (BK.N a) 0); [reflexivity|].
  rewrite EZ. cbn [attr bind].
  match goal with
  | |- bind ?x _ = match bind ?y _ with _ => _ end =>
      change x with y; destruct y as [[z' g'']|e]; reflexivity
  end.
Qed.

Lemma set_stats_eta (s : BK.sampler) :
  BK.set_stats (BK.suff_stats s) s = s.
Proof. destruct s; reflexivity. Qed.

Lemma sweeps_succ (n : nat) (s0 b : BK.sampler) :
  BK.gibbs_cycle (BK.sweeps n s0) = Ok b -> BK.sweeps (S n) s0 = b.
Proof. intros E. simpl. unfold BK.sweep. rewrite E. reflexivity. Qed.

(** [n] sweeps from an initialised state: the chain they build *)
Lemma chain_sweeps (s0 : BK.sampler) (n : nat) :
  BK.initialised s0 ->
  returns (for_range n (fun _ => BK.gibbs_cycle) s0)
    (fun a =>
       a = BK.sweeps n s0
       /\ for_range n (fun _ => BK.gibbs_cycle) s0 = Ok a
       /\ BK.initialised a /\ BK.same_data s0 a
       /\ BK.suff_stats a = BK.suff_stats s0).
Proof.
  intros Hi.
  apply (@returns_for_range _ _
           (fun k a =>
              a = BK.sweeps k s0
              /\ for_range k (fun _ => BK.gibbs_cycle) s0 = Ok a
              /\ BK.initialised a /\ BK.same_data s0 a
              /\ BK.suff_stats a = BK.suff_stats s0)).
  - repeat split; try assumption; apply Hi.
  - intros k a _ (Ha & Hrun & Ia & Da & Ta).
    pose proof (gibbs_cycle_initialised Ia) as H.
    destruct (BK.gibbs_cycle a) as [b|e] eqn:E; [|exact H].
    simpl in H. destruct H as (Db & Tb & Ib). simpl.
    split; [symmetry; apply sweeps_succ; rewrite <- Ha; exact E|].
    split; [rewrite Hrun; exact E|].
    split; [assumption|]. split; [eauto using bk_same_data_trans|].
    congruence.
Qed.

Lemma accumulated_succ (s0 : BK.sampler) (burnin sample thin n : nat) :
  BK.accumulated s0 burnin sample thin (S n)
  = if Nat.eqb (n mod thin) 0
    then let a := BK.sweeps (burnin + n + 1) s0 in
         BK.accumulate a (BK.Z_of a) (BK.W_of a) sample
           (BK.accumulated s0 burnin sample thin n)
    else BK.accumulated s0 burnin sample thin n.
Proof.
  unfold BK.accumulated. rewrite seq_S, filter_app, fold_left_app.
  cbn [filter Nat.add]. destruct (Nat.eqb (n mod thin) 0); reflexivity.
Qed.

(** the sampling loop, started after [burnin] sweeps *)
Lemma sampling_loop (s0 : BK.sampler) (burnin sample thin n : nat) :
  (1 <= thin)%nat ->
  BK.initialised (BK.sweeps burnin s0) ->
  for_range burnin (fun _ => BK.gibbs_cycle) s0
  = Ok (BK.sweeps burnin s0) ->
  returns
    (for_range n (BK.sampling_step sample thin)
       (BK.set_stats (Some BK.zero_stats) (BK.sweeps burnin s0)))
    (fun a =>
       a = BK.set_stats (Some (BK.accumulated s0 burnin sample thin n))
             (BK.sweeps (burnin + n) s0)
       /\ for_range (burnin + n) (fun _ => BK.gibbs_cycle) s0
          = Ok (BK.sweeps (burnin + n) s0)
       /\ BK.initialised (BK.sweeps (burnin + n) s0)).
Proof.
  intros Hthin Hi Hrun.
  apply (@returns_for_range _ _
           (fun k a =>
              a = BK.set_stats
                    (Some (BK.accumulated s0 burnin sample thin k))
                    (BK.sweeps (burnin + k) s0)
              /\ for_range (burnin + k) (fun _ => BK.gibbs_cycle) s0
                 = Ok (BK.sweeps (burnin + k) s0)
              /\ BK.initialised (BK.sweeps (burnin + k) s0))).
  - rewrite Nat.add_0_r. repeat split; try assumption; apply Hi.
  - intros k a _ (Ha & Hk & Ik). subst a.
    unfold BK.sampling_step. rewrite gibbs_cycle_set_stats.
    pose proof (gibbs_cycle_initialised Ik) as H.
    destruct (BK.gibbs_cycle (BK.sweeps (burnin + k) s0)) as [b|e] eqn:E;
      [|exact H].
    simpl in H. destruct H as (_ & _ & Ib). cbn [bind].
    destruct (Nat.eqb_spec thin 0) as [H0|_]; [lia|].
    pose proof (sweeps_succ _ _ E) as Hb.
    replace (burnin + S k)%nat with (S (burnin + k)) by lia.
    rewrite accumulated_succ, Hb.
    replace (burnin + k + 1)%nat with (S (burnin + k)) by lia.
    rewrite Hb.
    assert (Hfr : for_range (S (burnin + k)) (fun _ => BK.gibbs_cycle) s0
                  = Ok b).
    { simpl. rewrite Hk. exact E. }
    destruct (Nat.eqb (k mod thin) 0).
    + unfold BK.update_suffStats. cbn [BK.suff_stats BK.set_stats BK.Z_ BK.W].
      destruct Ib as [[w Hw] [z Hz]]. unfold BK.Z_of, BK.W_of.
      rewrite Hw, Hz. cbn [attr bind]. apply returns_ok.
      split; [reflexivity|]. split; [assumption|]. split; eauto.
    + apply returns_ok. split; [reflexivity|]. split; assumption.
Qed.

(** The exact mode of [gibbs] as a chain of sweeps with statistics *)
Lemma gibbs_exact_chain (s : BK.sampler) (burnin sample thin : nat) :
  BK.initialised s ->
  let s0 := BK.init_suffStats s in
  let n := (burnin + sample * thin)%nat in
  returns (BK.gibbs burnin sample thin false s)
    (fun s' =>
       s' = BK.set_stats
              (Some (BK.accumulated s0 burnin sample thin (sample * thin)))
              (BK.sweeps n s0)
       /\ for_range n (fun _ => BK.gibbs_cycle) s0 = Ok (BK.sweeps n s0)
       /\ BK.initialised (BK.sweeps n s0)).
Proof.
  intros Hi s0 n. unfold BK.gibbs. fold s0.
  assert (I0 : BK.initialised s0) by exact Hi.
  eapply returns_bind; [apply (chain_sweeps burnin I0)|].
  intros s1 (H1 & R1 & I1 & _ & T1). subst s1.
  destruct (Nat.eq_dec thin 0) as [->|Hthin].
  - subst n. rewrite Nat.mul_0_r, Nat.add_0_r. apply returns_ok.
    split; [|split; assumption].
    unfold BK.accumulated. simpl.
    rewrite <- (set_stats_eta (BK.sweeps burnin s0)) at 1.
    rewrite T1. reflexivity.
  - assert (Hs : BK.set_stats (Some BK.zero_stats) (BK.sweeps burnin s0)
                 = BK.sweeps burnin s0).
    { rewrite <- (set_stats_eta (BK.sweeps burnin s0)) at 2.
      rewrite T1. reflexivity. }
    rewrite <- Hs.
    apply sampling_loop; [lia|assumption|assumption].
Qed.

(** *** Running means *)

Lemma ndiv_add (a b c : num) :
  nonzero c -> a / c + b / c = (a + b) / c.
Proof.
  intros (q & -> & Hq). destruct a as [a|], b as [b|]; simpl;
    destruct (Qc_eq_dec q 0); try contradiction; simpl; try reflexivity.
  f_equal. field. assumption.
Qed.

Lemma zero_div (c : num) : nonzero c -> 0 / c = 0.
Proof.
  intros (q & -> & Hq). rewrite ndiv_Fin by assumption.
  f_equal. field. assumption.
Qed.

Lemma fold_div (c : num) (xs : list num) :
  nonzero c ->
  forall a0,
    fold_left (fun acc x => acc + x / c) xs (a0 / c)
    = fold_left nadd xs a0 / c.
Proof.
  intros Hc. induction xs as [|x rest IH]; intros a0; simpl.
  - reflexivity.
  - rewrite ndiv_add by assumption. apply IH.
Qed.

(** accumulating [x / n] over [n] values gives their mean *)
Lemma running_mean (n : nat) (xs : list num) :
  (1 <= n)%nat -> length xs = n ->
  fold_left (fun acc x => acc + x / of_nat n) xs 0 = mean xs.
Proof.
  intros Hn Hlen. unfold mean. rewrite Hlen.
  rewrite <- (zero_div (nonzero_of_nat Hn)) at 1.
  apply fold_div, nonzero_of_nat. assumption.
Qed.

Lemma fold_accumulate (X : Type) (step : BK.stats -> X -> BK.stats)
  (proj : BK.stats -> num) (val_of : X -> num) (c : num) :
  (forall st x, proj (step st x) = proj st + val_of x / c) ->
  forall xs st0,
    proj (fold_left step xs st0)
    = fold_left (fun acc v => acc + v / c) (map val_of xs) (proj st0).
Proof.
  intros Hstep. induction xs as [|x rest IH]; intros st0; simpl.
  - reflexivity.
  - rewrite IH, Hstep. reflexivity.
Qed.

Lemma filter_none (X : Type) (test : X -> bool) (xs : list X) :
  (forall x, In x xs -> test x = false) -> filter test xs = [].
Proof.
  induction xs as [|x rest IH]; intros H; simpl; [reflexivity|].
  rewrite (H x (or_introl eq_refl)). apply IH.
  intros y Hy. apply H. right. assumption.
Qed.

(** of [thin] consecutive indices from a multiple of [thin], the first
    alone passes the test *)
Lemma retained_block (thin a : nat) :
  (1 <= thin)%nat ->
  filter (fun giter => Nat.eqb (giter mod thin) 0) (seq (a * thin) thin)
  = [(a * thin)%nat].
Proof.
  intros Hthin. destruct thin as [|t]; [lia|].
  cbn [seq filter]. rewrite Nat.Div0.mod_mul. cbn [Nat.eqb].
  f_equal. apply filter_none. intros g Hg. apply in_seq in Hg.
  apply Nat.eqb_neq.
  replace g with ((g - a * S t) + a * S t)%nat by lia.
  rewrite Nat.Div0.mod_add, Nat.mod_small by lia. lia.
Qed.

Lemma retained_spec (sample thin : nat) :
  (1 <= thin)%nat ->
  BK.retained sample thin = map (fun t => (t * thin)%nat) (seq 0 sample).
Proof.
  intros Hthin. unfold BK.retained.
  induction sample as [|n IH]; [reflexivity|].
  replace (S n * thin)%nat with (n * thin + thin)%nat by lia.
  rewrite seq_app, filter_app, IH. cbn [Nat.add].
  rewrite (retained_block n Hthin), seq_S, map_app. reflexivity.
Qed.

(** C5: with [W] and [Z] initialised, [sample >= 1] and [thin >= 1],
    [gibbs] with [mean_approx=false] runs [burnin] sweeps without
    accumulating, then [sample*thin] sweeps, and accumulates after the
    sweeps of index [0, thin, 2*thin, ...] (those with
    [index mod thin == 0], [sample] of them): each of the four
    accumulators ends as the arithmetic mean of its statistic over the
    states after these sweeps. *)
Theorem bk_gibbs_exact_mean (s : BK.sampler) (burnin sample thin : nat) :
  BK.initialised s -> (1 <= sample)%nat -> (1 <= thin)%nat ->
  let s0 := BK.init_suffStats s in
  let n := (burnin + sample * thin)%nat in
  let kept := BK.retained sample thin in
  let state t := BK.sweeps (burnin + t + 1) s0 in
  kept = map (fun t => (t * thin)%nat) (seq 0 sample)
  /\ returns (BK.gibbs burnin sample thin false s)
       (fun s' =>
          for_range n (fun _ => BK.gibbs_cycle) s0 = Ok (BK.sweeps n s0)
          /\ BK.W s' = BK.W (BK.sweeps n s0)
          /\ BK.Z_ s' = BK.Z_ (BK.sweeps n s0)
          /\ exists st,
               BK.suff_stats s' = Some st
               /\ (forall i k,
                     BK.exp_Zik st i k
                     = mean (map (fun t => BK.stat_Zik (state t) i k) kept))
               /\ (forall j k,
                     BK.exp_Zjk st j k
                     = mean (map (fun t => BK.stat_Zjk (state t) j k) kept))
               /\ (forall k j,
                     BK.exp_logW st k j
                     = mean (map (fun t => BK.stat_logW (state t) k j) kept))
               /\ (forall k j,
                     BK.exp_W st k j
                     = mean (map (fun t => BK.stat_W (state t) k j) kept))).
Proof.
  intros Hi Hsample Hthin s0 n kept state.
  assert (Hkept : kept = map (fun t => (t * thin)%nat) (seq 0 sample))
    by (apply retained_spec; assumption).
  split; [exact Hkept|].
  assert (Hlen : forall f : nat -> num, length (map f kept) = sample).
  { intros f. rewrite length_map, Hkept, length_map, length_seq.
    reflexivity. }
  eapply returns_weaken;
    [apply (gibbs_exact_chain burnin sample thin Hi)|].
  intros s' (Hs' & Hrun & _). fold s0 in Hs', Hrun. fold n in Hs', Hrun.
  split; [exact Hrun|]. subst s'. cbn [BK.W BK.Z_ BK.set_stats BK.suff_stats].
  split; [reflexivity|]. split; [reflexivity|].
  eexists. split; [reflexivity|].
  unfold BK.accumulated. fold (BK.retained sample thin). fold kept.
  repeat split; intros;
    match goal with
    | |- ?proj (fold_left ?step kept BK.zero_stats) ?x ?y
         = mean (map ?v kept) =>
        rewrite (@fold_accumulate nat step (fun st => proj st x y) v
                   (of_nat sample) (fun _ _ => eq_refl) kept BK.zero_stats);
        apply (@running_mean sample (map v kept) Hsample (Hlen v))
    end.
Qed.

(** *** What one sweep establishes *)

Lemma draw_W_simplex (laws : RandomLaws lib) (s : BK.sampler) :
  (0 < BK.K s)%nat -> BK.initialised s ->
  returns (BK.draw_W s)
    (fun s' =>
       BK.same_data s s' /\ BK.suff_stats s' = BK.suff_stats s
       /\ BK.Z_ s' = BK.Z_ s /\ (exists aw, BK.AW s' = Some aw)
       /\ BK.simplex s').
Proof.
  intros HK [[w Hw] [z Hz]]. unfold BK.draw_W. rewrite Hz, Hw.
  cbn [attr bind]. eapply returns_bind.
  - apply (@returns_for_range _ _
             (fun (m : nat) (wg : (nat -> nat -> num) * rng) =>
                forall j, (j < m)%nat ->
                  sum_n (BK.K s) (fun k => fst wg k j) = 1)).
    + intros j Hj. lia.
    + intros m [a ga] _ Hdone. unfold BK.draw_W_col.
      eapply returns_bind.
      * lib_draw. intros r Hr. exact Hr.
      * intros [col g'] Hr. apply returns_ok. cbn [fst snd].
        intros j Hj. destruct (Nat.eqb_spec j m) as [->|Hne].
        -- eapply dirichlet_simplex; eassumption.
        -- apply Hdone. lia.
  - intros [w' g'] Hsum. apply returns_ok. cbn [fst snd] in *.
    split; [repeat split|]. split; [reflexivity|]. split; [assumption|].
    split; [eexists; reflexivity|].
    exists w'. split; [reflexivity|]. exact Hsum.
Qed.

Lemma draw_Z_allocates (laws : RandomLaws lib) (s : BK.sampler) :
  (0 < BK.K s)%nat -> BK.initialised s -> (exists aw, BK.AW s = Some aw) ->
  returns (BK.draw_Z s)
    (fun s' =>
       BK.same_data s s' /\ BK.suff_stats s' = BK.suff_stats s
       /\ BK.W s' = BK.W s /\ BK.allocates s').
Proof.
  intros HK [[w Hw] [z Hz]] [aw Haw]. unfold BK.draw_Z.
  destruct (Nat.eqb (BK.M s) 0 || Nat.eqb (BK.N s) 0) eqn:Hdim.
  - apply returns_ok. split; [apply bk_same_data_refl|].
    split; [reflexivity|]. split; [reflexivity|].
    exists z. split; [assumption|]. intros j i Hj Hi.
    apply orb_true_iff in Hdim.
    destruct Hdim as [H|H]; apply Nat.eqb_eq in H; lia.
  - rewrite Hw, Haw, Hz. cbn [attr bind]. eapply returns_bind.
    + apply (@returns_for_range _ _
               (fun (m : nat) (zg : (nat -> nat -> nat -> num) * rng) =>
                  forall j i, (j < m)%nat -> (i < BK.N s)%nat ->
                    sum_n (BK.K s) (fun k => fst zg j i k)
                    = of_Z (BK.BKexpr s j i))).
      * intros j i Hj. lia.
      * intros m a _ Hdone.
        eapply returns_weaken.
        -- apply (@returns_for_range _ _
                    (fun (n : nat) (zg : (nat -> nat -> nat -> num) * rng) =>
                       (forall j i, (j < m)%nat -> (i < BK.N s)%nat ->
                          sum_n (BK.K s) (fun k => fst zg j i k)
                          = of_Z (BK.BKexpr s j i))
                       /\ (forall i, (i < n)%nat ->
                             sum_n (BK.K s) (fun k => fst zg m i k)
                             = of_Z (BK.BKexpr s m i)))).
           ++ split; [exact Hdone|]. intros i Hi. lia.
           ++ intros n [b gb] _ [Hrows Hrow]. unfold BK.draw_Z_cell.
              eapply returns_bind.
              ** lib_draw. intros r Hr. exact Hr.
              ** intros [cnt g'] Hr. apply returns_ok. cbn [fst snd] in *.
                 split.
                 --- intros j i Hj Hi.
                     destruct (Nat.eqb_spec j m); [lia|]. cbn [andb].
                     apply Hrows; assumption.
                 --- intros i Hi. rewrite Nat.eqb_refl. cbn [andb].
                     destruct (Nat.eqb_spec i n) as [->|Hne].
                     +++ rewrite sum_n_of_Z. f_equal.
                         eapply multinomial_total; eassumption.
                     +++ apply Hrow. lia.
        -- intros zg [Hrows Hrow] j i Hj Hi.
           destruct (Nat.eq_dec j m) as [->|Hne].
           ++ apply Hrow. assumption.
           ++ apply Hrows; [lia|assumption].
    + intros [z' g'] Hall. apply returns_ok. cbn [fst snd] in *.
      split; [repeat split|]. split; [reflexivity|]. split; [assumption|].
      exists z'. split; [reflexivity|]. exact Hall.
Qed.

Lemma gibbs_cycle_invariants (laws : RandomLaws lib) (s : BK.sampler) :
  (0 < BK.K s)%nat -> BK.initialised s ->
  returns (BK.gibbs_cycle s)
    (fun s' => BK.allocates s' /\ BK.simplex s').
Proof.
  intros HK Hi. unfold BK.gibbs_cycle.
  eapply returns_bind; [apply (draw_W_simplex laws HK Hi)|].
  intros s1 (D1 & T1 & Z1 & AW1 & (w1 & W1 & S1)).
  assert (I1 : BK.initialised s1).
  { split; [eauto|]. rewrite Z1. apply Hi. }
  assert (K1 : (0 < BK.K s1)%nat).
  { destruct D1 as (_ & _ & HK1 & _). rewrite HK1. assumption. }
  eapply returns_weaken; [apply (draw_Z_allocates laws K1 I1 AW1)|].
  intros s2 (D2 & T2 & W2 & HA). split; [assumption|].
  exists w1. split; [congruence|].
  destruct D2 as (HM & _ & HK2 & _). rewrite HM, HK2. exact S1.
Qed.

(** *** The mean-approx mode *)

(** the state [gibbs] returns in the mean-approx mode *)
Lemma gibbs_mean_result (s : BK.sampler) (burnin sample thin : nat)
  (w : nat -> nat -> num) (z : nat -> nat -> nat -> num) :
  BK.W s = Some w -> BK.Z_ s = Some z ->
  let w' := BK.normalize_columns s (BK.nmf_rows s w) in
  let aw' := BK.dot_AW s w' in
  let z' :=
    if Nat.eqb (BK.M s) 0 || Nat.eqb (BK.N s) 0 then z
    else iter_range (BK.M s)
           (fun j => iter_range (BK.N s)
                       (fun i => BK.mean_Z_cell s w' aw' j i)) z in
  BK.gibbs burnin sample thin true s
  = Ok {| BK.M := BK.M s; BK.N := BK.N s; BK.K := BK.K s;
          BK.BKexpr := BK.BKexpr s; BK.iMarkers := BK.iMarkers s;
          BK.BKrd := BK.BKrd s; BK.A := BK.A s; BK.alpha := BK.alpha s;
          BK.Z_ := Some z'; BK.W := Some w'; BK.AW := Some aw';
          BK.suff_stats := Some (BK.accumulate s z' w' 1 BK.zero_stats);
          BK.gen := BK.gen s |}.
Proof.
  intros Hw Hz. destruct s; simpl in Hw, Hz; subst. cbv zeta.
  unfold BK.gibbs, BK.get_nmf_W, BK.draw_Z_mean, BK.update_suffStats.
  simpl.
  match goal with
  | |- context [Nat.eqb ?m 0 || Nat.eqb ?n 0] =>
      destruct (Nat.eqb m 0 || Nat.eqb n 0); reflexivity
  end.
Qed.

(** C6: whatever [burnin], [sample] and [thin] are, [gibbs] with
    [mean_approx=true] is [init_suffStats], then one [get_nmf_W], one
    [draw_Z_mean] and one [update_suffStats(1)]: [W] becomes the
    normalised multiplicative update of the [W] found at entry, [Z] its
    expected allocation, the statistics those of that single state, and
    the random generator is left as it was. *)
Theorem bk_gibbs_mean_approx (s : BK.sampler) (burnin sample thin : nat) :
  BK.gibbs burnin sample thin true s
  = (s1 <- BK.get_nmf_W (BK.init_suffStats s) ;;
     s2 <- BK.draw_Z_mean s1 ;;
     BK.update_suffStats 1 s2)
  /\ (forall burnin' sample' thin',
        BK.gibbs burnin' sample' thin' true s
        = BK.gibbs burnin sample thin true s)
  /\ (forall w z,
        BK.W s = Some w -> BK.Z_ s = Some z ->
        exists s' z',
          BK.gibbs burnin sample thin true s = Ok s'
          /\ BK.W s'
             = Some (BK.normalize_columns s (BK.nmf_rows s w))
          /\ BK.Z_ s' = Some z'
          /\ z' = (if Nat.eqb (BK.M s) 0 || Nat.eqb (BK.N s) 0 then z
                   else iter_range (BK.M s)
                          (fun j =>
                             iter_range (BK.N s)
                               (fun i =>
                                  BK.mean_Z_cell s
                                    (BK.W_of s') (BK.dot_AW s (BK.W_of s'))
                                    j i)) z)
          /\ BK.suff_stats s'
             = Some (BK.accumulate s z' (BK.W_of s') 1 BK.zero_stats)
          /\ BK.gen s' = BK.gen s).
Proof.
  split; [reflexivity|]. split; [reflexivity|].
  intros w z Hw Hz. eexists. eexists.
  split; [apply (gibbs_mean_result s burnin sample thin Hw Hz)|].
  cbn [BK.W BK.Z_ BK.suff_stats BK.gen]. unfold BK.W_of. cbn [BK.W].
  repeat split.
Qed.

Lemma nmul_comm (x y : num) : x * y = y * x.
Proof. destruct x, y; simpl; try reflexivity. f_equal. ring. Qed.

(** the loops of [draw_Z_mean] fill every cell with its expectation *)
Lemma mean_cells (s : BK.sampler) (w aw : nat -> nat -> num)
  (z : nat -> nat -> nat -> num) :
  forall j i, (j < BK.M s)%nat -> (i < BK.N s)%nat ->
  forall k,
    iter_range (BK.M s)
      (fun j' => iter_range (BK.N s)
                   (fun i' => BK.mean_Z_cell s w aw j' i')) z j i k
    = w k j * BK.A s i k * of_Z (BK.BKexpr s j i) / aw i j.
Proof.
  set (F := fun j i k =>
              w k j * BK.A s i k * of_Z (BK.BKexpr s j i) / aw i j).
  apply (iter_range_inv
           (fun (m : nat) (z' : nat -> nat -> nat -> num) =>
              forall j i, (j < m)%nat -> (i < BK.N s)%nat ->
                forall k, z' j i k = F j i k)).
  - intros j i Hj. lia.
  - intros m a _ Hdone.
    assert (Hin :
      (forall j i, (j < m)%nat -> (i < BK.N s)%nat ->
         forall k,
           iter_range (BK.N s) (fun i' => BK.mean_Z_cell s w aw m i') a
             j i k = F j i k)
      /\ (forall i, (i < BK.N s)%nat ->
            forall k,
              iter_range (BK.N s) (fun i' => BK.mean_Z_cell s w aw m i') a
                m i k = F m i k)).
    { apply (iter_range_inv
               (fun (n : nat) (z' : nat -> nat -> nat -> num) =>
                  (forall j i, (j < m)%nat -> (i < BK.N s)%nat ->
                     forall k, z' j i k = F j i k)
                  /\ (forall i, (i < n)%nat ->
                        forall k, z' m i k = F m i k))).
      - split; [exact Hdone|]. intros i Hi. lia.
      - intros n b _ [Hrows Hrow]. unfold BK.mean_Z_cell. split.
        + intros j i Hj Hi k.
          destruct (Nat.eqb_spec j m); [lia|]. cbn [andb].
          apply Hrows; assumption.
        + intros i Hi k. rewrite Nat.eqb_refl. cbn [andb].
          destruct (Nat.eqb_spec i n) as [->|Hne]; [reflexivity|].
          apply Hrow. lia. }
    destruct Hin as [Hrows Hrow]. intros j i Hj Hi k.
    destruct (Nat.eq_dec j m) as [->|Hne].
    + apply Hrow. assumption.
    + apply Hrows; [lia|assumption].
Qed.

(** the expected allocation of [b] reads sums to [b] *)
Lemma allocation_sum (n : nat) (a w : nat -> num) (b : Z) :
  nonzero (sum_n n (fun k => a k * w k)) ->
  sum_n n (fun k => w k * a k * of_Z b / sum_n n (fun k => a k * w k))
  = of_Z b.
Proof.
  intros (q & Hq & Hne). rewrite Hq.
  destruct (sum_n_finite n (fun k => a k * w k) Hq) as [Hall Hsum].
  set (v := fun k => val (a k * w k)) in *.
  rewrite (sum_n_Fin _
             (fun k => (v k * (Q2Qc (inject_Z b) / q))%Qc)).
  - rewrite qsum_mul_r, <- Hsum. unfold of_Z. f_equal. field. assumption.
  - intros k Hk. rewrite (nmul_comm (w k) (a k)), (Hall k Hk).
    unfold of_Z. fold (v k). cbn [nmul lift2].
    rewrite ndiv_Fin by assumption. f_equal. field. assumption.
Qed.

(** C7, as the code has it: [Z[j,i,:]] sums to [BKexpr[j,i]] and
    [W[:,j]] sums to 1 after a call of [gibbs] in the exact mode that
    runs at least one sweep (with at least one cell type), and after a
    call in the mean-approx mode when the column totals of the updated
    [W] and the entries of the new [AW] are non-zero numbers. *)
Theorem bk_gibbs_invariants (laws : RandomLaws lib) (s : BK.sampler)
  (burnin sample thin : nat) (mean_approx : bool)
  (w : nat -> nat -> num) (z : nat -> nat -> nat -> num) :
  BK.W s = Some w -> BK.Z_ s = Some z ->
  (if mean_approx then
     (forall j, (j < BK.M s)%nat ->
        nonzero (sum_n (BK.K s) (fun k => BK.nmf_rows s w k j)))
     /\ (forall i j, (i < BK.N s)%nat -> (j < BK.M s)%nat ->
           nonzero
             (BK.dot_AW s (BK.normalize_columns s (BK.nmf_rows s w)) i j))
   else (0 < BK.K s)%nat /\ (1 <= burnin + sample * thin)%nat) ->
  returns (BK.gibbs burnin sample thin mean_approx s)
    (fun s' => BK.allocates s' /\ BK.simplex s').
Proof.
  intros Hw Hz Hpre. destruct mean_approx.
  - destruct Hpre as [Hcol Haw].
    rewrite (gibbs_mean_result s burnin sample thin Hw Hz).
    apply returns_ok. split.
    + eexists. split; [reflexivity|]. cbn [BK.M BK.N BK.K BK.BKexpr].
      intros j i Hj Hi.
      destruct (Nat.eqb_spec (BK.M s) 0) as [H0|_]; [lia|].
      destruct (Nat.eqb_spec (BK.N s) 0) as [H0|_]; [lia|]. cbn [orb].
      rewrite (sum_n_ext _
                 (fun k =>
                    BK.normalize_columns s (BK.nmf_rows s w) k j
                    * BK.A s i k * of_Z (BK.BKexpr s j i)
                    / BK.dot_AW s
                        (BK.normalize_columns s (BK.nmf_rows s w)) i j)).
      * unfold BK.dot_AW at 1.
        apply (allocation_sum (BK.K s) (fun k => BK.A s i k)
                 (fun k => BK.normalize_columns s (BK.nmf_rows s w) k j)).
        apply (Haw i j Hi Hj).
      * intros k _. apply mean_cells; assumption.
    + eexists. split; [reflexivity|]. cbn [BK.M BK.K].
      intros j Hj. unfold BK.normalize_columns.
      apply (normalized_column (BK.K s) (fun k => BK.nmf_rows s w k j)).
      apply Hcol. assumption.
  - destruct Hpre as [HK Hn].
    assert (Hi : BK.initialised s) by (split; eauto).
    eapply returns_weaken;
      [apply (gibbs_exact_chain burnin sample thin Hi)|].
    cbv zeta. intros s' (Hs' & Hrun & _).
    destruct (burnin + sample * thin)%nat as [|m] eqn:En; [lia|].
    assert (I0 : BK.initialised (BK.init_suffStats s)) by exact Hi.
    pose proof (chain_sweeps m I0) as Hm.
    cbn [for_range] in Hrun.
    destruct (for_range m (fun _ => BK.gibbs_cycle) (BK.init_suffStats s))
      as [a|e]; [|discriminate].
    cbn [bind] in Hrun. simpl in Hm.
    destruct Hm as (_ & _ & Ia & Da & _).
    assert (Ka : (0 < BK.K a)%nat).
    { destruct Da as (_ & _ & HKa & _). rewrite HKa. exact HK. }
    pose proof (@returns_inv _ _ _ _ _
                  (gibbs_cycle_invariants laws Ka Ia) Hrun)
      as [Halloc Hsimp].
    subst s'. split; [exact Halloc|exact Hsimp].
Qed.

Lemma for_range_first_fails (St : Type) (body : nat -> St -> result St)
  (n : nat) (st : St) (e : error) :
  body O st = Err e -> for_range (S n) body st = Err e.
Proof.
  intros H. induction n as [|n IH].
  - simpl. exact H.
  - change (for_range (S (S n)) body st)
      with (st' <- for_range (S n) body st ;; body (S n) st').
    rewrite IH. reflexivity.
Qed.

(** C10: [gibbs] starts by zeroing the four accumulators in both modes,
    so what it returns does not depend on the statistics found at entry;
    it never re-initialises [W] and [Z]: with no sweep it returns them
    untouched, the exact mode continues the chain from them and the
    mean-approx mode updates the [W] found at entry; and without a [Z]
    (no [init_gibbs] yet) the first sweep of the exact mode fails. *)
Theorem bk_gibbs_resets_statistics (s : BK.sampler)
  (burnin sample thin : nat) :
  (forall o mode,
     BK.gibbs burnin sample thin mode (BK.set_stats o s)
     = BK.gibbs burnin sample thin mode s)
  /\ BK.suff_stats (BK.init_suffStats s) = Some BK.zero_stats
  /\ BK.gibbs 0 0 thin false s = Ok (BK.init_suffStats s)
  /\ (BK.initialised s ->
      let n := (burnin + sample * thin)%nat in
      let s0 := BK.init_suffStats s in
      returns (BK.gibbs burnin sample thin false s)
        (fun s' =>
           for_range n (fun _ => BK.gibbs_cycle) s0 = Ok (BK.sweeps n s0)
           /\ BK.W s' = BK.W (BK.sweeps n s0)
           /\ BK.Z_ s' = BK.Z_ (BK.sweeps n s0)))
  /\ (forall w z,
        BK.W s = Some w -> BK.Z_ s = Some z ->
        exists s',
          BK.gibbs burnin sample thin true s = Ok s'
          /\ BK.W s' = Some (BK.normalize_columns s (BK.nmf_rows s w)))
  /\ (BK.Z_ s = None -> (1 <= burnin + sample * thin)%nat ->
      BK.gibbs burnin sample thin false s = Err AttributeError)
  /\ (BK.W s = None ->
      BK.gibbs burnin sample thin true s = Err AttributeError).
Proof.
  split; [intros o mode; reflexivity|].
  split; [reflexivity|]. split; [reflexivity|]. split; [|split; [|split]].
  - intros Hi n s0.
    eapply returns_weaken;
      [apply (gibbs_exact_chain burnin sample thin Hi)|].
    cbv zeta. intros s' (Hs' & Hrun & _). split; [exact Hrun|].
    subst s'. split; reflexivity.
  - intros w z Hw Hz. eexists.
    split; [apply (gibbs_mean_result s burnin sample thin Hw Hz)|].
    reflexivity.
  - intros Hz Hn.
    assert (Hc : BK.gibbs_cycle (BK.init_suffStats s) = Err AttributeError).
    { unfold BK.gibbs_cycle, BK.draw_W.
      cbn [BK.init_suffStats BK.with_stats BK.Z_]. rewrite Hz. reflexivity. }
    unfold BK.gibbs. destruct burnin as [|b].
    + cbn [for_range bind]. cbn [Nat.add] in Hn.
      destruct (sample * thin)%nat as [|m]; [lia|].
      apply for_range_first_fails. unfold BK.sampling_step.
      rewrite Hc. reflexivity.
    + rewrite (for_range_first_fails (fun _ => BK.gibbs_cycle) b _ Hc).
      reflexivity.
  - intros Hw. unfold BK.gibbs, BK.get_nmf_W.
    cbn [BK.init_suffStats BK.with_stats BK.W]. rewrite Hw. reflexivity.
Qed.

End BulkFacts.

(** ** Parameter arrays are copied *)

Section HeapFacts.
Context {lib : Library}.

Lemma read_alloc_new (h : Heap.heap) (a : Heap.array) :
  Heap.read (h ++ [a]) (length h) = Some a.
Proof.
  unfold Heap.read. rewrite nth_error_app2 by lia.
  rewrite Nat.sub_diag. reflexivity.
Qed.

Lemma read_alloc_old (h : Heap.heap) (a : Heap.array) (l : Heap.loc) :
  (l < length h)%nat -> Heap.read (h ++ [a]) l = Heap.read h l.
Proof. intros H. unfold Heap.read. apply nth_error_app1. assumption. Qed.

Lemma write_length (h : Heap.heap) (l : Heap.loc) (a : Heap.array) :
  length (Heap.write h l a) = length h.
Proof.
  revert l. induction h as [|x t IH]; intros l; [reflexivity|].
  destruct l; simpl; [reflexivity|]. rewrite IH. reflexivity.
Qed.

Lemma read_write_other (h : Heap.heap) (l l' : Heap.loc) (a : Heap.array) :
  l <> l' -> Heap.read (Heap.write h l a) l' = Heap.read h l'.
Proof.
  revert l l'. induction h as [|x t IH]; intros l l' Hne; [reflexivity|].
  destruct l, l'; simpl; try reflexivity; [contradiction|].
  apply IH. intros H. apply Hne. f_equal. assumption.
Qed.

Lemma read_writes_other (ws : list (Heap.loc * Heap.array))
  (h : Heap.heap) (l' : Heap.loc) :
  (forall x, In x ws -> fst x <> l') ->
  Heap.read (Heap.writes h ws) l' = Heap.read h l'.
Proof.
  unfold Heap.writes. revert h.
  induction ws as [|[l a] rest IH]; intros h H; [reflexivity|].
  simpl. rewrite IH by (intros x Hx; apply H; right; assumption).
  apply read_write_other. apply (H (l, a)). left. reflexivity.
Qed.

(** C8: [update_parameters(A, alpha)] makes [self.A] and [self.alpha]
    fresh copies of its arguments, so that no later write of the caller
    into an array it holds changes what the sampler sees, and leaves [W],
    [Z], [AW] and the accumulators as they were. *)
Theorem bk_update_parameters_copies (h : Heap.heap) (o : Heap.object)
  (A alpha : Heap.loc) (a : nat -> nat -> num) (al : nat -> num) :
  Heap.read h A = Some (Heap.Arr2 a) ->
  Heap.read h alpha = Some (Heap.Arr1 al) ->
  exists h' o',
    Heap.update_parameters h o A alpha = Some (h', o')
    /\ Heap.view h' o' = Some (BK.update_parameters a al (Heap.body o))
    /\ (forall v0 v1,
          Heap.view h o = Some v0 -> Heap.view h' o' = Some v1 ->
          BK.A v1 = a /\ BK.alpha v1 = al
          /\ BK.W v1 = BK.W v0 /\ BK.Z_ v1 = BK.Z_ v0
          /\ BK.AW v1 = BK.AW v0
          /\ BK.suff_stats v1 = BK.suff_stats v0
          /\ BK.gen v1 = BK.gen v0)
    /\ (forall l, (l < length h)%nat -> Heap.read h' l = Heap.read h l)
    /\ (forall ws,
          (forall x, In x ws -> (fst x < length h)%nat) ->
          Heap.view (Heap.writes h' ws) o' = Heap.view h' o').
Proof.
  intros HA Hal.
  assert (LA : (A < length h)%nat).
  { apply nth_error_Some. unfold Heap.read in HA. rewrite HA. discriminate. }
  assert (Lal : (alpha < length h)%nat).
  { apply nth_error_Some. unfold Heap.read in Hal. rewrite Hal.
    discriminate. }
  unfold Heap.update_parameters, Heap.np_array_copy, Heap.alloc.
  rewrite HA. rewrite (read_alloc_old h _ Lal), Hal.
  eexists. eexists. split; [reflexivity|].
  assert (R1 : Heap.read ((h ++ [Heap.Arr2 a]) ++ [Heap.Arr1 al]) (length h)
               = Some (Heap.Arr2 a)).
  { rewrite read_alloc_old by (rewrite length_app; simpl; lia).
    apply read_alloc_new. }
  assert (R2 : Heap.read ((h ++ [Heap.Arr2 a]) ++ [Heap.Arr1 al])
                 (length (h ++ [Heap.Arr2 a]))
               = Some (Heap.Arr1 al)) by apply read_alloc_new.
  assert (V : Heap.view ((h ++ [Heap.Arr2 a]) ++ [Heap.Arr1 al])
                {| Heap.ref_A := length h;
                   Heap.ref_alpha := length (h ++ [Heap.Arr2 a]);
                   Heap.body := Heap.body o |}
              = Some (BK.update_parameters a al (Heap.body o))).
  { unfold Heap.view. cbn [Heap.ref_A Heap.ref_alpha Heap.body].
    rewrite R1, R2. reflexivity. }
  split; [exact V|]. split; [|split].
  - intros v0 v1 H0 H1. rewrite V in H1. inversion H1; subst v1.
    unfold Heap.view in H0.
    destruct (Heap.read h (Heap.ref_A o)) as [[?|a0]|]; try discriminate.
    destruct (Heap.read h (Heap.ref_alpha o)) as [[al0|?]|];
      try discriminate.
    inversion H0; subst v0. repeat split.
  - intros l Hl. rewrite !read_alloc_old; [reflexivity|assumption|].
    rewrite length_app. simpl. lia.
  - intros ws Hws. unfold Heap.view.
    cbn [Heap.ref_A Heap.ref_alpha Heap.body].
    rewrite !read_writes_other; [reflexivity| |];
      intros x Hx; specialize (Hws x Hx); rewrite ?length_app; simpl;
      unfold Heap.loc in *; lia.
Qed.

End HeapFacts.

(** ** The deterministic library meets the laws; concrete runs *)

Lemma sum_point_mass (K : nat) : (0 < K)%nat -> sum_n K point_mass = 1.
Proof.
  destruct K as [|n]; [lia|]. intros _.
  induction n as [|n IH].
  - simpl; f_equal; ring.
  - change (sum_n (S (S n)) point_mass)
      with (sum_n (S n) point_mass + point_mass (S n)).
    rewrite IH. simpl; f_equal; ring.
Qed.

Lemma zsum_first (K : nat) (n : Z) :
  (0 < K)%nat -> zsum K (fun k => if Nat.eqb k 0 then n else 0%Z) = n.
Proof.
  destruct K as [|m]; [lia|]. intros _.
  induction m as [|m IH].
  - simpl. lia.
  - change (zsum (S (S m)) (fun k => if Nat.eqb k 0 then n else 0%Z))
      with (zsum (S m) (fun k => if Nat.eqb k 0 then n else 0%Z) + 0)%Z.
    rewrite IH. lia.
Qed.

#[export] Instance det_laws : RandomLaws det_lib.
Proof.
  constructor.
  - intros K a g v g' HK H. inversion H; subst. apply sum_point_mass, HK.
  - intros K n p g c g' HK H. inversion H; subst. apply zsum_first, HK.
Qed.

Lemma bk_ready_init : BK.init_gibbs bk_example = Ok bk_ready.
Proof. reflexivity. Qed.

Lemma bk_gibbs_exact_mean_witness :
  BK.retained 3 2 = map (fun t => (t * 2)%nat) (seq 0 3).
Proof.
  destruct (@bk_gibbs_exact_mean det_lib bk_ready 1 3 2) as [H _].
  - split; eexists; reflexivity.
  - lia.
  - lia.
  - exact H.
Defined.

Lemma bk_gibbs_mean_approx_witness :
  exists s',
    BK.gibbs 100 100 1 true bk_ready = Ok s'
    /\ BK.W s'
       = Some (BK.normalize_columns bk_ready
                 (BK.nmf_rows bk_ready (fun _ _ => 1 / of_nat 2))).
Proof.
  destruct (@bk_gibbs_mean_approx det_lib bk_ready 100 100 1)
    as (_ & _ & H).
  destruct (H _ _ eq_refl eq_refl) as (s' & z' & R & HW & _).
  exists s'. split; assumption.
Defined.

Lemma bk_gibbs_invariants_witness :
  returns (BK.gibbs 1 2 1 false bk_ready)
    (fun s' => BK.allocates s' /\ BK.simplex s').
Proof.
  apply (@bk_gibbs_invariants det_lib det_laws bk_ready 1 2 1 false
           _ _ eq_refl eq_refl).
  simpl. lia.
Defined.

(** C7 as it is stated fails: on the bulk scenario the mean-approx mode
    returns a [Z] whose row for gene 1 is not a number ([AW[1,0]] is zero
    once [W] is [[1, 0]]), and the exact mode with no sweep returns the
    zero [Z] of [init_gibbs]. *)
Lemma bk_gibbs_invariants_counterexample :
  (exists s',
     BK.gibbs 100 100 1 true bk_ready = Ok s'
     /\ sum_n 2 (fun k => BK.Z_of s' 0 1 k) = NaN
     /\ ~ BK.allocates s')
  /\ (exists s',
        BK.gibbs 0 0 1 false bk_ready = Ok s'
        /\ sum_n 2 (fun k => BK.Z_of s' 0 0 k) = 0
        /\ ~ BK.allocates s').
Proof.
  split.
  - eexists. split; [reflexivity|]. split; [vm_compute; reflexivity|].
    intros (z & Hz & H). inversion Hz; subst z.
    specialize (H O 1%nat). vm_compute in H.
    assert (E : NaN = of_Z 0) by (apply H; lia). discriminate E.
  - eexists. split; [reflexivity|]. split; [vm_compute; reflexivity|].
    intros (z & Hz & H). inversion Hz; subst z.
    specialize (H O O). vm_compute in H.
    assert (E : 0 = of_Z 10) by (apply H; lia).
    inversion E.
Qed.

Lemma bk_update_parameters_copies_witness :
  exists h' o',
    Heap.update_parameters bk_heap bk_object 0%nat 1%nat = Some (h', o')
    /\ forall ws,
         (forall x, In x ws -> (fst x < length bk_heap)%nat) ->
         Heap.view (Heap.writes h' ws) o' = Heap.view h' o'.
Proof.
  destruct (@bk_update_parameters_copies det_lib bk_heap bk_object 0%nat 1%nat
              bk_A (fun _ => 1) eq_refl eq_refl)
    as (h' & o' & R & _ & _ & _ & H).
  exists h', o'. split; assumption.
Defined.



Lemma bk_gibbs_resets_statistics_witness :
  BK.gibbs 1 0 1 false bk_example = Err AttributeError.
Proof.
  destruct (@bk_gibbs_resets_statistics det_lib bk_example 1 0 1)
    as (_ & _ & _ & _ & _ & H & _).
  apply H; [reflexivity|simpl; lia].
Defined.

(** ** Further properties of the bulk sampler *)

Unset Implicit Arguments.

Section BulkExtra.
Context {lib : Library}.

Lemma set_markers_index_error (s : BK.sampler) (mk : list (nat * nat)) :
  (exists i k, In (i, k) mk /\ ((BK.N s <= i)%nat \/ (BK.K s <= k)%nat)) ->
  forall z, BK.set_markers s z mk = Err IndexError.
Proof.
  induction mk as [|[i0 k0] rest IH]; intros (i & k & Hin & Hbad) z.
  - contradiction.
  - cbn [BK.set_markers]. unfold BK.set_marker.
    destruct (Nat.ltb_spec i0 (BK.N s)) as [Hi|Hi]; [|reflexivity].
    destruct (Nat.ltb_spec k0 (BK.K s)) as [Hk|Hk]; [|reflexivity].
    cbn [andb bind]. apply IH. exists i, k. split; [|assumption].
    destruct Hin as [E|Hin]; [|assumption]. inversion E; subst. lia.
Qed.

Lemma set_markers_ok_inv (s : BK.sampler) (mk : list (nat * nat)) :
  forall z z',
    BK.set_markers s z mk = Ok z' ->
    forall i k, In (i, k) mk -> (i < BK.N s)%nat /\ (k < BK.K s)%nat.
Proof.
  induction mk as [|[i0 k0] rest IH]; intros z z' Hrun i k Hin.
  - contradiction.
  - cbn [BK.set_markers] in Hrun. unfold BK.set_marker in Hrun.
    destruct (Nat.ltb_spec i0 (BK.N s)) as [Hi|Hi]; [|discriminate].
    destruct (Nat.ltb_spec k0 (BK.K s)) as [Hk|Hk]; [|discriminate].
    cbn [andb bind] in Hrun. destruct Hin as [E|Hin].
    + inversion E; subst. split; assumption.
    + eapply IH; eassumption.
Qed.

(** X1: [init_gibbs] raises [IndexError] as soon as one marker lies
    outside the arrays, [ZeroDivisionError] without markers when there is
    no cell type, and returns in every other case. *)
Theorem bk_init_gibbs_errors (s : BK.sampler) :
  (forall mk,
     BK.iMarkers s = Some mk ->
     (exists i k,
        In (i, k) mk /\ ((BK.N s <= i)%nat \/ (BK.K s <= k)%nat)) ->
     BK.init_gibbs s = Err IndexError)
  /\ (BK.iMarkers s = None -> BK.K s = O ->
      BK.init_gibbs s = Err ZeroDivisionError)
  /\ ((exists s', BK.init_gibbs s = Ok s')
      <-> match BK.iMarkers s with
          | Some mk =>
              forall i k, In (i, k) mk ->
                (i < BK.N s)%nat /\ (k < BK.K s)%nat
          | None => (0 < BK.K s)%nat
          end).
Proof.
  split; [|split].
  - intros mk Hm Hbad. unfold BK.init_gibbs. rewrite Hm.
    rewrite (set_markers_index_error s mk Hbad). reflexivity.
  - intros Hm HK. unfold BK.init_gibbs. rewrite Hm, HK. reflexivity.
  - unfold BK.init_gibbs. destruct (BK.iMarkers s) as [mk|].
    + split.
      * intros [s' Hrun].
        destruct (BK.set_markers s (fun _ _ _ => 0) mk) as [z|e] eqn:E;
          [|discriminate].
        apply (set_markers_ok_inv s mk _ _ E).
      * intros Hrange.
        destruct (set_markers_spec s mk Hrange (fun _ _ _ => 0))
          as (z & Hrun & _).
        rewrite Hrun. eexists. reflexivity.
    + destruct (Nat.eqb_spec (BK.K s) 0) as [H0|Hne]; split.
      * intros [s' H]. discriminate.
      * lia.
      * intros _. lia.
      * intros _. eexists. reflexivity.
Qed.

(** the rows of [get_nmf_W] are updated one by one, each from its own
    entry value and from the [AW] computed before the loop *)
Lemma nmf_rows_spec (s : BK.sampler) (w : nat -> nat -> num) (k j : nat) :
  BK.nmf_rows s w k j
  = if (k <? BK.K s)%nat then BK.nmf_value s w k j else w k j.
Proof.
  unfold BK.nmf_rows.
  assert (H : forall m,
             forall k j,
               iter_range m (BK.nmf_row s (BK.dot_AW s w)) w k j
               = if (k <? m)%nat then BK.nmf_value s w k j else w k j).
  { induction m as [|m IH]; intros k' j'; [reflexivity|].
    cbn [iter_range]. unfold BK.nmf_row at 1.
    destruct (Nat.eqb_spec k' m) as [->|Hne].
    - rewrite IH. rewrite Nat.ltb_irrefl.
      destruct (Nat.ltb_spec m (S m)); [reflexivity|lia].
    - rewrite IH.
      destruct (Nat.ltb_spec k' m), (Nat.ltb_spec k' (S m));
        try reflexivity; lia. }
  apply H.
Qed.

(** X2: [get_nmf_W] needs [W]; it sets [AW] to [A.W] for the [W] found at
    entry and every [W[k,j]] to its multiplicative update
    [W[k,j] * sum_i (BKexpr[j,i]*A[i,k]/AW[i,j]) + alpha[k] - 1] divided
    by the total of these updates over the column; all rows use the entry
    [W] and the same [AW]. *)
Theorem bk_get_nmf_W_update (s : BK.sampler) :
  (BK.W s = None -> BK.get_nmf_W s = Err AttributeError)
  /\ (forall w,
        BK.W s = Some w ->
        exists s' w',
          BK.get_nmf_W s = Ok s'
          /\ BK.W s' = Some w' /\ BK.AW s' = Some (BK.dot_AW s w)
          /\ BK.Z_ s' = BK.Z_ s /\ BK.suff_stats s' = BK.suff_stats s
          /\ BK.gen s' = BK.gen s
          /\ forall k j, (k < BK.K s)%nat ->
               w' k j
               = BK.nmf_value s w k j
                 / sum_n (BK.K s) (fun k' => BK.nmf_value s w k' j)).
Proof.
  split.
  - intros Hw. unfold BK.get_nmf_W. rewrite Hw. reflexivity.
  - intros w Hw. unfold BK.get_nmf_W. rewrite Hw. cbn [attr bind].
    eexists. eexists. split; [reflexivity|]. split; [reflexivity|].
    split; [reflexivity|]. split; [reflexivity|]. split; [reflexivity|].
    split; [reflexivity|].
    intros k j Hk. unfold BK.normalize_columns. cbn [BK.K BK.with_AW].
    fold (BK.nmf_rows s w). rewrite nmf_rows_spec.
    destruct (Nat.ltb_spec k (BK.K s)); [|lia]. f_equal.
    apply sum_n_ext. intros k' Hk'. rewrite nmf_rows_spec.
    destruct (Nat.ltb_spec k' (BK.K s)); [reflexivity|lia].
Qed.

(** X3: [draw_Z_mean] needs [W], and [Z] unless a dimension is zero; it
    refreshes [AW = A.W], leaves [W] alone and sets every [Z[j,i,k]] to
    [W[k,j]*A[i,k]*BKexpr[j,i]/AW[i,j]]. *)
Theorem bk_draw_Z_mean_cells (s : BK.sampler) :
  (BK.W s = None -> BK.draw_Z_mean s = Err AttributeError)
  /\ (forall w,
        BK.W s = Some w -> BK.Z_ s = None ->
        (BK.M s = O \/ BK.N s = O ->
         BK.draw_Z_mean s = Ok (BK.with_AW s (BK.dot_AW s w)))
        /\ ((0 < BK.M s)%nat -> (0 < BK.N s)%nat ->
            BK.draw_Z_mean s = Err AttributeError))
  /\ (forall w z,
        BK.W s = Some w -> BK.Z_ s = Some z ->
        exists s' z',
          BK.draw_Z_mean s = Ok s'
          /\ BK.W s' = Some w /\ BK.AW s' = Some (BK.dot_AW s w)
          /\ BK.Z_ s' = Some z'
          /\ BK.suff_stats s' = BK.suff_stats s /\ BK.gen s' = BK.gen s
          /\ forall j i k, (j < BK.M s)%nat -> (i < BK.N s)%nat ->
               z' j i k
               = w k j * BK.A s i k * of_Z (BK.BKexpr s j i)
                 / BK.dot_AW s w i j).
Proof.
  split; [|split].
  - intros Hw. unfold BK.draw_Z_mean. rewrite Hw. reflexivity.
  - intros w Hw Hz. unfold BK.draw_Z_mean. rewrite Hw, Hz.
    cbn [attr bind]. split.
    + intros [H|H]; rewrite H; [reflexivity|].
      rewrite orb_true_r. reflexivity.
    + intros HM HN.
      destruct (Nat.eqb_spec (BK.M s) 0); [lia|].
      destruct (Nat.eqb_spec (BK.N s) 0); [lia|]. reflexivity.
  - intros w z Hw Hz. unfold BK.draw_Z_mean. rewrite Hw, Hz.
    cbn [attr bind].
    destruct (Nat.eqb (BK.M s) 0 || Nat.eqb (BK.N s) 0) eqn:Hdim.
    + exists (BK.with_AW s (BK.dot_AW s w)), z.
      split; [reflexivity|]. cbn [BK.W BK.AW BK.Z_ BK.with_AW
        BK.suff_stats BK.gen].
      repeat (split; [first [assumption|reflexivity]|]).
      intros j i k Hj Hi. apply orb_true_iff in Hdim.
      destruct Hdim as [H|H]; apply Nat.eqb_eq in H; lia.
    + eexists. eexists. split; [reflexivity|].
      cbn [BK.W BK.AW BK.Z_ BK.with_AW BK.with_Z BK.suff_stats BK.gen].
      repeat (split; [first [assumption|reflexivity]|]).
      intros j i k Hj Hi. apply mean_cells; assumption.
Qed.

Lemma draw_W_draws (s : BK.sampler) (w : nat -> nat -> num)
  (z : nat -> nat -> nat -> num) :
  BK.W s = Some w -> BK.Z_ s = Some z ->
  returns (BK.draw_W s)
    (fun s' =>
       BK.same_data s s' /\ BK.suff_stats s' = BK.suff_stats s
       /\ BK.Z_ s' = Some z
       /\ exists w',
            BK.W s' = Some w' /\ BK.AW s' = Some (BK.dot_AW s w')
            /\ forall j, (j < BK.M s)%nat ->
                 exists g r,
                   dirichlet (BK.K s)
                     (fun k => BK.alpha s k + BK.Z_sum_genes s z j k) g
                   = Some r
                   /\ forall k, w' k j = fst r k).
Proof.
  intros Hw Hz. unfold BK.draw_W. rewrite Hz, Hw. cbn [attr bind].
  eapply returns_bind.
  - apply (@returns_for_range _ _
             (fun (m : nat) (wg : (nat -> nat -> num) * rng) =>
                forall j, (j < m)%nat ->
                  exists g r,
                    dirichlet (BK.K s)
                      (fun k => BK.alpha s k + BK.Z_sum_genes s z j k) g
                    = Some r
                    /\ forall k, fst wg k j = fst r k)).
    + intros j Hj. lia.
    + intros m [a ga] _ Hdone. unfold BK.draw_W_col.
      eapply returns_bind.
      * lib_draw. intros r Hr. exact Hr.
      * intros r Hr. apply returns_ok. cbn [fst snd].
        intros j Hj. destruct (Nat.eqb_spec j m) as [->|Hne].
        -- exists ga, r. split; [exact Hr|]. intros k. reflexivity.
        -- apply Hdone. lia.
  - intros [w' g'] Hcols. apply returns_ok. cbn [fst snd] in *.
    split; [repeat split|]. split; [reflexivity|]. split; [assumption|].
    exists w'. split; [reflexivity|]. split; [reflexivity|]. exact Hcols.
Qed.

Lemma draw_Z_draws (s : BK.sampler) (w aw : nat -> nat -> num)
  (z : nat -> nat -> nat -> num) :
  BK.W s = Some w -> BK.AW s = Some aw -> BK.Z_ s = Some z ->
  returns (BK.draw_Z s)
    (fun s' =>
       BK.same_data s s' /\ BK.suff_stats s' = BK.suff_stats s
       /\ BK.W s' = Some w /\ BK.AW s' = Some aw
       /\ exists z',
            BK.Z_ s' = Some z'
            /\ forall j i, (j < BK.M s)%nat -> (i < BK.N s)%nat ->
                 exists g r,
                   multinomial (BK.K s) (BK.BKexpr s j i)
                     (BK.pvals s w aw j i) g = Some r
                   /\ forall k, z' j i k = of_Z (fst r k)).
Proof.
  intros Hw Haw Hz. unfold BK.draw_Z.
  destruct (Nat.eqb (BK.M s) 0 || Nat.eqb (BK.N s) 0) eqn:Hdim.
  - apply returns_ok. split; [repeat split|].
    repeat (split; [first [assumption|reflexivity]|]).
    exists z. split; [assumption|]. intros j i Hj Hi.
    apply orb_true_iff in Hdim.
    destruct Hdim as [H|H]; apply Nat.eqb_eq in H; lia.
  - rewrite Hw, Haw, Hz. cbn [attr bind]. eapply returns_bind.
    + apply (@returns_for_range _ _
               (fun (m : nat) (zg : (nat -> nat -> nat -> num) * rng) =>
                  forall j i, (j < m)%nat -> (i < BK.N s)%nat ->
                    exists g r,
                      multinomial (BK.K s) (BK.BKexpr s j i)
                        (BK.pvals s w aw j i) g = Some r
                      /\ forall k, fst zg j i k = of_Z (fst r k))).
      * intros j i Hj. lia.
      * intros m a _ Hdone.
        eapply returns_weaken.
        -- apply (@returns_for_range _ _
                    (fun (n : nat) (zg : (nat -> nat -> nat -> num) * rng) =>
                       (forall j i, (j < m)%nat -> (i < BK.N s)%nat ->
                          exists g r,
                            multinomial (BK.K s) (BK.BKexpr s j i)
                              (BK.pvals s w aw j i) g = Some r
                            /\ forall k, fst zg j i k = of_Z (fst r k))
                       /\ (forall i, (i < n)%nat ->
                             exists g r,
                               multinomial (BK.K s) (BK.BKexpr s m i)
                                 (BK.pvals s w aw m i) g = Some r
                               /\ forall k,
                                    fst zg m i k = of_Z (fst r k)))).
           ++ split; [exact Hdone|]. intros i Hi. lia.
           ++ intros n [b gb] _ [Hrows Hrow]. unfold BK.draw_Z_cell.
              eapply returns_bind.
              ** lib_draw. intros r Hr. exact Hr.
              ** intros r Hr. apply returns_ok. cbn [fst snd] in *.
                 split.
                 --- intros j i Hj Hi.
                     destruct (Hrows j i Hj Hi) as (g & r0 & Hd & Hv).
                     exists g, r0. split; [exact Hd|]. intros k.
                     destruct (Nat.eqb_spec j m); [lia|]. cbn [andb].
                     apply Hv.
                 --- intros i Hi.
                     destruct (Nat.eq_dec i n) as [->|Hne].
                     +++ exists gb, r. split; [exact Hr|]. intros k.
                         rewrite !Nat.eqb_refl. reflexivity.
                     +++ destruct (Hrow i) as (g & r0 & Hd & Hv); [lia|].
                         exists g, r0. split; [exact Hd|]. intros k.
                         rewrite Nat.eqb_refl.
                         destruct (Nat.eqb_spec i n); [contradiction|].
                         cbn [andb]. apply Hv.
        -- intros zg [Hrows Hrow] j i Hj Hi.
           destruct (Nat.eq_dec j m) as [->|Hne].
           ++ apply Hrow. assumption.
           ++ apply Hrows; [lia|assumption].
    + intros [z' g'] Hall. apply returns_ok. cbn [fst snd] in *.
      split; [repeat split|].
      repeat (split; [first [assumption|reflexivity]|]).
      exists z'. split; [reflexivity|]. exact Hall.
Qed.

(** X4: a sweep draws [W] before [Z]: column [j] of the new [W] is a
    Dirichlet draw of parameter [alpha + sum_i Z[j,i,:]] for the [Z] found
    at entry, [AW] becomes [A.W] for the new [W], and every new
    [Z[j,i,:]] is a multinomial draw of [BKexpr[j,i]] trials with
    probabilities [W[:,j]*A[i,:]/AW[i,j]] for the new [W]. *)
Theorem bk_gibbs_cycle_draws (s : BK.sampler) (w : nat -> nat -> num)
  (z : nat -> nat -> nat -> num) :
  BK.W s = Some w -> BK.Z_ s = Some z ->
  returns (BK.gibbs_cycle s)
    (fun s' =>
       BK.same_data s s' /\ BK.suff_stats s' = BK.suff_stats s
       /\ exists w' z',
            BK.W s' = Some w' /\ BK.Z_ s' = Some z'
            /\ BK.AW s' = Some (BK.dot_AW s w')
            /\ (forall j, (j < BK.M s)%nat ->
                  exists g r,
                    dirichlet (BK.K s)
                      (fun k => BK.alpha s k + BK.Z_sum_genes s z j k) g
                    = Some r
                    /\ forall k, w' k j = fst r k)
            /\ (forall j i, (j < BK.M s)%nat -> (i < BK.N s)%nat ->
                  exists g r,
                    multinomial (BK.K s) (BK.BKexpr s j i)
                      (BK.pvals s w' (BK.dot_AW s w') j i) g = Some r
                    /\ forall k, z' j i k = of_Z (fst r k))).
Proof.
  intros Hw Hz. unfold BK.gibbs_cycle.
  eapply returns_bind; [apply (draw_W_draws s w z Hw Hz)|].
  intros s1 (D1 & T1 & Z1 & w' & W1 & AW1 & Hcols).
  eapply returns_weaken;
    [apply (draw_Z_draws s1 w' (BK.dot_AW s w') z W1 AW1 Z1)|].
  intros s2 (D2 & T2 & W2 & AW2 & z' & Z2 & Hcells).
  split; [eauto using bk_same_data_trans|]. split; [congruence|].
  exists w', z'. repeat (split; [assumption|]).
  destruct D1 as (HM & HN & HK & HB & HA & _).
  unfold BK.pvals in *. rewrite HM, HN, HK, HB, HA in Hcells.
  exact Hcells.
Qed.

Lemma nmul_one_r (x : num) : x * of_Z 1 = x.
Proof.
  destruct x as [a|]; [|reflexivity]. unfold of_Z, nmul, lift2. f_equal.
  change (Q2Qc (inject_Z 1)) with 1%Qc. ring.
Qed.

(** X5: the probabilities a sweep hands to the multinomial draw sum to 1
    whenever the cached [AW[i,j] = sum_k A[i,k]*W[k,j]] is a non-zero
    number. *)
Theorem bk_pvals_normalised (s : BK.sampler) (w : nat -> nat -> num)
  (j i : nat) :
  nonzero (BK.dot_AW s w i j) ->
  sum_n (BK.K s) (BK.pvals s w (BK.dot_AW s w) j i) = 1.
Proof.
  intros Hnz. unfold BK.pvals.
  rewrite (@sum_n_ext (BK.K s) _
             (fun k => w k j * BK.A s i k * of_Z 1 / BK.dot_AW s w i j)).
  - unfold BK.dot_AW in *.
    apply (@allocation_sum (BK.K s) (fun k => BK.A s i k)
             (fun k => w k j) 1%Z Hnz).
  - intros k _. rewrite nmul_one_r. reflexivity.
Qed.

(** the last sweep of a run of the exact mode *)
Lemma gibbs_exact_last_sweep (s : BK.sampler) (burnin sample thin : nat) :
  BK.initialised s -> (1 <= burnin + sample * thin)%nat ->
  returns (BK.gibbs burnin sample thin false s)
    (fun s' =>
       exists a b,
         BK.initialised a /\ BK.same_data s a
         /\ BK.gibbs_cycle a = Ok b
         /\ s' = BK.set_stats (BK.suff_stats s') b).
Proof.
  intros Hi Hn.
  eapply returns_weaken;
    [apply (@gibbs_exact_chain _ s burnin sample thin Hi)|].
  cbv zeta. intros s' (Hs' & Hrun & _).
  destruct (burnin + sample * thin)%nat as [|m] eqn:En; [lia|].
  assert (I0 : BK.initialised (BK.init_suffStats s)) by exact Hi.
  pose proof (@chain_sweeps _ (BK.init_suffStats s) m I0) as Hm.
  cbn [for_range] in Hrun.
  destruct (for_range m (fun _ => BK.gibbs_cycle) (BK.init_suffStats s))
    as [a|e]; [|discriminate].
  cbn [bind] in Hrun. simpl in Hm. destruct Hm as (_ & _ & Ia & Da & _).
  exists a, (BK.sweeps (S m) (BK.init_suffStats s)).
  split; [exact Ia|]. split; [exact Da|]. split; [exact Hrun|].
  subst s'. reflexivity.
Qed.

(** X6: after a call of [gibbs] that did something (the mean-approx mode,
    or the exact mode with at least one sweep) the cached [AW] is [A.W]
    for the [W] it leaves. *)
Theorem bk_gibbs_AW_cache (s : BK.sampler) (burnin sample thin : nat)
  (mean_approx : bool) :
  BK.initialised s ->
  mean_approx = true \/ (1 <= burnin + sample * thin)%nat ->
  returns (BK.gibbs burnin sample thin mean_approx s)
    (fun s' =>
       exists w', BK.W s' = Some w' /\ BK.AW s' = Some (BK.dot_AW s' w')).
Proof.
  intros Hi Hrun. destruct mean_approx.
  - destruct Hi as [[w Hw] [z Hz]].
    rewrite (@gibbs_mean_result _ s burnin sample thin w z Hw Hz).
    apply returns_ok. eexists. split; reflexivity.
  - destruct Hrun as [H|Hn]; [discriminate|].
    eapply returns_weaken;
      [apply (gibbs_exact_last_sweep s burnin sample thin Hi Hn)|].
    intros s' (a & b & [[wa Hwa] [za Hza]] & Da & Hcyc & Hs').
    pose proof (@returns_inv _ _ _ _ _
                  (bk_gibbs_cycle_draws a wa za Hwa Hza) Hcyc)
      as (Db & _ & w' & z' & HW & _ & HAW & _).
    exists w'. rewrite Hs'. cbn [BK.W BK.AW BK.set_stats].
    split; [exact HW|]. rewrite HAW. f_equal. unfold BK.dot_AW.
    cbn [BK.K BK.A BK.set_stats].
    destruct Db as (_ & _ & HK & _ & HA & _). rewrite HK, HA. reflexivity.
Qed.

Lemma accumulate_once (x : num) : 0 + x / of_nat 1 = x.
Proof.
  destruct x as [a|]; [|reflexivity].
  unfold of_nat, of_Z. change (Q2Qc (inject_Z (Z.of_nat 1))) with 1%Qc.
  rewrite ndiv_Fin by discriminate. unfold nadd, lift2. f_equal.
  field. discriminate.
Qed.

(** X7: in the mean-approx mode the four accumulators read back after
    [gibbs] are exactly the statistics of the state it leaves: [W],
    [log W] and the two marginal sums of [Z]. *)
Theorem bk_gibbs_mean_statistics (s : BK.sampler)
  (burnin sample thin : nat) :
  BK.initialised s ->
  exists s' st,
    BK.gibbs burnin sample thin true s = Ok s'
    /\ BK.suff_stats s' = Some st
    /\ (forall i k, BK.exp_Zik st i k = BK.stat_Zik s' i k)
    /\ (forall j k, BK.exp_Zjk st j k = BK.stat_Zjk s' j k)
    /\ (forall k j, BK.exp_logW st k j = BK.stat_logW s' k j)
    /\ (forall k j, BK.exp_W st k j = BK.stat_W s' k j).
Proof.
  intros [[w Hw] [z Hz]]. eexists. eexists.
  split; [apply (@gibbs_mean_result _ s burnin sample thin w z Hw Hz)|].
  split; [reflexivity|].
  repeat split; intros; apply accumulate_once.
Qed.

(** X8: when [sample * thin] is zero ([sample = 0] or [thin = 0]) the
    exact mode runs the [burnin] sweeps only: nothing is accumulated, the
    four accumulators are zero, and [giter % thin] is never evaluated. *)
Theorem bk_gibbs_no_sampling (s : BK.sampler) (burnin sample thin : nat) :
  BK.initialised s -> (sample * thin = 0)%nat ->
  let s0 := BK.init_suffStats s in
  returns (BK.gibbs burnin sample thin false s)
    (fun s' =>
       for_range burnin (fun _ => BK.gibbs_cycle) s0
       = Ok (BK.sweeps burnin s0)
       /\ s' = BK.set_stats (Some BK.zero_stats) (BK.sweeps burnin s0)).
Proof.
  intros Hi H0 s0.
  eapply returns_weaken;
    [apply (@gibbs_exact_chain _ s burnin sample thin Hi)|].
  cbv zeta. rewrite H0, Nat.add_0_r. fold s0.
  intros s' (Hs' & Hrun & _). split; [exact Hrun|]. exact Hs'.
Qed.

Lemma single_term (f : nat -> num) (y : num) :
  sum_n 1 f = y -> f O = y.
Proof.
  cbn [sum_n]. destruct (f O) as [a|]; intros H; [|exact H].
  rewrite <- H. unfold nadd, lift2. f_equal. ring.
Qed.

(** X9: with a single cell type and a library whose draws obey their
    laws, a run of the exact mode with at least one sweep leaves
    [W[0,j] = 1] and [Z[j,i,0] = BKexpr[j,i]]. *)
Theorem bk_single_type (laws : RandomLaws lib) (s : BK.sampler)
  (burnin sample thin : nat) :
  BK.K s = 1%nat -> BK.initialised s ->
  (1 <= burnin + sample * thin)%nat ->
  returns (BK.gibbs burnin sample thin false s)
    (fun s' =>
       exists w z,
         BK.W s' = Some w /\ BK.Z_ s' = Some z
         /\ (forall j, (j < BK.M s)%nat -> w O j = 1)
         /\ (forall j i, (j < BK.M s)%nat -> (i < BK.N s)%nat ->
               z j i O = of_Z (BK.BKexpr s j i))).
Proof.
  intros HK Hi Hn.
  eapply returns_weaken;
    [apply (gibbs_exact_last_sweep s burnin sample thin Hi Hn)|].
  intros s' (a & b & Ia & Da & Hcyc & Hs').
  assert (Ka : (0 < BK.K a)%nat).
  { destruct Da as (_ & _ & HKa & _). rewrite HKa, HK. lia. }
  pose proof (@returns_inv _ _ _ _ _
                (@gibbs_cycle_invariants _ laws a Ka Ia) Hcyc)
    as [(z & Hz & Hsum) (w & Hw & Hcol)].
  pose proof (@returns_inv _ _ _ _ _
                (@gibbs_cycle_initialised _ a Ia) Hcyc) as (Db & _).
  pose proof (bk_same_data_trans Da Db)
    as (HM & HN & HKb & HB & _).
  exists w, z. rewrite Hs'. cbn [BK.W BK.Z_ BK.set_stats].
  split; [exact Hw|]. split; [exact Hz|]. split.
  - intros j Hj. apply (single_term (fun k => w k j)).
    rewrite <- HK, <- HKb. apply Hcol. rewrite HM. exact Hj.
  - intros j i Hj Hi'. apply (single_term (fun k => z j i k)).
    rewrite <- HK, <- HKb, <- HB. apply Hsum; [rewrite HM|rewrite HN];
      assumption.
Qed.

Lemma for_range_first (St : Type) (body : nat -> St -> result St)
  (n : nat) (st st' : St) :
  body O st = body O st' ->
  for_range (S n) body st = for_range (S n) body st'.
Proof.
  intros H. induction n as [|n IH].
  - simpl. exact H.
  - change (for_range (S (S n)) body st)
      with (a <- for_range (S n) body st ;; body (S n) a).
    rewrite IH. reflexivity.
Qed.

(** X10: [gibbs] never reads the [AW] found at entry: in the mean-approx
    mode, and in the exact mode as soon as one sweep runs, its result is
    the same whatever [self.AW] held (so the [AW] that
    [update_parameters] leaves stale is harmless). *)
Theorem bk_gibbs_ignores_AW (s : BK.sampler)
  (o : option (nat -> nat -> num)) (burnin sample thin : nat)
  (mean_approx : bool) :
  mean_approx = true \/ (1 <= burnin + sample * thin)%nat ->
  BK.gibbs burnin sample thin mean_approx (BK.set_AW o s)
  = BK.gibbs burnin sample thin mean_approx s.
Proof.
  intros Hrun.
  assert (Hcyc : BK.gibbs_cycle (BK.init_suffStats (BK.set_AW o s))
                 = BK.gibbs_cycle (BK.init_suffStats s)).
  { unfold BK.gibbs_cycle, BK.draw_W.
    cbn [BK.init_suffStats BK.with_stats BK.set_AW BK.Z_ BK.W].
    destruct (BK.Z_ s) as [z|]; [|reflexivity].
    destruct (BK.W s) as [w|]; reflexivity. }
  destruct mean_approx.
  - unfold BK.gibbs, BK.get_nmf_W.
    cbn [BK.init_suffStats BK.with_stats BK.set_AW BK.W].
    destruct (BK.W s) as [w|]; reflexivity.
  - destruct Hrun as [H|Hn]; [discriminate|]. unfold BK.gibbs.
    destruct burnin as [|b].
    + cbn [for_range bind]. cbn [Nat.add] in Hn.
      destruct (sample * thin)%nat as [|m]; [lia|].
      apply for_range_first. unfold BK.sampling_step.
      rewrite Hcyc. reflexivity.
    + rewrite (for_range_first _ (fun _ => BK.gibbs_cycle) b _ _ Hcyc).
      reflexivity.
Qed.

End BulkExtra.

(** ** Further properties of the single-cell sampler *)

Section SingleCellExtra.
Context {lib : Library}.

Lemma linked_same (s s' : SC.sampler) (x : SC.latent) :
  SC.same_data s s' -> SC.A s' = SC.A s ->
  SC.linked s x -> SC.linked s' x.
Proof.
  unfold SC.same_data, SC.linked. intros (_&_&_&_&HG&_) HA H l i.
  rewrite HG, HA. apply H.
Qed.

Lemma update_psi_linked (s : SC.sampler) (x : SC.latent) :
  SC.lat s = Some x ->
  returns (SC.update_psi s)
    (fun s' =>
       SC.same_data s s' /\ SC.A s' = SC.A s
       /\ SC.suff_stats s' = SC.suff_stats s
       /\ exists x', SC.lat s' = Some x' /\ SC.linked s' x').
Proof.
  intros H. unfold SC.update_psi. rewrite H. simpl.
  split; [repeat split|]. split; [reflexivity|]. split; [reflexivity|].
  eexists. split; [reflexivity|]. intros l i. reflexivity.
Qed.

Lemma gibbs_cycle_linked (s : SC.sampler) (x : SC.latent) :
  SC.data_ok s -> SC.lat s = Some x ->
  returns (SC.gibbs_cycle s)
    (fun s' =>
       SC.same_data s s' /\ SC.A s' = SC.A s
       /\ SC.suff_stats s' = SC.suff_stats s
       /\ exists x', SC.lat s' = Some x' /\ SC.linked s' x').
Proof.
  intros Hok Hlat. unfold SC.gibbs_cycle.
  eapply returns_bind; [apply (@draw_w_keeps _ s x Hlat)|].
  intros s1 K1. apply keeps_S_effect in K1.
  destruct K1 as (D1 & A1 & T1 & x1 & L1 & _).
  eapply returns_bind;
    [apply (@draw_S_effect _ s1 x1 (data_ok_same D1 Hok) L1)|].
  intros s2 (D2 & A2 & T2 & x2 & L2 & _).
  eapply returns_bind; [apply (@draw_kappa_tau_keeps _ s2 x2 L2)|].
  intros s3 K3. apply keeps_S_effect in K3.
  destruct K3 as (D3 & A3 & T3 & x3 & L3 & _).
  eapply returns_weaken; [apply (update_psi_linked s3 x3 L3)|].
  intros s4 (D4 & A4 & T4 & x4 & L4 & H4).
  split; [eauto using same_data_trans|].
  split; [congruence|]. split; [congruence|]. eauto.
Qed.

(** X11: [psi[l,i] = kappa[l] + tau[l]*A[i,G[l]]] holds for the current
    [kappa], [tau] and [A] after [init_gibbs], after every sweep, after
    [update_parameters] and at the end of every run of [gibbs]. *)
Theorem sc_psi_linked (s : SC.sampler) :
  SC.data_ok s ->
  returns (SC.init_gibbs s)
    (fun s' => exists x, SC.lat s' = Some x /\ SC.linked s' x)
  /\ (forall x, SC.lat s = Some x ->
        returns (SC.gibbs_cycle s)
          (fun s' => exists x', SC.lat s' = Some x' /\ SC.linked s' x'))
  /\ (forall a pk pt x, SC.lat s = Some x ->
        returns (SC.update_parameters a pk pt s)
          (fun s' => exists x', SC.lat s' = Some x' /\ SC.linked s' x'))
  /\ (forall burnin sample thin,
        returns (SC.gibbs burnin sample thin s)
          (fun s' => exists x', SC.lat s' = Some x' /\ SC.linked s' x')).
Proof.
  intros Hok.
  assert (Hinit : forall a,
            returns (SC.init_gibbs a)
              (fun s' =>
                 SC.same_data a s' /\ SC.A s' = SC.A a
                 /\ SC.suff_stats s' = SC.suff_stats a
                 /\ exists x, SC.lat s' = Some x /\ SC.linked s' x)).
  { intros a. unfold SC.init_gibbs. eapply returns_bind.
    - lib_draw. intros r _. exact I.
    - intros r _. apply returns_ok. simpl.
      split; [repeat split|]. split; [reflexivity|].
      split; [reflexivity|]. eexists. split; [reflexivity|].
      intros l i. reflexivity. }
  split; [|split; [|split]].
  - eapply returns_weaken; [apply Hinit|].
    intros s' (_ & _ & _ & H). exact H.
  - intros x Hlat.
    eapply returns_weaken; [apply (gibbs_cycle_linked s x Hok Hlat)|].
    intros s' (_ & _ & _ & H). exact H.
  - intros a pk pt x Hlat.
    eapply returns_weaken;
      [apply (@update_parameters_spec _ a pk pt s x Hlat)|].
    intros s' (x' & L' & HA & _ & _ & _ & _ & Hpsi & _).
    exists x'. split; [assumption|]. intros l i. rewrite Hpsi.
    reflexivity.
  - intros burnin sample thin.
    set (Inv := fun a : SC.sampler =>
           SC.same_data s a
           /\ (exists x, SC.lat a = Some x /\ SC.linked a x)
           /\ (exists st, SC.suff_stats a = Some st)).
    assert (Hcycle : forall a, Inv a -> returns (SC.gibbs_cycle a) Inv).
    { intros a (Da & (x & La & Pa) & (st & Ta)).
      eapply returns_weaken;
        [apply (gibbs_cycle_linked a x (data_ok_same Da Hok) La)|].
      intros b (Db & _ & Tb & Hb).
      split; [eauto using same_data_trans|]. split; [exact Hb|].
      exists st. congruence. }
    unfold SC.gibbs. eapply returns_bind; [apply Hinit|].
    intros s0 (D0 & _ & T0 & H0).
    assert (I0 : Inv s0).
    { split; [exact D0|]. split; [exact H0|]. eexists. rewrite T0.
      reflexivity. }
    eapply returns_bind.
    { apply (@returns_for_range _ _ (fun _ => Inv)); [exact I0|].
      intros k a _ Ha. apply Hcycle. assumption. }
    intros s1 I1.
    destruct (Nat.eq_dec thin 0) as [->|Hthin].
    + rewrite Nat.mul_0_r. apply returns_ok.
      destruct I1 as (_ & P1 & _). exact P1.
    + eapply returns_weaken.
      * apply (@returns_for_range _ _ (fun _ => Inv)); [exact I1|].
        intros k a _ Ha. unfold SC.sampling_step.
        eapply returns_bind; [apply Hcycle; assumption|].
        intros b (Db & (xb & Lb & Pb) & (st & Tb)).
        destruct (Nat.eqb_spec thin 0); [contradiction|].
        destruct (Nat.eqb (k mod thin) 0).
        -- eapply returns_weaken;
             [apply (@update_suffStats_spec _ sample b xb st Tb Lb)|].
           intros c (Dc & Ac & Lc & Tc).
           split; [eauto using same_data_trans|].
           split; [|exact Tc].
           exists xb. split; [exact Lc|].
           apply (linked_same b c xb Dc Ac Pb).
        -- apply returns_ok. split; [assumption|]. eauto.
      * intros s2 (_ & P2 & _). exact P2.
Qed.


Lemma set_ones_cases (ipos : list (nat * nat)) (sv : nat -> nat -> Z)
  (l i : nat) :
  SC.set_ones sv ipos l i = 1%Z \/ SC.set_ones sv ipos l i = sv l i.
Proof.
  unfold SC.set_ones. revert sv.
  induction ipos as [|[l0 i0] rest IH]; intros sv; simpl.
  - right. reflexivity.
  - destruct (IH (upd2 sv l0 i0 1%Z)) as [H|H]; [left; exact H|].
    rewrite H. unfold upd2.
    destruct (Nat.eqb l l0 && Nat.eqb i i0); [left|right]; reflexivity.
Qed.

Lemma draw_S_binary (laws : BernoulliLaws lib) (s : SC.sampler)
  (x : SC.latent) :
  SC.lat s = Some x -> SC.binary s x ->
  returns (SC.draw_S s)
    (fun s' =>
       SC.same_data s s' /\ SC.A s' = SC.A s
       /\ SC.suff_stats s' = SC.suff_stats s
       /\ exists x', SC.lat s' = Some x' /\ SC.binary s x').
Proof.
  intros Hlat Hb. unfold SC.draw_S.
  destruct (SC.izero s) as [|c rest] eqn:Hz.
  - apply returns_ok. split; [apply same_data_refl|]. repeat split.
    exists x. auto.
  - rewrite Hlat. cbn [attr bind]. eapply returns_bind.
    + apply (@returns_for_each _ _ _
               (fun xg : SC.latent * rng => SC.binary s (fst xg))).
      * exact Hb.
      * intros [l0 i0] [a ga] _ Ha. cbn [fst] in Ha.
        unfold SC.draw_S_at. eapply returns_bind.
        -- lib_draw. intros r Hr. exact Hr.
        -- intros [v g'] Hr. apply returns_ok. cbn [fst].
           intros l i Hl Hi. unfold SC.store_S, upd2. cbn [SC.S_].
           destruct (Nat.eqb l l0 && Nat.eqb i i0).
           ++ eapply binomial_binary. exact Hr.
           ++ apply Ha; assumption.
    + intros [x' g'] Hx'. apply returns_ok.
      split; [repeat split|]. split; [reflexivity|]. split; [reflexivity|].
      exists x'. split; [reflexivity|]. exact Hx'.
Qed.

Lemma binary_same (s s' : SC.sampler) (x x' : SC.latent) :
  SC.same_data s s' -> SC.S_ x' = SC.S_ x ->
  SC.binary s x -> SC.binary s' x'.
Proof.
  unfold SC.same_data, SC.binary. intros (HL&HN&_) HS H l i.
  rewrite HL, HN, HS. apply H.
Qed.

Lemma gibbs_cycle_binary (laws : BernoulliLaws lib) (s : SC.sampler)
  (x : SC.latent) :
  SC.lat s = Some x -> SC.binary s x ->
  returns (SC.gibbs_cycle s)
    (fun s' =>
       SC.same_data s s' /\ SC.suff_stats s' = SC.suff_stats s
       /\ exists x', SC.lat s' = Some x' /\ SC.binary s' x').
Proof.
  intros Hlat Hb. unfold SC.gibbs_cycle.
  eapply returns_bind; [apply (@draw_w_keeps _ s x Hlat)|].
  intros s1 K1. apply keeps_S_effect in K1.
  destruct K1 as (D1 & A1 & T1 & x1 & L1 & S1 & _).
  eapply returns_bind.
  { apply (draw_S_binary laws s1 x1 L1).
    apply (binary_same s s1 x x1 D1 S1 Hb). }
  intros s2 (D2 & A2 & T2 & x2 & L2 & B2).
  eapply returns_bind; [apply (@draw_kappa_tau_keeps _ s2 x2 L2)|].
  intros s3 K3. apply keeps_S_effect in K3.
  destruct K3 as (D3 & A3 & T3 & x3 & L3 & S3 & _).
  eapply returns_weaken; [apply (@update_psi_keeps _ s3 x3 L3)|].
  intros s4 K4. apply keeps_S_effect in K4.
  destruct K4 as (D4 & A4 & T4 & x4 & L4 & S4 & _).
  split; [eauto using same_data_trans|]. split; [congruence|].
  exists x4. split; [assumption|].
  apply (binary_same s1 s4 x2 x4);
    [eauto using same_data_trans|congruence|exact B2].
Qed.

(** X13: with a library whose one-trial binomial draws are 0 or 1, every
    [S[l,i]] is 0 or 1 after [init_gibbs], after every [draw_S], every
    sweep and every run of [gibbs]. *)
Theorem sc_S_binary (laws : BernoulliLaws lib) (s : SC.sampler) :
  returns (SC.init_gibbs s)
    (fun s' => exists x, SC.lat s' = Some x /\ SC.binary s' x)
  /\ (forall x, SC.lat s = Some x -> SC.binary s x ->
        returns (SC.draw_S s)
          (fun s' => exists x', SC.lat s' = Some x' /\ SC.binary s' x'))
  /\ (forall x, SC.lat s = Some x -> SC.binary s x ->
        returns (SC.gibbs_cycle s)
          (fun s' => exists x', SC.lat s' = Some x' /\ SC.binary s' x'))
  /\ (forall burnin sample thin,
        returns (SC.gibbs burnin sample thin s)
          (fun s' => exists x', SC.lat s' = Some x' /\ SC.binary s' x')).
Proof.
  assert (Hinit : forall a,
            returns (SC.init_gibbs a)
              (fun s' =>
                 SC.same_data a s'
                 /\ SC.suff_stats s' = SC.suff_stats a
                 /\ exists x, SC.lat s' = Some x /\ SC.binary s' x)).
  { intros a. unfold SC.init_gibbs. eapply returns_bind.
    - lib_draw. intros r Hr. exact Hr.
    - intros [flips g'] Hr. apply returns_ok. simpl.
      split; [repeat split|]. split; [reflexivity|].
      eexists. split; [reflexivity|]. intros l i Hl Hi. simpl in *.
      destruct (set_ones_cases
                  (np_where (Z.ltb 0) (SC.L a) (SC.N a) (SC.SCexpr a))
                  (fun l i => flips (l * SC.N a + i)%nat) l i)
        as [H|H]; [right; exact H|].
      rewrite H. eapply binomial_size_binary; [exact Hr|]. nia. }
  split; [|split; [|split]].
  - eapply returns_weaken; [apply Hinit|].
    intros s' (_ & _ & H). exact H.
  - intros x Hlat Hb.
    eapply returns_weaken; [apply (draw_S_binary laws s x Hlat Hb)|].
    intros s' (D & _ & _ & x' & L' & B'). exists x'.
    split; [assumption|]. apply (binary_same s s' x' x' D eq_refl B').
  - intros x Hlat Hb.
    eapply returns_weaken; [apply (gibbs_cycle_binary laws s x Hlat Hb)|].
    intros s' (_ & _ & H). exact H.
  - intros burnin sample thin.
    set (Inv := fun a : SC.sampler =>
           (exists x, SC.lat a = Some x /\ SC.binary a x)
           /\ (exists st, SC.suff_stats a = Some st)).
    assert (Hcycle : forall a, Inv a -> returns (SC.gibbs_cycle a) Inv).
    { intros a ((x & La & Ba) & (st & Ta)).
      eapply returns_weaken;
        [apply (gibbs_cycle_binary laws a x La Ba)|].
      intros b (_ & Tb & Hb). split; [exact Hb|].
      exists st. congruence. }
    unfold SC.gibbs. eapply returns_bind; [apply Hinit|].
    intros s0 (_ & T0 & H0).
    assert (I0 : Inv s0).
    { split; [exact H0|]. eexists. rewrite T0. reflexivity. }
    eapply returns_bind.
    { apply (@returns_for_range _ _ (fun _ => Inv)); [exact I0|].
      intros k a _ Ha. apply Hcycle. assumption. }
    intros s1 I1.
    destruct (Nat.eq_dec thin 0) as [->|Hthin].
    + rewrite Nat.mul_0_r. apply returns_ok. apply I1.
    + eapply returns_weaken.
      * apply (@returns_for_range _ _ (fun _ => Inv)); [exact I1|].
        intros k a _ Ha. unfold SC.sampling_step.
        eapply returns_bind; [apply Hcycle; assumption|].
        intros b ((xb & Lb & Bb) & (st & Tb)).
        destruct (Nat.eqb_spec thin 0); [contradiction|].
        destruct (Nat.eqb (k mod thin) 0).
        -- eapply returns_weaken;
             [apply (@update_suffStats_spec _ sample b xb st Tb Lb)|].
           intros c (Dc & _ & Lc & Tc). split; [|exact Tc].
           exists xb. split; [exact Lc|].
           apply (binary_same b c xb xb Dc eq_refl Bb).
        -- apply returns_ok. split; eauto.
      * intros s2 (P2 & _). exact P2.
Qed.

(** X14: when every count of [SCexpr] is positive there is nothing to
    resample: [izero] is empty, [draw_S] returns the sampler as it is
    (and draws nothing), and [init_gibbs] sets every [S[l,i]] to 1 and
    [sum_AS[l]] to the sum of [A[:,G[l]]]. *)
Theorem sc_all_observed (s : SC.sampler) :
  SC.data_ok s ->
  (forall l i, (l < SC.L s)%nat -> (i < SC.N s)%nat ->
     (0 < SC.SCexpr s l i)%Z) ->
  SC.izero s = [] /\ SC.draw_S s = Ok s
  /\ returns (SC.init_gibbs s)
       (fun s' =>
          exists x,
            SC.lat s' = Some x
            /\ (forall l i, (l < SC.L s)%nat -> (i < SC.N s)%nat ->
                  SC.S_ x l i = 1%Z)
            /\ forall l, (l < SC.L s)%nat ->
                 SC.sum_AS x l
                 = sum_n (SC.N s) (fun i => SC.A s i (SC.G s l))).
Proof.
  intros Hok Hpos.
  assert (Hz : SC.izero s = []).
  { destruct (SC.izero s) as [|[l i] rest] eqn:E; [reflexivity|].
    assert (Hin : In (l, i) (SC.izero s)) by (rewrite E; left; reflexivity).
    apply (@izero_spec _ s l i Hok) in Hin.
    destruct Hin as (Hl & Hi & H0). specialize (Hpos l i Hl Hi). lia. }
  split; [exact Hz|]. split.
  - unfold SC.draw_S. rewrite Hz. reflexivity.
  - eapply returns_weaken; [apply (@init_gibbs_spec _ s)|].
    intros s' (_ & _ & _ & x & Hl & HP & HC).
    exists x. split; [exact Hl|]. split.
    + intros l i Hl' Hi. apply HP; [assumption|assumption|].
      apply Hpos; assumption.
    + intros l Hl'. rewrite (HC l). apply sum_n_ext. intros i Hi.
      rewrite (HP l i Hl' Hi (Hpos l i Hl' Hi)). apply nmul_one_r.
Qed.

(** X15: before [init_gibbs] has created the latent state, a sweep,
    [update_psi], [update_parameters] and [update_suffStats] all raise
    [AttributeError], whatever the dimensions. *)
Theorem sc_needs_init_gibbs (s : SC.sampler) :
  SC.lat s = None ->
  SC.gibbs_cycle s = Err AttributeError
  /\ SC.update_psi s = Err AttributeError
  /\ (forall a pk pt, SC.update_parameters a pk pt s = Err AttributeError)
  /\ (forall n, SC.update_suffStats n s = Err AttributeError).
Proof.
  intros Hlat.
  assert (Hpsi : SC.update_psi s = Err AttributeError).
  { unfold SC.update_psi. rewrite Hlat. reflexivity. }
  split; [|split; [exact Hpsi|split]].
  - unfold SC.gibbs_cycle, SC.draw_w.
    destruct (Nat.eqb (SC.L s) 0) eqn:HL.
    + cbn [bind]. unfold SC.draw_S.
      destruct (SC.izero s) as [|c rest].
      * cbn [bind]. unfold SC.draw_kappa_tau. rewrite HL. cbn [bind].
        exact Hpsi.
      * rewrite Hlat. reflexivity.
    + rewrite Hlat. reflexivity.
  - intros a pk pt. unfold SC.update_parameters, SC.update_psi.
    cbn [SC.lat SC.with_params]. rewrite Hlat. reflexivity.
  - intros n. unfold SC.update_suffStats. rewrite Hlat.
    destruct (SC.suff_stats s); reflexivity.
Qed.

(** *** The chain and its statistics *)

Lemma sc_update_suffStats_eq (n : nat) (s : SC.sampler) (x : SC.latent)
  (st : SC.stats) :
  SC.suff_stats s = Some st -> SC.lat s = Some x ->
  SC.update_suffStats n s = Ok (SC.with_stats s (SC.accumulate s x n st)).
Proof.
  intros Hst Hlat. unfold SC.update_suffStats. rewrite Hst, Hlat.
  reflexivity.
Qed.

(** a sweep neither reads nor writes the statistics *)
Lemma sc_draw_w_set_stats (o : option SC.stats) (a : SC.sampler) :
  SC.draw_w (SC.set_stats o a)
  = (b <- SC.draw_w a ;; Ok (SC.set_stats o b)).
Proof.
  destruct a. unfold SC.draw_w. simpl.
  match goal with |- context [Nat.eqb ?n 0] => destruct (Nat.eqb n 0) end;
    [reflexivity|].
  match goal with |- context [attr ?l] => destruct l as [x|] end;
    [|reflexivity].
  simpl.
  match goal with
  | |- bind ?r _ = bind (bind ?r' _) _ =>
      change r with r'; destruct r' as [[w' g']|e]; reflexivity
  end.
Qed.

Lemma sc_draw_S_set_stats (o : option SC.stats) (a : SC.sampler) :
  SC.draw_S (SC.set_stats o a)
  = (b <- SC.draw_S a ;; Ok (SC.set_stats o b)).
Proof.
  destruct a. unfold SC.draw_S. simpl.
  match goal with
  | |- match ?z with _ => _ end = _ => destruct z as [|c rest]
  end; [reflexivity|].
  match goal with |- context [attr ?l] => destruct l as [x|] end;
    [|reflexivity].
  simpl.
  match goal with
  | |- bind ?r _ = bind (bind ?r' _) _ =>
      change r with r'; destruct r' as [[x' g']|e]; reflexivity
  end.
Qed.

Lemma sc_draw_kappa_tau_set_stats (o : option SC.stats) (a : SC.sampler) :
  SC.draw_kappa_tau (SC.set_stats o a)
  = (b <- SC.draw_kappa_tau a ;; Ok (SC.set_stats o b)).
Proof.
  destruct a. unfold SC.draw_kappa_tau. simpl.
  match goal with |- context [Nat.eqb ?n 0] => destruct (Nat.eqb n 0) end;
    [reflexivity|].
  match goal with |- context [attr ?l] => destruct l as [x|] end;
    [|reflexivity].
  simpl.
  match goal with
  | |- bind ?r _ = bind (bind ?r' _) _ =>
      change r with r'; destruct r' as [[x' g']|e]; reflexivity
  end.
Qed.

Lemma sc_update_psi_set_stats (o : option SC.stats) (a : SC.sampler) :
  SC.update_psi (SC.set_stats o a)
  = (b <- SC.update_psi a ;; Ok (SC.set_stats o b)).
Proof.
  destruct a. unfold SC.update_psi. simpl.
  match goal with |- context [attr ?l] => destruct l as [x|] end;
    reflexivity.
Qed.

Lemma sc_gibbs_cycle_set_stats (o : option SC.stats) (a : SC.sampler) :
  SC.gibbs_cycle (SC.set_stats o a)
  = (b <- SC.gibbs_cycle a ;; Ok (SC.set_stats o b)).
Proof.
  unfold SC.gibbs_cycle. rewrite sc_draw_w_set_stats.
  destruct (SC.draw_w a) as [s1|e]; [|reflexivity]. cbn [bind].
  rewrite sc_draw_S_set_stats.
  destruct (SC.draw_S s1) as [s2|e]; [|reflexivity]. cbn [bind].
  rewrite sc_draw_kappa_tau_set_stats.
  destruct (SC.draw_kappa_tau s2) as [s3|e]; [|reflexivity]. cbn [bind].
  apply sc_update_psi_set_stats.
Qed.

Ltac sc_types_step :=
  match goal with
  | H : context [Nat.eqb ?n 0] |- _ => destruct (Nat.eqb n 0)
  | H : context [attr ?l] |- _ => destruct l; cbn [attr bind] in H
  | H : bind ?r _ = Ok _ |- _ => destruct r; cbn [bind] in H
  | H : match ?z with [] => _ | _ :: _ => _ end = Ok _ |- _ => destruct z
  | H : Ok _ = Ok _ |- _ => inversion H; subst; clear H
  | H : Err _ = Ok _ |- _ => discriminate H
  end.

(** no method of a sweep changes the number of types or the membership
    lists *)
Lemma sc_gibbs_cycle_types (a b : SC.sampler) :
  SC.gibbs_cycle a = Ok b ->
  SC.K b = SC.K a /\ SC.itype b = SC.itype a.
Proof.
  unfold SC.gibbs_cycle. intros H.
  destruct (SC.draw_w a) as [s1|] eqn:E1; [|discriminate]. cbn [bind] in H.
  destruct (SC.draw_S s1) as [s2|] eqn:E2; [|discriminate].
  cbn [bind] in H.
  destruct (SC.draw_kappa_tau s2) as [s3|] eqn:E3; [|discriminate].
  cbn [bind] in H.
  assert (H1 : SC.K s1 = SC.K a /\ SC.itype s1 = SC.itype a).
  { unfold SC.draw_w in E1. repeat sc_types_step; split; reflexivity. }
  assert (H2 : SC.K s2 = SC.K s1 /\ SC.itype s2 = SC.itype s1).
  { unfold SC.draw_S in E2. repeat sc_types_step; split; reflexivity. }
  assert (H3 : SC.K s3 = SC.K s2 /\ SC.itype s3 = SC.itype s2).
  { unfold SC.draw_kappa_tau in E3.
    repeat sc_types_step; split; reflexivity. }
  assert (H4 : SC.K b = SC.K s3 /\ SC.itype b = SC.itype s3).
  { unfold SC.update_psi in H. repeat sc_types_step; split; reflexivity. }
  destruct H1, H2, H3, H4. split; congruence.
Qed.

Lemma sc_sweeps_types (n : nat) (s0 : SC.sampler) :
  SC.K (SC.sweeps n s0) = SC.K s0
  /\ SC.itype (SC.sweeps n s0) = SC.itype s0.
Proof.
  induction n as [|n [IHK IHt]]; [split; reflexivity|].
  cbn [SC.sweeps]. unfold SC.sweep.
  destruct (SC.gibbs_cycle (SC.sweeps n s0)) as [b|e] eqn:E.
  - destruct (sc_gibbs_cycle_types _ _ E). split; congruence.
  - split; assumption.
Qed.

Lemma sc_gibbs_cycle_ready (a : SC.sampler) :
  SC.data_ok a -> (exists x, SC.lat a = Some x) ->
  returns (SC.gibbs_cycle a)
    (fun b =>
       SC.data_ok b /\ (exists x, SC.lat b = Some x)
       /\ SC.suff_stats b = SC.suff_stats a).
Proof.
  intros Hok [x Hlat].
  eapply returns_weaken; [apply (@gibbs_cycle_spec _ a x Hok Hlat)|].
  intros b (Db & _ & Tb & xb & Lb & _).
  split; [exact (data_ok_same Db Hok)|]. split; [eauto|exact Tb].
Qed.

Lemma sc_sweeps_succ (n : nat) (s0 b : SC.sampler) :
  SC.gibbs_cycle (SC.sweeps n s0) = Ok b -> SC.sweeps (S n) s0 = b.
Proof. intros E. simpl. unfold SC.sweep. rewrite E. reflexivity. Qed.

Lemma sc_chain_sweeps (s0 : SC.sampler) (n : nat) :
  SC.data_ok s0 -> (exists x, SC.lat s0 = Some x) ->
  returns (for_range n (fun _ => SC.gibbs_cycle) s0)
    (fun a =>
       a = SC.sweeps n s0
       /\ for_range n (fun _ => SC.gibbs_cycle) s0 = Ok a
       /\ SC.data_ok a /\ (exists x, SC.lat a = Some x)
       /\ SC.suff_stats a = SC.suff_stats s0).
Proof.
  intros Hok Hlat.
  apply (@returns_for_range _ _
           (fun k a =>
              a = SC.sweeps k s0
              /\ for_range k (fun _ => SC.gibbs_cycle) s0 = Ok a
              /\ SC.data_ok a /\ (exists x, SC.lat a = Some x)
              /\ SC.suff_stats a = SC.suff_stats s0)).
  - split; [reflexivity|]. split; [reflexivity|].
    split; [assumption|]. split; [assumption|reflexivity].
  - intros k a _ (Ha & Hrun & Oa & La & Ta).
    pose proof (sc_gibbs_cycle_ready a Oa La) as H.
    destruct (SC.gibbs_cycle a) as [b|e] eqn:E; [|exact H].
    simpl in H. destruct H as (Ob & Lb & Tb). simpl.
    split; [symmetry; apply sc_sweeps_succ; rewrite <- Ha; exact E|].
    split; [rewrite Hrun; exact E|].
    split; [assumption|]. split; [assumption|]. congruence.
Qed.

Lemma sc_accumulated_succ (s0 : SC.sampler) (burnin sample thin n : nat) :
  SC.accumulated s0 burnin sample thin (S n)
  = if Nat.eqb (n mod thin) 0
    then let a := SC.sweeps (burnin + n + 1) s0 in
         SC.accumulate a (SC.lat_of a) sample
           (SC.accumulated s0 burnin sample thin n)
    else SC.accumulated s0 burnin sample thin n.
Proof.
  unfold SC.accumulated. rewrite seq_S, filter_app, fold_left_app.
  cbn [filter Nat.add]. destruct (Nat.eqb (n mod thin) 0); reflexivity.
Qed.

Lemma sc_set_stats_eta (s : SC.sampler) :
  SC.set_stats (SC.suff_stats s) s = s.
Proof. destruct s; reflexivity. Qed.

Lemma sc_sampling_loop (s0 : SC.sampler) (burnin sample thin n : nat) :
  (1 <= thin)%nat ->
  SC.data_ok (SC.sweeps burnin s0) ->
  (exists x, SC.lat (SC.sweeps burnin s0) = Some x) ->
  for_range burnin (fun _ => SC.gibbs_cycle) s0
  = Ok (SC.sweeps burnin s0) ->
  returns
    (for_range n (SC.sampling_step sample thin)
       (SC.set_stats (Some SC.zero_stats) (SC.sweeps burnin s0)))
    (fun a =>
       a = SC.set_stats (Some (SC.accumulated s0 burnin sample thin n))
             (SC.sweeps (burnin + n) s0)
       /\ for_range (burnin + n) (fun _ => SC.gibbs_cycle) s0
          = Ok (SC.sweeps (burnin + n) s0)
       /\ SC.data_ok (SC.sweeps (burnin + n) s0)
       /\ (exists x, SC.lat (SC.sweeps (burnin + n) s0) = Some x)).
Proof.
  intros Hthin Hok Hlat Hrun.
  apply (@returns_for_range _ _
           (fun k a =>
              a = SC.set_stats
                    (Some (SC.accumulated s0 burnin sample thin k))
                    (SC.sweeps (burnin + k) s0)
              /\ for_range (burnin + k) (fun _ => SC.gibbs_cycle) s0
                 = Ok (SC.sweeps (burnin + k) s0)
              /\ SC.data_ok (SC.sweeps (burnin + k) s0)
              /\ (exists x, SC.lat (SC.sweeps (burnin + k) s0) = Some x))).
  - rewrite Nat.add_0_r. split; [reflexivity|].
    split; [assumption|]. split; assumption.
  - intros k a _ (Ha & Hk & Ok' & Lk). subst a.
    unfold SC.sampling_step. rewrite sc_gibbs_cycle_set_stats.
    pose proof (sc_gibbs_cycle_ready _ Ok' Lk) as H.
    destruct (SC.gibbs_cycle (SC.sweeps (burnin + k) s0)) as [b|e] eqn:E;
      [|exact H].
    simpl in H. destruct H as (Ob & [xb Lb] & _). cbn [bind].
    destruct (Nat.eqb_spec thin 0) as [H0|_]; [lia|].
    pose proof (sc_sweeps_succ _ _ _ E) as Hb.
    replace (burnin + S k)%nat with (S (burnin + k)) by lia.
    rewrite sc_accumulated_succ, Hb.
    replace (burnin + k + 1)%nat with (S (burnin + k)) by lia.
    rewrite Hb.
    assert (Hfr : for_range (S (burnin + k)) (fun _ => SC.gibbs_cycle) s0
                  = Ok b).
    { simpl. rewrite Hk. exact E. }
    destruct (Nat.eqb (k mod thin) 0).
    + rewrite (sc_update_suffStats_eq sample
                 (SC.set_stats
                    (Some (SC.accumulated s0 burnin sample thin k)) b) xb
                 (SC.accumulated s0 burnin sample thin k) eq_refl Lb).
      apply returns_ok. unfold SC.lat_of. rewrite Lb.
      split; [reflexivity|]. split; [assumption|]. split; eauto.
    + apply returns_ok. split; [reflexivity|]. split; [assumption|].
      split; eauto.
Qed.

Lemma returns_self (A : Type) (r : result A) (P : A -> Prop) :
  returns r P -> returns r (fun a => r = Ok a /\ P a).
Proof. destruct r; simpl; auto. Qed.

(** a run of [gibbs] as a chain of sweeps with statistics *)
Lemma sc_gibbs_chain (s : SC.sampler) (burnin sample thin : nat) :
  SC.data_ok s ->
  let n := (burnin + sample * thin)%nat in
  returns (SC.gibbs burnin sample thin s)
    (fun s' =>
       exists s0,
         SC.init_gibbs (SC.init_suffStats s) = Ok s0
         /\ SC.K s0 = SC.K s /\ SC.itype s0 = SC.itype s
         /\ SC.same_data s s0
         /\ s' = SC.set_stats
                   (Some (SC.accumulated s0 burnin sample thin
                            (sample * thin)))
                   (SC.sweeps n s0)
         /\ for_range n (fun _ => SC.gibbs_cycle) s0
            = Ok (SC.sweeps n s0)).
Proof.
  intros Hok n. unfold SC.gibbs.
  eapply returns_bind.
  { apply returns_self. apply (@init_gibbs_spec _ (SC.init_suffStats s)). }
  intros s0 (R0 & D0 & _ & T0 & x0 & L0 & _).
  assert (O0 : SC.data_ok s0) by exact (data_ok_same D0 Hok).
  assert (Ht : SC.K s0 = SC.K s /\ SC.itype s0 = SC.itype s).
  { unfold SC.init_gibbs in R0.
    destruct (call (binomial_size half
                      (SC.L (SC.init_suffStats s) * SC.N (SC.init_suffStats s))
                      (SC.gen (SC.init_suffStats s)))) as [r|];
      [|discriminate].
    cbn [bind] in R0. inversion R0. split; reflexivity. }
  eapply returns_bind;
    [apply (sc_chain_sweeps s0 burnin O0 (ex_intro _ x0 L0))|].
  intros s1 (H1 & R1 & O1 & L1 & T1). subst s1.
  assert (Hs : SC.set_stats (Some SC.zero_stats) (SC.sweeps burnin s0)
               = SC.sweeps burnin s0).
  { rewrite <- (sc_set_stats_eta (SC.sweeps burnin s0)) at 2.
    rewrite T1, T0. reflexivity. }
  destruct (Nat.eq_dec thin 0) as [->|Hthin].
  - subst n. rewrite Nat.mul_0_r, Nat.add_0_r. apply returns_ok.
    exists s0. split; [exact R0|]. split; [apply Ht|].
    split; [apply Ht|]. split; [exact D0|].
    split; [|assumption]. unfold SC.accumulated. simpl.
    symmetry. exact Hs.
  - rewrite <- Hs. eapply returns_weaken.
    + apply sc_sampling_loop; [lia|assumption|assumption|assumption].
    + intros s' (Hs' & Hrun & _). exists s0.
      split; [exact R0|]. split; [apply Ht|]. split; [apply Ht|].
      split; [exact D0|]. split; assumption.
Qed.

Lemma fold_accumulate_gen (St X : Type) (step : St -> X -> St)
  (proj : St -> num) (val_of : X -> num) (c : num) :
  (forall st x, proj (step st x) = proj st + val_of x / c) ->
  forall xs st0,
    proj (fold_left step xs st0)
    = fold_left (fun acc v => acc + v / c) (map val_of xs) (proj st0).
Proof.
  intros Hstep. induction xs as [|x rest IH]; intros st0; simpl.
  - reflexivity.
  - rewrite IH, Hstep. reflexivity.
Qed.

Lemma fold_keep (St X : Type) (step : St -> X -> St) (proj : St -> num) :
  (forall st x, proj (step st x) = proj st) ->
  forall xs st0, proj (fold_left step xs st0) = proj st0.
Proof.
  intros Hstep. induction xs as [|x rest IH]; intros st0; simpl.
  - reflexivity.
  - rewrite IH. apply Hstep.
Qed.

Lemma sc_retained_spec (sample thin : nat) :
  (1 <= thin)%nat ->
  SC.retained sample thin = map (fun t => (t * thin)%nat) (seq 0 sample).
Proof.
  intros Hthin. unfold SC.retained.
  induction sample as [|n IH]; [reflexivity|].
  replace (S n * thin)%nat with (n * thin + thin)%nat by lia.
  rewrite seq_app, filter_app, IH. cbn [Nat.add].
  rewrite (@retained_block thin n Hthin), seq_S, map_app. reflexivity.
Qed.

(** the two [+=] on [exp_elbo_const] add one term divided by [sample] *)
Lemma elbo_step (a e1 e2 c : num) :
  nonzero c ->
  a + e1 / (two * c) + e2 / c = a + (e1 / two + e2) / c.
Proof.
  intros (q & -> & Hq).
  assert (H2 : (Q2Qc (inject_Z 2)) <> 0%Qc) by discriminate.
  assert (H2q : (Q2Qc (inject_Z 2) * q)%Qc <> 0%Qc).
  { intros H. apply Qcmult_integral in H. destruct H; contradiction. }
  unfold two, of_Z. cbn [nmul lift2].
  destruct a as [a|], e1 as [e1|], e2 as [e2|];
    rewrite ?ndiv_Fin by assumption; cbn [nadd lift2];
    rewrite ?ndiv_Fin by assumption; cbn [nadd lift2 ndiv];
    try reflexivity.
  f_equal. field. split; assumption.
Qed.

(** X16: from a sampler built by the constructor whose membership
    lists name existing cells, with [sample >= 1] and [thin >= 1],
    [gibbs] initialises the latent state, runs [burnin]
    sweeps without accumulating, then [sample*thin] sweeps, and
    accumulates after the sweeps of index [0, thin, 2*thin, ...]: the
    five expectation arrays end as the arithmetic means of [S], [kappa],
    [tau], [kappa^2] and [tau^2] over the states after these sweeps, the
    columns of [coeffA] and [coeffAsq] of a type with cells as the means
    of the sums over its cells, the columns of a type without cells stay
    zero, and [exp_elbo_const] is the mean of the constant. *)
Theorem sc_gibbs_running_means (s : SC.sampler)
  (burnin sample thin : nat) :
  SC.data_ok s ->
  (forall k l, In l (SC.itype s k) -> (l < SC.L s)%nat) ->
  (1 <= sample)%nat -> (1 <= thin)%nat ->
  let n := (burnin + sample * thin)%nat in
  let kept := SC.retained sample thin in
  kept = map (fun t => (t * thin)%nat) (seq 0 sample)
  /\ returns (SC.gibbs burnin sample thin s)
       (fun s' =>
          exists s0 st,
            SC.init_gibbs (SC.init_suffStats s) = Ok s0
            /\ for_range n (fun _ => SC.gibbs_cycle) s0
               = Ok (SC.sweeps n s0)
            /\ SC.lat s' = SC.lat (SC.sweeps n s0)
            /\ SC.suff_stats s' = Some st
            /\ let state t := SC.sweeps (burnin + t + 1) s0 in
               let x t := SC.lat_of (state t) in
               (forall l i,
                  SC.exp_S st l i
                  = mean (map (fun t => of_Z (SC.S_ (x t) l i)) kept))
               /\ (forall l,
                     SC.exp_kappa st l
                     = mean (map (fun t => SC.kappa (x t) l) kept))
               /\ (forall l,
                     SC.exp_tau st l
                     = mean (map (fun t => SC.tau (x t) l) kept))
               /\ (forall l,
                     SC.exp_kappasq st l
                     = mean (map (fun t => SC.kappa (x t) l
                                           * SC.kappa (x t) l) kept))
               /\ (forall l,
                     SC.exp_tausq st l
                     = mean (map (fun t => SC.tau (x t) l
                                           * SC.tau (x t) l) kept))
               /\ (forall i k,
                     (k < SC.K s)%nat -> SC.itype s k <> [] ->
                     SC.coeffA st i k
                     = mean (map (fun t => SC.stat_coeffA (state t) (x t) i k)
                               kept)
                     /\ SC.coeffAsq st i k
                        = mean (map (fun t =>
                                       SC.stat_coeffAsq (state t) (x t) i k)
                                  kept))
               /\ (forall i k,
                     ~ ((k < SC.K s)%nat /\ SC.itype s k <> []) ->
                     SC.coeffA st i k = 0 /\ SC.coeffAsq st i k = 0)
               /\ SC.exp_elbo_const st
                  = mean (map (fun t => SC.stat_elbo (state t) (x t)) kept)).
Proof.
  intros Hok _ Hsample Hthin n kept.
  assert (Hkept : kept = map (fun t => (t * thin)%nat) (seq 0 sample))
    by (apply sc_retained_spec; assumption).
  split; [exact Hkept|].
  assert (Hlen : forall f : nat -> num, length (map f kept) = sample).
  { intros f. rewrite length_map, Hkept, length_map, length_seq.
    reflexivity. }
  assert (Hc : nonzero (of_nat sample)) by (apply nonzero_of_nat; assumption).
  eapply returns_weaken;
    [apply (sc_gibbs_chain s burnin sample thin Hok)|].
  intros s' (s0 & R0 & HK & Ht & _ & Hs' & Hrun). fold n in Hs', Hrun.
  exists s0. subst s'. cbn [SC.lat SC.set_stats SC.suff_stats].
  eexists. split; [exact R0|]. split; [exact Hrun|].
  split; [reflexivity|]. split; [reflexivity|].
  unfold SC.accumulated. fold (SC.retained sample thin). fold kept.
  cbv zeta.
  assert (Hty : forall m k,
             ((k <? SC.K (SC.sweeps m s0))%nat
              && negb (Nat.eqb (length (SC.itype (SC.sweeps m s0) k)) 0))
             = ((k <? SC.K s)%nat
                && negb (Nat.eqb (length (SC.itype s k)) 0))).
  { intros m k. destruct (sc_sweeps_types m s0) as [-> ->].
    rewrite HK, Ht. reflexivity. }
  split.
  { intros l i.
    match goal with
    | |- _ (fold_left ?step kept SC.zero_stats) l i = mean (map ?v kept) =>
        rewrite (fold_accumulate_gen SC.stats nat step
                   (fun st => SC.exp_S st l i) v
                   (of_nat sample) (fun _ _ => eq_refl) kept SC.zero_stats);
        apply (@running_mean sample (map v kept) Hsample (Hlen v))
    end. }
  split.
  { intros l.
    match goal with
    | |- _ (fold_left ?step kept SC.zero_stats) l = mean (map ?v kept) =>
        rewrite (fold_accumulate_gen SC.stats nat step
                   (fun st => SC.exp_kappa st l) v
                   (of_nat sample) (fun _ _ => eq_refl) kept SC.zero_stats);
        apply (@running_mean sample (map v kept) Hsample (Hlen v))
    end. }
  split.
  { intros l.
    match goal with
    | |- _ (fold_left ?step kept SC.zero_stats) l = mean (map ?v kept) =>
        rewrite (fold_accumulate_gen SC.stats nat step
                   (fun st => SC.exp_tau st l) v
                   (of_nat sample) (fun _ _ => eq_refl) kept SC.zero_stats);
        apply (@running_mean sample (map v kept) Hsample (Hlen v))
    end. }
  split.
  { intros l.
    match goal with
    | |- _ (fold_left ?step kept SC.zero_stats) l = mean (map ?v kept) =>
        rewrite (fold_accumulate_gen SC.stats nat step
                   (fun st => SC.exp_kappasq st l) v
                   (of_nat sample) (fun _ _ => eq_refl) kept SC.zero_stats);
        apply (@running_mean sample (map v kept) Hsample (Hlen v))
    end. }
  split.
  { intros l.
    match goal with
    | |- _ (fold_left ?step kept SC.zero_stats) l = mean (map ?v kept) =>
        rewrite (fold_accumulate_gen SC.stats nat step
                   (fun st => SC.exp_tausq st l) v
                   (of_nat sample) (fun _ _ => eq_refl) kept SC.zero_stats);
        apply (@running_mean sample (map v kept) Hsample (Hlen v))
    end. }
  split.
  { intros i k Hk Hne.
    assert (Hon : ((k <? SC.K s)%nat
                   && negb (Nat.eqb (length (SC.itype s k)) 0)) = true).
    { apply andb_true_intro. split; [apply Nat.ltb_lt; assumption|].
      destruct (SC.itype s k); [contradiction|reflexivity]. }
    split.
    - match goal with
      | |- _ (fold_left ?step kept SC.zero_stats) i k
           = mean (map ?v kept) =>
          rewrite (fold_accumulate_gen SC.stats nat step
                     (fun st => SC.coeffA st i k) v (of_nat sample));
            [apply (@running_mean sample (map v kept) Hsample (Hlen v))|]
      end.
      intros st t. unfold SC.accumulate. cbn [SC.coeffA].
      rewrite Hty, Hon. reflexivity.
    - match goal with
      | |- _ (fold_left ?step kept SC.zero_stats) i k
           = mean (map ?v kept) =>
          rewrite (fold_accumulate_gen SC.stats nat step
                     (fun st => SC.coeffAsq st i k) v (of_nat sample));
            [apply (@running_mean sample (map v kept) Hsample (Hlen v))|]
      end.
      intros st t. unfold SC.accumulate. cbn [SC.coeffAsq].
      rewrite Hty, Hon. reflexivity. }
  split.
  { intros i k Hoff.
    assert (Hno : ((k <? SC.K s)%nat
                   && negb (Nat.eqb (length (SC.itype s k)) 0)) = false).
    { destruct (Nat.ltb_spec k (SC.K s)) as [Hk|Hk]; [|reflexivity].
      destruct (SC.itype s k) as [|c cs] eqn:E; [reflexivity|].
      exfalso. apply Hoff. split; [assumption|discriminate]. }
    split.
    - match goal with
      | |- _ (fold_left ?step kept SC.zero_stats) i k = _ =>
          rewrite (fold_keep SC.stats nat step (fun st => SC.coeffA st i k));
            [reflexivity|]
      end.
      intros st t. unfold SC.accumulate. cbn [SC.coeffA].
      rewrite Hty, Hno. reflexivity.
    - match goal with
      | |- _ (fold_left ?step kept SC.zero_stats) i k = _ =>
          rewrite (fold_keep SC.stats nat step
                     (fun st => SC.coeffAsq st i k));
            [reflexivity|]
      end.
      intros st t. unfold SC.accumulate. cbn [SC.coeffAsq].
      rewrite Hty, Hno. reflexivity. }
  match goal with
  | |- _ (fold_left ?step kept SC.zero_stats) = mean (map ?v kept) =>
      rewrite (fold_accumulate_gen SC.stats nat step
                 SC.exp_elbo_const v (of_nat sample));
        [apply (@running_mean sample (map v kept) Hsample (Hlen v))|]
  end.
  intros st t. unfold SC.accumulate, SC.stat_elbo. cbn [SC.exp_elbo_const].
  apply elbo_step. exact Hc.
Qed.

End SingleCellExtra.

(** ** The driver's label checks against the bulk sampler *)

Section DriverFacts.
Context {lib : Library}.

Lemma fold_max_ge (xs : list nat) (x : nat) :
  (x <= fold_left Nat.max xs x)%nat
  /\ (forall y, In y xs -> (y <= fold_left Nat.max xs x)%nat)
  /\ (fold_left Nat.max xs x = x \/ In (fold_left Nat.max xs x) xs).
Proof.
  revert x. induction xs as [|a rest IH]; intros x; cbn [fold_left].
  - split; [lia|]. split; [intros y []|]. left. reflexivity.
  - destruct (IH (Nat.max x a)) as (H1 & H2 & H3).
    split; [lia|]. split.
    + intros y [->|Hy]; [lia|]. apply H2. assumption.
    + destruct H3 as [H3|H3]; [|right; right; assumption].
      rewrite H3. destruct (Nat.max_spec x a) as [[_ ->]|[_ ->]].
      * right. left. reflexivity.
      * left. reflexivity.
Qed.

Lemma np_max_spec (a : list nat) (K : nat) :
  a <> [] ->
  exists m,
    Driver.np_max a = Some m
    /\ ((K <? m)%nat = true <-> exists k, In k a /\ (K < k)%nat).
Proof.
  destruct a as [|x rest]; [congruence|]. intros _.
  eexists. split; [reflexivity|].
  destruct (fold_max_ge rest x) as (H1 & H2 & H3).
  rewrite Nat.ltb_lt. split.
  - intros Hlt. exists (fold_left Nat.max rest x). split; [|assumption].
    destruct H3 as [->|H3]; [left; reflexivity|right; assumption].
  - intros (k & [<-|Hk] & Hlt); [lia|]. specialize (H2 k Hk). lia.
Qed.

Lemma types_rejected_spec (G : list nat) (K : nat) :
  Driver.types_rejected G K = true <-> exists g, In g G /\ (K <= g)%nat.
Proof.
  unfold Driver.types_rejected. rewrite Nat.ltb_lt.
  assert (Htest : forall g,
             negb (existsb (Nat.eqb g) (seq 0 K)) = true <-> (K <= g)%nat).
  { intros g. rewrite negb_true_iff. split.
    - intros Hn. destruct (Nat.le_gt_cases K g) as [|Hlt]; [assumption|].
      assert (Hex : existsb (Nat.eqb g) (seq 0 K) = true).
      { apply existsb_exists. exists g. split; [apply in_seq; lia|].
        apply Nat.eqb_refl. }
      congruence.
    - intros Hle. destruct (existsb (Nat.eqb g) (seq 0 K)) eqn:E;
        [|reflexivity].
      apply existsb_exists in E. destruct E as (y & Hy & Heq).
      apply in_seq in Hy. apply Nat.eqb_eq in Heq. lia. }
  split.
  - intros Hlen.
    destruct (filter (fun g => negb (existsb (Nat.eqb g) (seq 0 K)))
                (nodup Nat.eq_dec G)) as [|g rest] eqn:E;
      [simpl in Hlen; lia|].
    assert (Hin : In g (g :: rest)) by (left; reflexivity).
    rewrite <- E in Hin. apply filter_In in Hin. destruct Hin as [Hg Ht].
    exists g. split; [apply (nodup_In Nat.eq_dec); assumption|].
    apply Htest. assumption.
  - intros (g & Hg & Hle).
    assert (Hin : In g (filter
                          (fun g => negb (existsb (Nat.eqb g) (seq 0 K)))
                          (nodup Nat.eq_dec G))).
    { apply filter_In. split; [apply nodup_In; assumption|].
      apply Htest. assumption. }
    destruct (filter (fun g => negb (existsb (Nat.eqb g) (seq 0 K)))
                (nodup Nat.eq_dec G)); [contradiction|simpl; lia].
Qed.


End DriverFacts.

(** ** The further properties on the concrete samplers *)

#[export] Instance det_bernoulli : BernoulliLaws det_lib.
Proof.
  constructor.
  - intros p g v g' H. simpl in H. inversion H; subst.
    destruct (is_zero p); [left|right]; reflexivity.
  - intros p n g f g' H i _. simpl in H. inversion H; subst.
    left. reflexivity.
Qed.

Lemma bk_init_gibbs_errors_witness :
  BK.init_gibbs bk_off_marker = Err IndexError.
Proof.
  destruct (@bk_init_gibbs_errors det_lib bk_off_marker) as [H _].
  apply (H [(O, 2%nat)] eq_refl). exists O, 2%nat.
  split; [left; reflexivity|]. right. simpl. lia.
Defined.

Lemma bk_get_nmf_W_update_witness :
  exists s' w',
    BK.get_nmf_W bk_ready = Ok s' /\ BK.W s' = Some w'
    /\ BK.AW s' = Some (BK.dot_AW bk_ready (fun _ _ => 1 / of_nat 2)).
Proof.
  destruct (@bk_get_nmf_W_update det_lib bk_ready) as [_ H].
  destruct (H _ eq_refl) as (s' & w' & R & HW & HAW & _).
  exists s', w'. repeat (split; [assumption|]). assumption.
Defined.

Lemma bk_draw_Z_mean_cells_witness :
  BK.draw_Z_mean bk_example = Err AttributeError.
Proof.
  destruct (@bk_draw_Z_mean_cells det_lib bk_example) as [H _].
  apply H. reflexivity.
Defined.

Lemma bk_gibbs_cycle_draws_witness :
  returns (BK.gibbs_cycle bk_ready)
    (fun s' => BK.same_data bk_ready s').
Proof.
  eapply returns_weaken.
  - apply (@bk_gibbs_cycle_draws det_lib bk_ready _ _ eq_refl eq_refl).
  - intros s' [H _]. exact H.
Defined.

Lemma bk_pvals_normalised_witness :
  sum_n 2
    (BK.pvals bk_ready (fun _ _ => 1 / of_nat 2)
       (BK.dot_AW bk_ready (fun _ _ => 1 / of_nat 2)) 0 0) = 1.
Proof.
  apply (@bk_pvals_normalised det_lib bk_ready (fun _ _ => 1 / of_nat 2)
           O O).
  eexists. split; [vm_compute; reflexivity|]. discriminate.
Defined.

Lemma bk_gibbs_AW_cache_witness :
  returns (BK.gibbs 1 2 1 false bk_ready)
    (fun s' =>
       exists w', BK.W s' = Some w' /\ BK.AW s' = Some (BK.dot_AW s' w')).
Proof.
  apply (@bk_gibbs_AW_cache det_lib bk_ready 1 2 1 false).
  - split; eexists; reflexivity.
  - right. simpl. lia.
Defined.

Lemma bk_gibbs_mean_statistics_witness :
  exists s' st,
    BK.gibbs 5 5 1 true bk_ready = Ok s' /\ BK.suff_stats s' = Some st
    /\ forall k j, BK.exp_W st k j = BK.stat_W s' k j.
Proof.
  destruct (@bk_gibbs_mean_statistics det_lib bk_ready 5 5 1)
    as (s' & st & R & T & _ & _ & _ & H).
  - split; eexists; reflexivity.
  - exists s', st. split; [assumption|]. split; assumption.
Defined.

Lemma bk_gibbs_no_sampling_witness :
  returns (BK.gibbs 2 0 1 false bk_ready)
    (fun s' =>
       s' = BK.set_stats (Some BK.zero_stats)
              (BK.sweeps 2 (BK.init_suffStats bk_ready))).
Proof.
  eapply returns_weaken.
  - apply (@bk_gibbs_no_sampling det_lib bk_ready 2 0 1).
    + split; eexists; reflexivity.
    + reflexivity.
  - intros s' [_ H]. exact H.
Defined.

Lemma bk_single_type_witness :
  returns (BK.gibbs 1 1 1 false bk_single)
    (fun s' => exists w, BK.W s' = Some w /\ w O O = 1).
Proof.
  eapply returns_weaken.
  - apply (@bk_single_type det_lib det_laws bk_single 1 1 1).
    + reflexivity.
    + split; eexists; reflexivity.
    + simpl. lia.
  - intros s' (w & z & Hw & _ & H & _). exists w. split; [assumption|].
    apply H. simpl. lia.
Defined.

Lemma bk_gibbs_ignores_AW_witness :
  BK.gibbs 1 1 1 false (BK.set_AW None bk_ready)
  = BK.gibbs 1 1 1 false bk_ready.
Proof.
  apply (@bk_gibbs_ignores_AW det_lib bk_ready None 1 1 1 false).
  right. simpl. lia.
Defined.

Lemma sc_psi_linked_witness :
  returns (SC.gibbs 1 2 1 sc_example)
    (fun s' => exists x', SC.lat s' = Some x' /\ SC.linked s' x').
Proof.
  destruct (@sc_psi_linked det_lib sc_example) as (_ & _ & _ & H).
  - split; reflexivity.
  - apply H.
Defined.


Lemma sc_S_binary_witness :
  returns (SC.gibbs 1 2 1 sc_example)
    (fun s' => exists x', SC.lat s' = Some x' /\ SC.binary s' x').
Proof.
  destruct (@sc_S_binary det_lib det_bernoulli sc_example)
    as (_ & _ & _ & H).
  apply H.
Defined.

Lemma sc_all_observed_witness :
  SC.izero sc_observed = [] /\ SC.draw_S sc_observed = Ok sc_observed.
Proof.
  destruct (@sc_all_observed det_lib sc_observed) as (H1 & H2 & _).
  - split; reflexivity.
  - intros l i _ _. simpl. lia.
  - split; assumption.
Defined.

Lemma sc_needs_init_gibbs_witness :
  SC.gibbs_cycle sc_example = Err AttributeError.
Proof.
  destruct (@sc_needs_init_gibbs det_lib sc_example eq_refl) as [H _].
  exact H.
Defined.

Lemma sc_gibbs_running_means_witness :
  SC.retained 3 2 = map (fun t => (t * 2)%nat) (seq 0 3).
Proof.
  destruct (@sc_gibbs_running_means det_lib sc_example 1 3 2) as [H _].
  - split; reflexivity.
  - intros k l [<-|[]]. simpl. lia.
  - lia.
  - lia.
  - exact H.
Defined.

